(** * tokenize-css: a shallow embedding of [src/tokenize-css.js]

    The script reads a stylesheet, collects recurring literals, names them as
    design tokens and emits a token document.  This development embeds the
    parts of the script its specification speaks about: the numeric helpers
    (JavaScript numbers are IEEE binary64, embedded as Rocq's primitive
    floats), the colour model and its dark transforms, the unit conversion
    engine, the name factory, the category orders, the role assignment and
    the emission of the token document.

    Strings are byte strings ([string]); the regular expressions of the script
    only distinguish ASCII classes, so a non-ASCII character behaves as a run
    of bytes outside every class.  Numbers follow ECMAScript on binary64 with
    correct rounding of decimal literals. *)

From Stdlib Require Import ZArith List String Ascii Bool Lia Floats.
From Stdlib Require Import Sorting.Sorted Sorting.Permutation.
From Stdlib Require Import DecimalString DecimalNat.
Import ListNotations.

Local Open Scope string_scope.
Local Open Scope Z_scope.

(** ** Strings *)

Module Str.

Definition ch (n : nat) : ascii := ascii_of_nat n.

Definition code (c : ascii) : nat := nat_of_ascii c.

Definition is_digit (c : ascii) : bool :=
  (48 <=? code c)%nat && (code c <=? 57)%nat.

Definition is_upper (c : ascii) : bool :=
  (65 <=? code c)%nat && (code c <=? 90)%nat.

Definition is_lower (c : ascii) : bool :=
  (97 <=? code c)%nat && (code c <=? 122)%nat.

(** [\w]: letters, digits and the underscore. *)
Definition is_word (c : ascii) : bool :=
  is_digit c || is_upper c || is_lower c || (code c =? 95)%nat.

(** ASCII white space, the part of [\s] a byte string can show. *)
Definition is_space (c : ascii) : bool :=
  (code c =? 32)%nat || ((9 <=? code c)%nat && (code c <=? 13)%nat).

Definition lower (c : ascii) : ascii :=
  if is_upper c then ch (code c + 32) else c.

Fixpoint toLowerCase (s : string) : string :=
  match s with
  | EmptyString => EmptyString
  | String c r => String (lower c) (toLowerCase r)
  end.

Fixpoint repeat (c : ascii) (n : nat) : string :=
  match n with
  | O => EmptyString
  | S k => String c (repeat c k)
  end.

Fixpoint rev_onto (s acc : string) : string :=
  match s with
  | EmptyString => acc
  | String c r => rev_onto r (String c acc)
  end.

Definition rev (s : string) : string := rev_onto s EmptyString.

(** [startsWith s p]: [p] is a prefix of [s]. *)
Definition startsWith (s p : string) : bool := String.prefix p s.

(** The rest of [s] after the prefix [p], compared without case when [ci]. *)
Fixpoint strip_prefix (ci : bool) (p s : string) : option string :=
  match p, s with
  | EmptyString, _ => Some s
  | String a p', String b s' =>
      if Ascii.eqb (if ci then lower a else a) (if ci then lower b else b)
      then strip_prefix ci p' s' else None
  | String _ _, EmptyString => None
  end.

Fixpoint drop_while (f : ascii -> bool) (s : string) : string :=
  match s with
  | EmptyString => EmptyString
  | String c r => if f c then drop_while f r else s
  end.

Fixpoint take_while (f : ascii -> bool) (s : string) : string :=
  match s with
  | EmptyString => EmptyString
  | String c r => if f c then String c (take_while f r) else EmptyString
  end.

Definition trimStart (s : string) : string := drop_while is_space s.

Definition trim (s : string) : string :=
  rev (drop_while is_space (rev (drop_while is_space s))).

(** [padStart 2 '0'] and friends. *)
Definition padStart (n : nat) (c : ascii) (s : string) : string :=
  repeat c (n - String.length s) ++ s.

Fixpoint take (n : nat) (s : string) : string :=
  match n, s with
  | S k, String c r => String c (take k r)
  | _, _ => EmptyString
  end.

Fixpoint drop (n : nat) (s : string) : string :=
  match n, s with
  | S k, String _ r => drop k r
  | _, _ => s
  end.

Definition mem (x : string) (l : list string) : bool :=
  existsb (String.eqb x) l.

End Str.

(** ** JavaScript numbers

    A Number is a binary64 value.  The arithmetic operators are the
    primitive ones; what ECMAScript adds (remainder, [Math.round],
    [Math.min]/[Math.max], the conversions from and to text) is computed
    exactly on the value [m * 2^e] a finite float denotes and rounded once. *)

Module Num.

Definition number := float.

Definition prec : Z := 53.
Definition emax : Z := 1024.

(** The binary64 value nearest to [n / d] (ties to even), with sign [neg]. *)
Definition round_ratio (neg : bool) (n d : positive) : number :=
  let '(q, e, l) := SFdiv_core_binary prec emax (Zpos n) 0 (Zpos d) 0 in
  SF2Prim (binary_round_aux prec emax neg q e l).

(** The binary64 value nearest to the integer [z]; a zero gets sign [szero]. *)
Definition of_Z_signed (z : Z) (szero : bool) : number :=
  SF2Prim (binary_normalize prec emax z 0 szero).

Definition of_Z (z : Z) : number := of_Z_signed z false.

Definition of_nat (n : nat) : number := of_Z (Z.of_nat n).

(** [x % y] *)
Definition rem (x y : number) : number :=
  match Prim2SF x, Prim2SF y with
  | S754_nan, _ | _, S754_nan => nan
  | S754_infinity _, _ => nan
  | _, S754_zero _ => nan
  | S754_zero _, _ => x
  | S754_finite _ _ _, S754_infinity _ => x
  | S754_finite sx mx ex, S754_finite _ my ey =>
      let e := Z.min ex ey in
      let X := Zpos mx * 2 ^ (ex - e) in
      let Y := Zpos my * 2 ^ (ey - e) in
      let R := Z.rem X Y in
      SF2Prim (binary_normalize prec emax (if sx then - R else R) e sx)
  end.

(** [Math.round]: the nearest integer, a tie going up.  For [x = v * 2^e]
    with [e < 0] that is [floor (x + 1/2)], the floor of
    [(2 v + 2^(-e)) / 2^(1-e)], taken by a shift; a zero result keeps the
    sign of [x]. *)
Definition round (x : number) : number :=
  match Prim2SF x with
  | S754_finite s m e =>
      if 0 <=? e then x
      else
        let v := if s then Zneg m else Zpos m in
        of_Z_signed (Z.shiftr (2 * v + Z.shiftl 1 (- e)) (1 - e)) s
  | _ => x
  end.

(** [Math.max] and [Math.min] of two arguments. *)
Definition max2 (a b : number) : number :=
  if is_nan a || is_nan b then nan
  else if (a <? b)%float then b
  else if (b <? a)%float then a
  else if get_sign a then b else a.

Definition min2 (a b : number) : number :=
  if is_nan a || is_nan b then nan
  else if (a <? b)%float then a
  else if (b <? a)%float then b
  else if get_sign a then a else b.

Definition max3 (a b c : number) : number := max2 (max2 a b) c.
Definition min3 (a b c : number) : number := min2 (min2 a b) c.

(** *** Decimal digits *)

Definition digit_char (d : Z) : ascii :=
  if d <? 10 then Str.ch (Z.to_nat (48 + d)) else Str.ch (Z.to_nat (87 + d)).

Fixpoint digits_fuel (base : Z) (fuel : nat) (n : Z) (acc : string) : string :=
  match fuel with
  | O => acc
  | S f =>
      let acc' := String (digit_char (n mod base)) acc in
      if n <? base then acc' else digits_fuel base f (n / base) acc'
  end.

(** The digits of a natural number in base 10 or 16, without leading zeros. *)
Definition digits_of (base n : Z) : string :=
  digits_fuel base (S (Z.to_nat (Z.log2 n))) n EmptyString.

Definition Z_digits (n : Z) : string := digits_of 10 n.

Definition nat_to_string (n : nat) : string := Z_digits (Z.of_nat n).

Definition digit_val (c : ascii) : Z := Z.of_nat (Str.code c) - 48.

Definition hex_val (c : ascii) : option Z :=
  let n := Z.of_nat (Str.code c) in
  if Str.is_digit c then Some (n - 48)
  else if (97 <=? n) && (n <=? 102) then Some (n - 87)
  else if (65 <=? n) && (n <=? 70) then Some (n - 55)
  else None.

Fixpoint digits_val (s : string) (acc : Z) : Z :=
  match s with
  | EmptyString => acc
  | String c r => digits_val r (10 * acc + digit_val c)
  end.

(** *** From text to a number *)

(** The value [mant * 10^exp10], rounded once.  Beyond the range of binary64
    the powers of ten are not computed: the result is an infinity or a zero. *)
Definition dec_to_number (neg : bool) (mant exp10 : Z) : number :=
  match mant with
  | Zpos m =>
      let nd := Z.of_nat (String.length (Z_digits mant)) in
      if 400 <? nd + exp10 then (if neg then neg_infinity else infinity)
      else if nd + exp10 <? -400 then (if neg then neg_zero else zero)
      else if 0 <=? exp10 then
        match mant * 10 ^ exp10 with
        | Zpos n => round_ratio neg n 1
        | _ => nan
        end
      else
        match 10 ^ (- exp10) with
        | Zpos d => round_ratio neg m d
        | _ => nan
        end
  | _ => if neg then neg_zero else zero
  end.

(** The exponent part [e], [e+] or [e-] followed by digits, when complete. *)
Definition scan_exponent (s : string) : Z * string :=
  match s with
  | String c r =>
      if Ascii.eqb (Str.lower c) "e"%char then
        let '(neg, r') :=
          match r with
          | String "-"%char t => (true, t)
          | String "+"%char t => (false, t)
          | _ => (false, r)
          end in
        let ds := Str.take_while Str.is_digit r' in
        match ds with
        | EmptyString => (0, s)
        | _ =>
            let v := digits_val ds 0 in
            ((if neg then - v else v), Str.drop_while Str.is_digit r')
        end
      else (0, s)
  | EmptyString => (0, s)
  end.

(** The longest prefix of [s] that is a decimal literal (sign, [Infinity] or
    digits with an optional fraction and exponent), as a number with the
    text left over. *)
Definition scan_decimal (s : string) : option (number * string) :=
  let '(neg, u) :=
    match s with
    | String "-"%char t => (true, t)
    | String "+"%char t => (false, t)
    | _ => (false, s)
    end in
  match Str.strip_prefix false "Infinity" u with
  | Some rest => Some ((if neg then neg_infinity else infinity), rest)
  | None =>
      let ip := Str.take_while Str.is_digit u in
      let u1 := Str.drop_while Str.is_digit u in
      let '(fp, u2) :=
        match u1 with
        | String "."%char t =>
            (Str.take_while Str.is_digit t, Str.drop_while Str.is_digit t)
        | _ => (EmptyString, u1)
        end in
      match ip, fp with
      | EmptyString, EmptyString => None
      | _, _ =>
          let '(ex, rest) := scan_exponent u2 in
          let mant := digits_val (ip ++ fp) 0 in
          Some (dec_to_number neg mant (ex - Z.of_nat (String.length fp)), rest)
      end
  end.

(** [parseFloat] *)
Definition parseFloat (s : string) : number :=
  match scan_decimal (Str.trimStart s) with
  | Some (x, _) => x
  | None => nan
  end.

(** Unary plus on a string whose text is a decimal literal, and [NaN] on any
    other text ([toFixed] and [String] never print a radix prefix). *)
Definition toNumber (s : string) : number :=
  match Str.trim s with
  | EmptyString => zero
  | t =>
      match scan_decimal t with
      | Some (x, EmptyString) => x
      | _ => nan
      end
  end.

(** [parseInt(s, 16)] *)
Fixpoint hex_prefix (s : string) (acc : option Z) : option Z :=
  match s with
  | String c r =>
      match hex_val c with
      | Some d => hex_prefix r (Some (16 * match acc with Some a => a | None => 0 end + d))
      | None => acc
      end
  | EmptyString => acc
  end.

Definition parseInt16 (s : string) : number :=
  let t := Str.trimStart s in
  let '(neg, u) :=
    match t with
    | String "-"%char r => (true, r)
    | String "+"%char r => (false, r)
    | _ => (false, t)
    end in
  let u' := match Str.strip_prefix true "0x" u with Some r => r | None => u end in
  match hex_prefix u' None with
  | Some v => of_Z_signed (if neg then - v else v) neg
  | None => nan
  end.

(** *** From a number to text *)

(** A finite, non-zero magnitude [m * 2^e] as an exact fraction [N / D]. *)
Definition fraction_of (m : positive) (e : Z) : Z * Z :=
  if 0 <=? e then (Zpos m * 2 ^ e, 1) else (Zpos m, 2 ^ (- e)).

(** The decimal exponent [n] of [N / D]: [10^(n-1) <= N / D < 10^n]. *)
Definition dec_exponent (N D : Z) : Z :=
  let g := Z.of_nat (String.length (Z_digits N))
           - Z.of_nat (String.length (Z_digits D)) in
  let below := if 0 <=? g then N <? D * 10 ^ g else N * 10 ^ (- g) <? D in
  if below then g else g + 1.

(** Among the decimals [s * 10^(n-k)] around [x = N / D], the one nearest to
    [x] that reads back as [x] (an even [s] on a tie), if there is one. *)
Definition shortest_at (x : number) (N D n k : Z) : option Z :=
  let j := k - n in
  let A := if 0 <=? j then N * 10 ^ j else N in
  let B := if 0 <=? j then D else D * 10 ^ (- j) in
  let lo := A / B in
  let r := A mod B in
  let hi := lo + 1 in
  let ok_lo := Leibniz.eqb (dec_to_number false lo (n - k)) x in
  let ok_hi := Leibniz.eqb (dec_to_number false hi (n - k)) x in
  if ok_lo && ok_hi then
    if 2 * r <? B then Some lo
    else if B <? 2 * r then Some hi
    else if Z.even lo then Some lo else Some hi
  else if ok_lo then Some lo
  else if ok_hi then Some hi
  else None.

(** The least number of digits [k] that has such a decimal; seventeen
    digits always do. *)
Fixpoint shortest_from (fuel : nat) (x : number) (N D n k : Z) : Z * Z :=
  match fuel with
  | O => (N * 10 ^ (k - n) / D, k)
  | S f =>
      match shortest_at x N D n k with
      | Some s => (s, k)
      | None => shortest_from f x N D n (k + 1)
      end
  end.

(** Digits [s] and exponent [n] laid out as [Number::toString] does. *)
Definition layout (s n : Z) : string :=
  let ds := Z_digits s in
  let k := Z.of_nat (String.length ds) in
  if (k <=? n) && (n <=? 21) then ds ++ Str.repeat "0"%char (Z.to_nat (n - k))
  else if (0 <? n) && (n <=? 21) then
    Str.take (Z.to_nat n) ds ++ "." ++ Str.drop (Z.to_nat n) ds
  else if (-6 <? n) && (n <=? 0) then
    "0." ++ Str.repeat "0"%char (Z.to_nat (- n)) ++ ds
  else
    let e := n - 1 in
    let es := (if e <? 0 then "-" else "+") ++ Z_digits (Z.abs e) in
    if k =? 1 then ds ++ "e" ++ es
    else Str.take 1 ds ++ "." ++ Str.drop 1 ds ++ "e" ++ es.

(** [String(x)]: the shortest decimal that reads back as [x]. *)
Definition toString (x : number) : string :=
  match Prim2SF x with
  | S754_nan => "NaN"
  | S754_zero _ => "0"
  | S754_infinity s => if s then "-Infinity" else "Infinity"
  | S754_finite s m e =>
      let '(N, D) := fraction_of m e in
      let n := dec_exponent N D in
      let '(d, k) := shortest_from 17 (abs x) N D n 1 in
      (* the candidate above may be [10^k]: one digit, one place higher *)
      let body := if d =? 10 ^ k then layout (10 ^ (k - 1)) (n + 1) else layout d n in
      (if s then "-" else EmptyString) ++ body
  end.

(** [x.toFixed(f)] *)
Definition toFixed (x : number) (f : nat) : string :=
  match Prim2SF x with
  | S754_nan => "NaN"
  | S754_infinity _ => toString x
  | S754_zero _ =>
      if (f =? 0)%nat then "0" else "0." ++ Str.repeat "0"%char f
  | S754_finite s m e =>
      let '(N, D) := fraction_of m e in
      if 10 ^ 21 * D <=? N then toString x
      else
        let n := (2 * N * 10 ^ Z.of_nat f + D) / (2 * D) in
        let ds := Z_digits n in
        let ds' := Str.padStart (S f) "0"%char ds in
        let k := String.length ds' in
        let body :=
          if (f =? 0)%nat then ds
          else Str.take (k - f) ds' ++ "." ++ Str.drop (k - f) ds' in
        (if s then "-" else EmptyString) ++ body
  end.

(** Hexadecimal digits of the fraction [r / D] ([D] a power of two), to the
    last non-zero digit. *)
Fixpoint hex_fraction (fuel : nat) (r D : Z) : string :=
  match fuel with
  | O => EmptyString
  | S f =>
      if r =? 0 then EmptyString
      else String (digit_char (16 * r / D)) (hex_fraction f ((16 * r) mod D) D)
  end.

(** [x.toString(16)]: the exact hexadecimal expansion of [x]. *)
Definition toString16 (x : number) : string :=
  match Prim2SF x with
  | S754_nan => "NaN"
  | S754_zero _ => "0"
  | S754_infinity s => if s then "-Infinity" else "Infinity"
  | S754_finite s m e =>
      let '(N, D) := fraction_of m e in
      let r := N mod D in
      (if s then "-" else EmptyString) ++ digits_of 16 (N / D)
      ++ (if r =? 0 then EmptyString
          else "." ++ hex_fraction (S (Z.to_nat (Z.log2 D))) r D)
  end.

End Num.

Set Warnings "-inexact-float".

(** ** Colour model *)

Module Color.

Import Num.
Local Open Scope float_scope.

Record RGBA := mkRGBA { r : number; g : number; b : number; a : number }.

Record HSL := mkHSL { h : number; s : number; l : number; ha : number }.

(** [clamp(v, lo, hi) = Math.min(hi, Math.max(lo, v))] *)
Definition clamp (v lo hi : number) : number := min2 hi (max2 lo v).

(** [round(n, 4)]: [Math.round(n * f) / f] with [f = 10 ** 4]. *)
Definition round4 (n : number) : number := round (n * 10000) / 10000.

Definition rgbaToHsl (c : RGBA) : HSL :=
  let R := r c / 255 in
  let G := g c / 255 in
  let B := b c / 255 in
  let max := max3 R G B in
  let min := min3 R G B in
  let l0 := (max + min) / 2 in
  let d := max - min in
  if negb (d =? 0) then
    let s0 := if 0.5 <? l0 then d / (2 - max - min) else d / (max + min) in
    let h0 :=
      if max =? R then (G - B) / d + (if G <? B then 6 else 0)
      else if max =? G then (B - R) / d + 2
      else if max =? B then (R - G) / d + 4
      else 0 in
    mkHSL (h0 * 60) s0 l0 (a c)
  else mkHSL 0 0 l0 (a c).

(** One channel of [hslToRgba], from the hue offset [x]. *)
Definition hue_channel (p q x : number) : number :=
  let x := rem (rem x 1 + 1) 1 in
  if x <? 1 / 6 then p + (q - p) * 6 * x
  else if x <? 1 / 2 then q
  else if x <? 2 / 3 then p + (q - p) * (2 / 3 - x) * 6
  else p.

Definition hslToRgba (c : HSL) : RGBA :=
  let h1 := rem (rem (h c) 360 + 360) 360 in
  let s1 := clamp (s c) 0 1 in
  let l1 := clamp (l c) 0 1 in
  if s1 =? 0 then
    let v := round (l1 * 255) in
    mkRGBA v v v (ha c)
  else
    let q := if l1 <? 0.5 then l1 * (1 + s1) else l1 + s1 - l1 * s1 in
    let p := 2 * l1 - q in
    let hk := h1 / 360 in
    mkRGBA (round (hue_channel p q (hk + 1 / 3) * 255))
           (round (hue_channel p q hk * 255))
           (round (hue_channel p q (hk - 1 / 3) * 255))
           (ha c).

Definition clampRgb (c : RGBA) : RGBA :=
  mkRGBA (clamp (round (r c)) 0 255)
         (clamp (round (g c)) 0 255)
         (clamp (round (b c)) 0 255)
         (clamp (a c) 0 1).

Definition invertRgb (c : RGBA) : RGBA :=
  mkRGBA (clamp (255 - r c) 10 245)
         (clamp (255 - g c) 10 245)
         (clamp (255 - b c) 10 245)
         (a c).

Definition toDarkTone (c : RGBA) : RGBA :=
  let x := rgbaToHsl c in
  let out := mkHSL (h x) (clamp (s x * 0.9) 0 1) (clamp (1 - l x * 0.9) 0.1 0.92) (ha x) in
  clampRgb (hslToRgba out).

(** The default branch of [toDark]: flip the lightness. *)
Definition flip (c : RGBA) : RGBA :=
  let x := rgbaToHsl c in
  let neutral := s x <? 0.08 in
  let out_l := clamp (1 - l x) 0.08 0.92 in
  let out := mkHSL (h x) (if neutral then 0 else s x) out_l (ha x) in
  clampRgb (hslToRgba out).

Definition toDark (c : RGBA) (mode : string) : RGBA :=
  if String.eqb mode "invert" then clampRgb (invertRgb c)
  else if String.eqb mode "tone" then toDarkTone c
  else flip c.

(** [n.toString(16).padStart(2, '0')] *)
Definition hex (n : number) : string := Str.padStart 2 "0"%char (toString16 n).

Definition rgbaToCss (c : RGBA) : string :=
  if a c =? 1 then "#" ++ hex (r c) ++ hex (g c) ++ hex (b c)
  else "rgba(" ++ toString (r c) ++ ", " ++ toString (g c) ++ ", "
       ++ toString (b c) ++ ", " ++ toString (round4 (a c)) ++ ")".

Definition black : RGBA := mkRGBA 0 0 0 1.

(** *** Colour literals *)

(** [str.indexOf(c)] and [str.lastIndexOf(c)], [-1] when absent. *)
Fixpoint indexOf_from (c : ascii) (str : string) (i : Z) : Z :=
  match str with
  | EmptyString => (-1)%Z
  | String x rest => if Ascii.eqb x c then i else indexOf_from c rest (i + 1)%Z
  end.

Definition indexOf (c : ascii) (str : string) : Z := indexOf_from c str 0%Z.

Fixpoint lastIndexOf_from (c : ascii) (str : string) (i last : Z) : Z :=
  match str with
  | EmptyString => last
  | String x rest =>
      lastIndexOf_from c rest (i + 1)%Z (if Ascii.eqb x c then i else last)
  end.

Definition lastIndexOf (c : ascii) (str : string) : Z :=
  lastIndexOf_from c str 0%Z (-1)%Z.

(** [str.slice(from, to)], a negative index counting from the end. *)
Definition slice (str : string) (from to : Z) : string :=
  let len := Z.of_nat (String.length str) in
  let norm i := if (i <? 0)%Z then Z.max (len + i) 0 else Z.min i len in
  let f := norm from in
  let t := norm to in
  Str.take (Z.to_nat (t - f)) (Str.drop (Z.to_nat f) str).

(** [str.split(',')] *)
Fixpoint split_on (c : ascii) (str cur : string) : list string :=
  match str with
  | EmptyString => [Str.rev cur]
  | String x rest =>
      if Ascii.eqb x c then Str.rev cur :: split_on c rest EmptyString
      else split_on c rest (String x cur)
  end.

Definition split (c : ascii) (str : string) : list string :=
  split_on c str EmptyString.

(** The trimmed, comma-separated arguments between the first [(] and the
    last [)]. *)
Definition fn_parts (str : string) : list string :=
  map Str.trim
      (split ","%char (slice str (indexOf "("%char str + 1) (lastIndexOf ")"%char str))).

(** [/%$/.test(v)] *)
Definition ends_percent (v : string) : bool :=
  match Str.rev v with
  | String "%"%char _ => true
  | _ => false
  end.

(** [parts[i] || '0'] *)
Definition part_or_0 (parts : list string) (i : nat) : string :=
  match nth_error parts i with
  | Some EmptyString | None => "0"
  | Some v => v
  end.

(** [parts[3] != null ? parseFloat(parts[3]) : 1] *)
Definition alpha_part (parts : list string) : number :=
  match nth_error parts 3 with
  | Some v => parseFloat v
  | None => 1
  end.

(** The character at [i] doubled, as [h[i] + h[i]]; a missing character
    prints as [undefined]. *)
Definition twice_at (hx : string) (i : nat) : string :=
  match String.get i hx with
  | Some c => String c (String c EmptyString)
  | None => "undefinedundefined"
  end.

(** [hex.replace('#', '')]: the first [#] removed. *)
Fixpoint remove_first (c : ascii) (str : string) : string :=
  match str with
  | EmptyString => EmptyString
  | String x rest => if Ascii.eqb x c then rest else String x (remove_first c rest)
  end.

Definition hexToRgba (hx : string) : RGBA :=
  let hh := remove_first "#"%char hx in
  let n := String.length hh in
  if (n =? 3)%nat || (n =? 4)%nat then
    mkRGBA (parseInt16 (twice_at hh 0)) (parseInt16 (twice_at hh 1))
           (parseInt16 (twice_at hh 2))
           (if (n =? 4)%nat then parseInt16 (twice_at hh 3) / 255 else 1)
  else if (n =? 6)%nat || (n =? 8)%nat then
    mkRGBA (parseInt16 (slice hh 0 2)) (parseInt16 (slice hh 2 4))
           (parseInt16 (slice hh 4 6))
           (if (n =? 8)%nat then parseInt16 (slice hh 6 8) / 255 else 1)
  else black.

Definition to255 (v : string) : number :=
  if ends_percent v then round (parseFloat v * 2.55) else parseFloat v.

Definition rgbStrToRgba (str : string) : RGBA :=
  let parts := fn_parts str in
  mkRGBA (clamp (to255 (part_or_0 parts 0)) 0 255)
         (clamp (to255 (part_or_0 parts 1)) 0 255)
         (clamp (to255 (part_or_0 parts 2)) 0 255)
         (clamp (alpha_part parts) 0 1).

(** Saturation or lightness argument [i] of [hsl()]. *)
Definition hsl_part (parts : list string) (i : nat) : number :=
  match nth_error parts i with
  | Some v => if ends_percent v then parseFloat v / 100 else parseFloat (part_or_0 parts i)
  | None => parseFloat "0"
  end.

Definition hslStrToRgba (str : string) : RGBA :=
  let parts := fn_parts str in
  hslToRgba (mkHSL (parseFloat (part_or_0 parts 0)) (hsl_part parts 1)
                   (hsl_part parts 2) (alpha_part parts)).

Definition toRgba (token : string) : RGBA :=
  let token := Str.toLowerCase (Str.trim token) in
  if Str.startsWith token "#" then hexToRgba token
  else if Str.startsWith token "rgb" then rgbStrToRgba token
  else if Str.startsWith token "hsl" then hslStrToRgba token
  else black.

End Color.

(** ** The regular expressions of the script, as scanners

    Each scanner returns what the JavaScript engine's leftmost, backtracking
    match returns.  For these expressions the match from a given start is
    unique when it exists: a number is followed at once by a unit, so it
    extends to the unit; no unit is a prefix of another; a function's body
    ends at its first closing parenthesis of depth zero. *)

Module Re.

(** A prefix of the form [-?\d*\.?\d+] that can be followed by a unit: the
    digits with their fraction, taken whole.  Returns the prefix and the
    text after it. *)
Definition scan_number (str : string) : option (string * string) :=
  let '(sign, u) :=
    match str with
    | String "-"%char t => ("-", t)
    | _ => (EmptyString, str)
    end in
  let d1 := Str.take_while Str.is_digit u in
  let u1 := Str.drop_while Str.is_digit u in
  let whole :=
    match d1 with
    | EmptyString => None
    | _ => Some (sign ++ d1, u1)
    end in
  match u1 with
  | String "."%char t =>
      match Str.take_while Str.is_digit t with
      | EmptyString => whole
      | d2 => Some (sign ++ d1 ++ "." ++ d2, Str.drop_while Str.is_digit t)
      end
  | _ => whole
  end.

(** The first alternative of [units] that [str] starts with; the text as it
    stands in [str], and the rest. *)
Fixpoint scan_unit (ci : bool) (units : list string) (str : string)
  : option (string * string) :=
  match units with
  | [] => None
  | u :: us =>
      match Str.strip_prefix ci u str with
      | Some rest => Some (Str.take (String.length u) str, rest)
      | None => scan_unit ci us str
      end
  end.

Definition last_char (str : string) : option ascii :=
  match Str.rev str with
  | String c _ => Some c
  | EmptyString => None
  end.

(** [\b] between the last character of [before] and the first of [after]. *)
Definition word_boundary (before after : string) : bool :=
  let w1 := match last_char before with Some c => Str.is_word c | None => false end in
  let w2 := match after with String c _ => Str.is_word c | EmptyString => false end in
  xorb w1 w2.

(** [^(number)(unit)$]: the two groups. *)
Definition match_token (ci : bool) (units : list string) (str : string)
  : option (string * string) :=
  match scan_number str with
  | Some (num, rest) =>
      match scan_unit ci units rest with
      | Some (u, EmptyString) => Some (num, u)
      | _ => None
      end
  | None => None
  end.

(** [(number)(unit)\b] at the start of [str]: the match and the rest. *)
Definition token_here (ci : bool) (units : list string) (str : string)
  : option (string * string) :=
  match scan_number str with
  | Some (num, rest) =>
      match scan_unit ci units rest with
      | Some (u, rest') =>
          if word_boundary u rest' then Some (num ++ u, rest') else None
      | None => None
      end
  | None => None
  end.

(** [str.replace(re, f)] for a global [re] given by [here]: every match,
    leftmost first and without overlap, is replaced by [f] of it.  [skip]
    counts the characters of the current match still to pass. *)
Fixpoint replace_go (here : string -> option (string * string))
         (f : string -> string) (str : string) (skip : nat) : string :=
  match str with
  | EmptyString => EmptyString
  | String c rest =>
      match skip with
      | S k => replace_go here f rest k
      | O =>
          match here str with
          | Some (m, _) =>
              match String.length m with
              | S k => f m ++ replace_go here f rest k
              | O => String c (replace_go here f rest 0)
              end
          | None => String c (replace_go here f rest 0)
          end
      end
  end.

Definition replace_all (here : string -> option (string * string))
           (f : string -> string) (str : string) : string :=
  replace_go here f str 0.

(** [str.match(re)] for a global [re]: the matches in order. *)
Fixpoint matches_go (here : string -> option (string * string))
         (str : string) (skip : nat) : list string :=
  match str with
  | EmptyString => []
  | String c rest =>
      match skip with
      | S k => matches_go here rest k
      | O =>
          match here str with
          | Some (m, _) =>
              match String.length m with
              | S k => m :: matches_go here rest k
              | O => matches_go here rest 0
              end
          | None => matches_go here rest 0
          end
      end
  end.

Definition match_all (here : string -> option (string * string))
           (str : string) : list string :=
  matches_go here str 0.

(** The body of a math function after its opening parenthesis: text without
    parentheses and groups nested at most two deep, up to the closing
    parenthesis.  Returns the body with that parenthesis, and the rest. *)
Fixpoint fn_body (str : string) (depth : nat) : option (string * string) :=
  match str with
  | EmptyString => None
  | String c rest =>
      if Ascii.eqb c ")"%char then
        match depth with
        | O => Some (")", rest)
        | S d =>
            match fn_body rest d with
            | Some (m, r) => Some (String c m, r)
            | None => None
            end
        end
      else if Ascii.eqb c "("%char then
        match depth with
        | S (S _) => None
        | _ =>
            match fn_body rest (S depth) with
            | Some (m, r) => Some (String c m, r)
            | None => None
            end
        end
      else
        match fn_body rest depth with
        | Some (m, r) => Some (String c m, r)
        | None => None
        end
  end.

(** [FN_RE] at the start of [str]: [calc], [min], [max] or [clamp] in any
    case, an opening parenthesis and the body. *)
Definition fn_here (str : string) : option (string * string) :=
  match scan_unit true ["calc"; "min"; "max"; "clamp"] str with
  | Some (name, String "("%char rest) =>
      match fn_body rest 0 with
      | Some (m, r) => Some (name ++ "(" ++ m, r)
      | None => None
      end
  | _ => None
  end.

End Re.

(** ** Lengths and unit conversion *)

Module Units.

Import Num.
Local Open Scope float_scope.

(** The first match of [here] in [str], leftmost: text before, match, rest. *)
Fixpoint find_first (here : string -> option (string * string)) (str : string)
  : option (string * string * string) :=
  match here str with
  | Some (m, rest) => Some (EmptyString, m, rest)
  | None =>
      match str with
      | EmptyString => None
      | String c t =>
          match find_first here t with
          | Some (pre, m, rest) => Some (String c pre, m, rest)
          | None => None
          end
      end
  end.

Definition all_digits (str : string) : bool :=
  String.eqb (Str.drop_while Str.is_digit str) EmptyString.

Definition strip_trailing_zeros (str : string) : string :=
  Str.rev (Str.drop_while (Ascii.eqb "0"%char) (Str.rev str)).

(** A point followed by digits whose last non-zero digit is followed by
    zeros up to the end: the match of the first expression of [stripZero]
    and its first group. *)
Definition zeros_after_digit (str : string) : option (string * string) :=
  match str with
  | String "."%char t =>
      let kept := strip_trailing_zeros t in
      if all_digits t && negb (String.eqb kept t) && negb (String.eqb kept EmptyString)
      then Some ("." ++ kept, EmptyString) else None
  | _ => None
  end.

(** A point followed by zeros up to the end: the second expression. *)
Definition point_zeros (str : string) : option (string * string) :=
  match str with
  | String "."%char (String c t) =>
      if String.eqb (strip_trailing_zeros (String c t)) EmptyString
      then Some (EmptyString, EmptyString) else None
  | _ => None
  end.

(** [s.replace(re, ...)] for an expression anchored at the end: the first
    match is replaced by [here]'s first component. *)
Definition replace_tail (here : string -> option (string * string)) (str : string)
  : string :=
  match find_first here str with
  | Some (pre, m, _) => pre ++ m
  | None => str
  end.

(** [stripZero] on text. *)
Definition stripZeroText (str : string) : string :=
  replace_tail point_zeros (replace_tail zeros_after_digit str).

(** [stripZero(x)] for a number [x]: [String(x)] without trailing zeros. *)
Definition stripZero (x : number) : string := stripZeroText (toString x).

(** [prettifyUnit(n, unit)] *)
Definition prettifyUnit (n : number) (unit : string) : string :=
  stripZero (toNumber (toFixed n 4)) ++ unit.

Record Opts := mkOpts {
  rootPx : number;
  contextPx : number;
  vwPx : number;
  vhPx : number;
  percentBase : number;
  chPx : number
}.

(** The options of a call that gives [rootPx] and [contextPx] only. *)
Definition opts_of (root context : number) : Opts :=
  mkOpts root context 100 100 100 1.

Definition convert_units : list string :=
  ["px"; "rem"; "em"; "vh"; "vw"; "%"; "ch"].

(** The first [switch] of [convertLengthUnitToken]: the value in pixels. *)
Definition to_px (from : string) (val : number) (o : Opts) : option number :=
  if String.eqb from "px" then Some val
  else if String.eqb from "rem" then Some (val * rootPx o)
  else if String.eqb from "em" then Some (val * contextPx o)
  else if String.eqb from "vh" then Some (val * vhPx o / 100)
  else if String.eqb from "vw" then Some (val * vwPx o / 100)
  else if String.eqb from "%" then Some (val * percentBase o / 100)
  else if String.eqb from "ch" then Some (val * chPx o)
  else None.

(** The second [switch]: pixels in the target unit. *)
Definition from_px (to : string) (px : number) (o : Opts) : option number :=
  if String.eqb to "px" then Some px
  else if String.eqb to "rem" then Some (px / rootPx o)
  else if String.eqb to "em" then Some (px / contextPx o)
  else if String.eqb to "vh" then Some (px / vhPx o * 100)
  else if String.eqb to "vw" then Some (px / vwPx o * 100)
  else if String.eqb to "%" then Some (px / percentBase o * 100)
  else if String.eqb to "ch" then Some (px / chPx o)
  else None.

Definition convertLengthUnitToken (token from to : string) (o : Opts) : string :=
  match Re.match_token true convert_units token with
  | None => token
  | Some (num, u) =>
      let val := parseFloat num in
      let unit := Str.toLowerCase u in
      if negb (String.eqb unit from) then token
      else
        match to_px from val o with
        | None => token
        | Some px =>
            match from_px to px o with
            | None => token
            | Some out => prettifyUnit out to
            end
        end
  end.

(** The callback of both replacements: the pairs applied in order. *)
Definition convert_token (pairs : list (string * string)) (o : Opts) (m : string)
  : string :=
  fold_left (fun out p => convertLengthUnitToken out (fst p) (snd p) o) pairs m.

Definition token_re : string -> option (string * string) :=
  Re.token_here true convert_units.

Definition convertUnitsInFunctions (value : string) (pairs : list (string * string))
           (o : Opts) : string :=
  Re.replace_all Re.fn_here
    (fun fn => Re.replace_all token_re (convert_token pairs o) fn) value.

Definition convertUnitsInValue (value : string) (pairs : list (string * string))
           (o : Opts) : string :=
  let withFns := convertUnitsInFunctions value pairs o in
  Re.replace_all token_re (convert_token pairs o) withFns.

End Units.

(** ** Configuration read from the command line *)

Record Config := mkConfig {
  ROOT_SIZE : Num.number;
  CONTEXT_SIZE : Num.number;
  STABLE : bool;
  algorithm : string;
  features : list string;
  PREFIX_SPACE : string
}.

(** [features.includes(name)] *)
Definition has_feature (cfg : Config) (name : string) : bool :=
  Str.mem name (features cfg).

(** ** Length literals *)

Module Lengths.

Import Num.
Local Open Scope float_scope.

(** The units of [LENGTH_TOKEN_RE] and of [lenToPx], matched with case. *)
Definition length_units : list string := ["px"; "rem"; "em"; "%"; "vh"; "vw"].

(** [extractLengths(value)]: every match of [LENGTH_TOKEN_RE], trimmed. *)
Definition extractLengths (value : string) : list string :=
  map Str.trim (Re.match_all (Re.token_here false length_units) value).

(** [extractBorderWidth(val)]: the first match, if any. *)
Definition extractBorderWidth (val : string) : option string :=
  match Re.match_all (Re.token_here false length_units) val with
  | m :: _ => Some m
  | [] => None
  end.

Definition lenToPx (cfg : Config) (lit : string) : number :=
  match Re.match_token false length_units lit with
  | None => 0
  | Some (num, u) =>
      let n := parseFloat num in
      if String.eqb u "px" then n
      else if String.eqb u "rem" then n * ROOT_SIZE cfg
      else if String.eqb u "em" then n * CONTEXT_SIZE cfg
      else n
  end.

Definition preferRem (cfg : Config) (lit : string) : string :=
  match Re.match_token false ["px"] lit with
  | None => lit
  | Some (num, _) =>
      let px := parseFloat num in
      if rem px 4 =? 0 then
        let rm := toNumber (toFixed (px / ROOT_SIZE cfg) 4) in
        Units.stripZero rm ++ "rem"
      else lit
  end.

End Lengths.

(** ** [Array.prototype.sort]

    The sort is stable and reads the comparator's result by its sign, a
    [NaN] counting as zero.  With a consistent comparator every conforming
    engine returns the list computed here (ECMAScript leaves the order
    open otherwise). *)

Module Sort.

(** The sign of a comparator's result. *)
Definition sign_of (v : Num.number) : comparison :=
  if (0 <? v)%float then Gt else if (v <? 0)%float then Lt else Eq.

Section Stable.

Context {A : Type}.
Variable cmp : A -> A -> comparison.

(** [x] came before every element of the sorted [l]: it passes the elements
    it must follow, and stays before the others. *)
Fixpoint insert (x : A) (l : list A) : list A :=
  match l with
  | [] => [x]
  | y :: ys =>
      match cmp x y with
      | Gt => y :: insert x ys
      | _ => x :: l
      end
  end.

Fixpoint sort (l : list A) : list A :=
  match l with
  | [] => []
  | x :: xs => insert x (sort xs)
  end.

End Stable.

End Sort.

(** ** Candidate tables and category orders *)

Module Orders.

Import Num.
Local Open Scope float_scope.

(** A table of candidates in insertion order: the literal and its count. *)
Definition Table := list (string * nat).

Definition keys (t : Table) : list string := map fst t.

(** The sign of [b.count - a.count || second]: counts are integers and
    their difference is exact, so its sign is that of the comparison. *)
Definition by_count_then (second : number) (a b : string * nat) : comparison :=
  match Nat.compare (snd b) (snd a) with
  | Eq => Sort.sign_of second
  | c => c
  end.

(** Spacing: [b.count - a.count || lenToPx(b) - lenToPx(a)]. *)
Definition spacing_cmp (cfg : Config) (a b : string * nat) : comparison :=
  by_count_then (Lengths.lenToPx cfg (fst b) - Lengths.lenToPx cfg (fst a)) a b.

(** Border widths and radii: [b.count - a.count || lenToPx(a) - lenToPx(b)]. *)
Definition border_cmp (cfg : Config) (a b : string * nat) : comparison :=
  by_count_then (Lengths.lenToPx cfg (fst a) - Lengths.lenToPx cfg (fst b)) a b.

Definition spacingOrder (cfg : Config) (byLength : Table) : list string :=
  if has_feature cfg "spacing"
  then keys (Sort.sort (spacing_cmp cfg) byLength) else [].

Definition borderWidthOrder (cfg : Config) (byBorderWidth : Table) : list string :=
  if has_feature cfg "borders"
  then keys (Sort.sort (border_cmp cfg) byBorderWidth) else [].

Definition radiusOrder (cfg : Config) (byRadius : Table) : list string :=
  if has_feature cfg "radius"
  then keys (Sort.sort (border_cmp cfg) byRadius) else [].

End Orders.

(** ** Token names *)

Module Naming.

(** [String(n)] for a count or an index. *)
Definition nat_to_string (n : nat) : string :=
  NilEmpty.string_of_uint (Nat.to_uint n).

Section Factory.

(** [crypto.createHash('md5').update(s).digest('hex')], a library function
    of the runtime. *)
Variable md5hex : string -> string.

Definition litHash (lit prefix : string) : string :=
  "--" ++ prefix ++ "-" ++ Color.slice (md5hex lit) 0 8.

(** The loop [while (used.has(out)) out = `${name}-${n++}`], run for at most
    [fuel] rounds. *)
Fixpoint unique_from (fuel : nat) (name : string) (used : list string)
         (out : string) (n : nat) : string :=
  match fuel with
  | O => out
  | S f =>
      if Str.mem out used
      then unique_from f name used (name ++ "-" ++ nat_to_string n) (S n)
      else out
  end.

(** One call of the function [makeNameFactory(prefix)] returns, on the set
    [used] it closes over: the name and the set afterwards.  The loop ends
    within [length used + 1] rounds. *)
Definition name_factory (stable : bool) (prefix : string) (used : list string)
           (lit : string) (i : nat) : string * list string :=
  let name :=
    if stable then litHash lit prefix
    else "--" ++ prefix ++ "-" ++ nat_to_string (i + 1) in
  let out := unique_from (S (List.length used)) name used name 2 in
  (out, (used ++ [out])%list).

(** [order.map((lit, i) => [lit, name(lit, i)])] from index [i]: the pairs of
    the new [Map] and the factory's set afterwards. *)
Fixpoint name_all (stable : bool) (prefix : string) (used : list string)
         (order : list string) (i : nat) : list (string * string) * list string :=
  match order with
  | [] => ([], used)
  | lit :: rest =>
      let '(out, used1) := name_factory stable prefix used lit i in
      let '(more, used2) := name_all stable prefix used1 rest (S i) in
      ((lit, out) :: more, used2)
  end.

(** The names a fresh factory gives to [order]. *)
Definition names_of (stable : bool) (prefix : string) (order : list string)
  : list string :=
  map snd (fst (name_all stable prefix [] order 0)).

End Factory.

End Naming.

(** ** Semantic role assignment *)

Module Roles.

Import Num Color.
Local Open Scope float_scope.

(** A colour candidate: the literal (the key of [byColor]) with its count,
    its per-property counts and its selectors. *)
Record Cand := mkCand {
  lit : string;
  count : nat;
  props : list (string * nat);
  selectors : list string
}.

(** [re.test(s)] for an unanchored expression: [here] is tried at every
    position, with the character before it. *)
Fixpoint search (here : option ascii -> string -> bool) (prev : option ascii)
         (str : string) : bool :=
  here prev str
  || match str with
     | EmptyString => false
     | String c rest => search here (Some c) rest
     end.

Definition has_prefix (ci : bool) (p : string) (_ : option ascii) (str : string) : bool :=
  match Str.strip_prefix ci p str with Some _ => true | None => false end.

(** [\bword\b] at this position. *)
Definition word_here (ci : bool) (w : string) (prev : option ascii) (str : string) : bool :=
  match Str.strip_prefix ci w str with
  | Some rest =>
      negb (match prev with Some c => Str.is_word c | None => false end)
      && negb (match rest with String c _ => Str.is_word c | EmptyString => false end)
  | None => false
  end.

(** The selector tests of the scorers. *)
Definition re_body (sel : string) : bool :=
  search (word_here false "body") None sel.

Definition re_link (sel : string) : bool :=
  search (fun p x => word_here true "a" p x || has_prefix true "button" p x
                     || has_prefix true ".button" p x || has_prefix true ":hover" p x)
         None sel.

Definition re_focus (sel : string) : bool :=
  search (fun p x => has_prefix false "focus" p x || has_prefix false ":focus" p x
                     || has_prefix false "skip-link" p x
                     || has_prefix false "screen-reader" p x)
         None sel.

Definition re_disabled (sel : string) : bool :=
  search (has_prefix false "disabled") None sel.

Definition hslDist (x y : HSL) : number :=
  let dh := abs (h x - h y) / 360 in
  let ds := abs (s x - s y) in
  let dl := abs (l x - l y) in
  sqrt (dh * dh + ds * ds + dl * dl).

(** [set.add(x)] *)
Definition set_add (x : string) (set : list string) : list string :=
  if Str.mem x set then set else (set ++ [x])%list.

Section Engine.

(** [Math.log1p] and the power operator, library functions of the runtime. *)
Variable log1p : number -> number.
Variable pow : number -> number -> number.

Definition relLuminance (c : RGBA) : number :=
  let nl v :=
    let v := v / 255 in
    if v <=? 0.03928 then v / 12.92 else pow ((v + 0.055) / 1.055) 2.4 in
  0.2126 * nl (r c) + 0.7152 * nl (g c) + 0.0722 * nl (b c).

(** The fields the colour pass derives from the literal. *)
Definition rgba_of (c : Cand) : RGBA := toRgba (lit c).
Definition hsl_of (c : Cand) : HSL := rgbaToHsl (rgba_of c).
Definition sat (c : Cand) : number := s (hsl_of c).
Definition lum (c : Cand) : number := relLuminance (rgba_of c).

Definition isGrayish (c : Cand) : bool := sat c <=? 0.1.
Definition isSaturated (c : Cand) : bool := 0.22 <=? sat c.
Definition logCount (c : Cand) : number := log1p (of_nat (count c)).
Definition usedInProp (c : Cand) (name : string) : bool :=
  existsb (fun p => String.eqb (fst p) name) (props c).
Definition usedInSelector (c : Cand) (re : string -> bool) : bool :=
  existsb re (selectors c).

(** [distinct(a, b)], [b] being a role that may be unassigned. *)
Definition distinct (x : Cand) (y : option Cand) : bool :=
  match y with
  | Some y' => 0.18 <? hslDist (hsl_of x) (hsl_of y')
  | None => true
  end.

(** [if (cond) s += w] *)
Definition bonus (cond : bool) (w sc : number) : number :=
  if cond then sc + w else sc.

(** [pickBest(cands, scoreFn)]: the first of the candidates ranked by
    descending score. *)
Definition pickBest (cands : list Cand) (scoreFn : Cand -> number) : option Cand :=
  match cands with
  | [] => None
  | _ =>
      let ranked :=
        Sort.sort (fun x y => Sort.sign_of (snd y - snd x))
                  (map (fun c => (c, scoreFn c)) cands) in
      match ranked with
      | (c, _) :: _ => Some c
      | [] => None
      end
  end.

(** [pickBest(cands, scoreFn, used)]: the pick is added to [used]. *)
Definition pickBestMark (cands : list Cand) (scoreFn : Cand -> number)
           (used : list string) : option Cand * list string :=
  match pickBest cands scoreFn with
  | Some c => (Some c, set_add (lit c) used)
  | None => (None, used)
  end.

Definition orElse (x y : option Cand) : option Cand :=
  match x with Some _ => x | None => y end.

Definition scoreFg (c : Cand) : number :=
  let sc := 0 + (1 - lum c) * 2.0 in
  let sc := sc + logCount c * 0.4 in
  let sc := bonus (usedInProp c "color") 1.0 sc in
  bonus (usedInSelector c re_body) 2.0 sc.

Definition scoreFgFallback (c : Cand) : number :=
  1 - lum c + logCount c * 0.3.

Definition scoreBg (c : Cand) : number :=
  let sc := 0 + lum c * 2.0 in
  let sc := sc + logCount c * 0.3 in
  let sc := bonus (usedInProp c "background" || usedInProp c "background-color") 0.7 sc in
  bonus (usedInSelector c re_body) 2.0 sc.

Definition scorePrimary (c : Cand) : number :=
  let sc := 0 + sat c * 2.0 in
  let sc := sc + logCount c * 0.4 in
  let sc := bonus (usedInSelector c re_link) 1.5 sc in
  let sc := bonus (usedInProp c "color" || usedInProp c "background"
                   || usedInProp c "border" || usedInProp c "border-color") 0.7 sc in
  let L := lum c in
  sc + (if (0.2 <? L) && (L <? 0.9) then 0.3 else -0.2).

Definition scoreSecondary (c : Cand) : number := sat c + logCount c * 0.3.

Definition scoreAccent (c : Cand) : number := sat c + logCount c * 0.25.

Definition scoreBorder (c : Cand) : number :=
  let sc := 0 + (1 - abs (lum c - 0.88)) * 1.5 in
  let sc := bonus (usedInProp c "border" || usedInProp c "border-color") 1.0 sc in
  sc + logCount c * 0.2.

Definition scoreSurface (target w wbg : number) (c : Cand) : number :=
  let sc := 0 + (1 - abs (lum c - target)) * w in
  let sc := bonus (usedInProp c "background" || usedInProp c "background-color") wbg sc in
  sc + logCount c * 0.2.

Definition scoreOutline (c : Cand) : number :=
  let sc := bonus (usedInProp c "outline") 2.0 0 in
  let sc := bonus (usedInSelector c re_focus) 1.0 sc in
  let sc := sc + (if isGrayish c then 0.3 else 0) in
  sc - abs (lum c - 0.75).

Definition scoreMuted (c : Cand) : number :=
  let L := lum c in
  1 - abs (L - 0.5) + logCount c * 0.1.

Definition scoreDisabled (c : Cand) : number :=
  let L := lum c in
  let sc := bonus (usedInSelector c re_disabled) 1.5 0 in
  sc + (1 - abs (L - 0.6)).

(** The role object after the assignments, in the order of its keys, and
    the set [used]. *)
Record Assigned := mkAssigned {
  roles : list (string * option Cand);
  used : list string
}.

Definition assign (palette : list Cand) : Assigned :=
  let grays := filter isGrayish palette in
  let fg := orElse (pickBest grays scoreFg) (pickBest palette scoreFgFallback) in
  let '(bg, u) := pickBestMark palette scoreBg [] in
  let '(primary, u) := pickBestMark (filter isSaturated palette) scorePrimary u in
  let '(secondary, u) :=
    pickBestMark (filter (fun c => isSaturated c && distinct c primary) palette)
                 scoreSecondary u in
  let '(accent, u) :=
    pickBestMark (filter (fun c => isSaturated c && distinct c primary
                                   && distinct c secondary) palette)
                 scoreAccent u in
  let '(border, u) := pickBestMark grays scoreBorder u in
  let '(surface1, u) := pickBestMark grays (scoreSurface 0.96 1.4 0.6) u in
  let '(surface2, u) := pickBestMark grays (scoreSurface 0.9 1.2 0.5) u in
  let '(outline0, u) := pickBestMark palette scoreOutline u in
  let outline := orElse outline0 border in
  let '(muted, u) := pickBestMark grays scoreMuted u in
  let '(disabled0, u) := pickBestMark grays scoreDisabled u in
  let disabled := orElse disabled0 muted in
  mkAssigned
    [("--color-fg", fg); ("--color-bg", bg); ("--color-primary", primary);
     ("--color-secondary", secondary); ("--color-accent", accent);
     ("--color-border", border); ("--color-surface-1", surface1);
     ("--color-surface-2", surface2); ("--color-outline", outline);
     ("--color-muted", muted); ("--color-disabled", disabled)]
    u.

(** [roles[name]] as a literal. *)
Definition role (asg : Assigned) (name : string) : option string :=
  match find (fun p => String.eqb (fst p) name) (roles asg) with
  | Some (_, Some c) => Some (lit c)
  | _ => None
  end.

End Engine.

End Roles.

(** ** Emission of the token document *)

Module Emit.

Import Num.
Local Open Scope float_scope.

(** A [Map] from literals to names, in insertion order. *)
Definition NameMap := list (string * string).

(** [map.get(k)] inside a template: a missing key prints as [undefined]. *)
Definition get (m : NameMap) (k : string) : string :=
  match find (fun p => String.eqb (fst p) k) m with
  | Some (_, v) => v
  | None => "undefined"
  end.

(** [map.set(k, v)]: a key already there keeps its place. *)
Fixpoint map_set (k v : string) (m : NameMap) : NameMap :=
  match m with
  | [] => [(k, v)]
  | (k', v') :: rest =>
      if String.eqb k k' then (k, v) :: rest else (k', v') :: map_set k v rest
  end.

(** What the naming stage leaves for the emission: the role object, the
    numbered colours in their order, and each category's order and names. *)
Record Tokens := mkTokens {
  roles : list (string * option string);
  remainingColors : list string;
  ffOrder : list string; ffMap : NameMap;
  fsOrder : list string; fsMap : NameMap;
  lhOrder : list string; lhMap : NameMap;
  fwOrder : list string; fwMap : NameMap;
  lsOrder : list string; lsMap : NameMap;
  spacingOrder : list string; spacingMap : NameMap;
  borderWidthOrder : list string; borderWidthMap : NameMap;
  radiusOrder : list string; radiusMap : NameMap;
  shadowOrder : list string; shadowMap : NameMap;
  durOrder : list string; durationMap : NameMap;
  easeOrder : list string; easeMap : NameMap
}.

(** [semanticMap]: colour to role name, a later role replacing an earlier
    one on the same colour. *)
Definition semanticMap (t : Tokens) : NameMap :=
  fold_left (fun m p => match snd p with
                        | Some c => map_set c (fst p) m
                        | None => m
                        end) (roles t) [].

Fixpoint number_from (i : nat) (cs : list string) : NameMap :=
  match cs with
  | [] => []
  | c :: rest =>
      (c, "--c" ++ Str.padStart 2 "0"%char (Naming.nat_to_string (i + 1)))
        :: number_from (S i) rest
  end.

Definition numericColorMap (t : Tokens) : NameMap :=
  number_from 0 (remainingColors t).

Definition orderedColorVars (t : Tokens) : list string :=
  (map fst (filter (fun p => match snd p with Some _ => true | None => false end)
                   (roles t))
   ++ map (get (numericColorMap t)) (remainingColors t))%list.

Definition varToColor (t : Tokens) (v : string) : option string :=
  match find (fun p => String.eqb (snd p) v) (semanticMap t) with
  | Some (c, _) => Some c
  | None =>
      match find (fun p => String.eqb (snd p) v) (numericColorMap t) with
      | Some (c, _) => Some c
      | None => None
      end
  end.

(** The colour a variable is emitted from: [varToColor(v) || '#000']. *)
Definition colorOf (t : Tokens) (v : string) : Color.RGBA :=
  Color.toRgba (match varToColor t v with Some c => c | None => "#000" end).

(** [`  ${name}: ${value};`] *)
Definition decl (name value : string) : string :=
  "  " ++ name ++ ": " ++ value ++ ";".

(** A header line that starts with a line break. *)
Definition header (text : string) : string := String (Str.ch 10) text.

Definition toMs (str : string) : number :=
  let n := parseFloat str in
  match Str.rev str with
  | String "s"%char (String "m"%char _) => n
  | _ => n * 1000
  end.

Definition normalizeDuration (str : string) : string :=
  Units.stripZero (toNumber (toFixed (toMs str / 1000) 3)) ++ "s".

(** The lines a category contributes: a header, then one declaration for
    each literal of its order. *)
Definition block (head : string) (order : list string) (m : NameMap)
           (value : string -> string) : list string :=
  head :: map (fun v => decl (get m v) (value v)) order.

Definition decls (order : list string) (m : NameMap) (value : string -> string)
  : list string :=
  map (fun v => decl (get m v) (value v)) order.

Definition nonempty {A : Type} (l : list A) : bool :=
  match l with [] => false | _ => true end.

Definition on (b : bool) (ls : list string) : list string := if b then ls else [].

Definition id_value (v : string) : string := v.

Definition linesRoot (cfg : Config) (t : Tokens) : list string :=
  (on (has_feature cfg "colors")
      ("  /* Colors */"
       :: map (fun v => decl v (Color.rgbaToCss (colorOf t v))) (orderedColorVars t))
   ++ on (has_feature cfg "typography")
      (on (nonempty (ffOrder t))
          (block (header "  /* Typography — font families */") (ffOrder t) (ffMap t) id_value)
       ++ on (nonempty (fsOrder t))
          (block (header "  /* Typography — font sizes */") (fsOrder t) (fsMap t) id_value)
       ++ on (nonempty (lhOrder t))
          (block (header "  /* Typography — line heights */") (lhOrder t) (lhMap t) id_value)
       ++ on (nonempty (fwOrder t))
          (block (header "  /* Typography — font weights */") (fwOrder t) (fwMap t) id_value)
       ++ on (nonempty (lsOrder t))
          (block (header "  /* Typography — letter spacing */") (lsOrder t) (lsMap t) id_value))
   ++ on (has_feature cfg "spacing" && nonempty (spacingOrder t))
      (block (header "  /* Spacing (by frequency) */") (spacingOrder t) (spacingMap t)
             (Lengths.preferRem cfg))
   ++ on (has_feature cfg "borders" && nonempty (borderWidthOrder t))
      (block (header "  /* Border widths */") (borderWidthOrder t) (borderWidthMap t) id_value)
   ++ on (has_feature cfg "radius" && nonempty (radiusOrder t))
      (block (header "  /* Radii */") (radiusOrder t) (radiusMap t) id_value)
   ++ on (has_feature cfg "shadows" && nonempty (shadowOrder t))
      (block (header "  /* Shadows */") (shadowOrder t) (shadowMap t) id_value)
   ++ on (has_feature cfg "motion" && (nonempty (durOrder t) || nonempty (easeOrder t)))
      (on (nonempty (durOrder t))
          (block (header "  /* Durations */") (durOrder t) (durationMap t) normalizeDuration)
       ++ on (nonempty (easeOrder t))
          (block (header "  /* Easing */") (easeOrder t) (easeMap t) id_value)))%list.

Definition linesDark (cfg : Config) (t : Tokens) : list string :=
  (on (has_feature cfg "colors")
      ("  /* Colors */"
       :: map (fun v => decl v (Color.rgbaToCss (Color.toDark (colorOf t v) (algorithm cfg))))
              (orderedColorVars t))
   ++ on (has_feature cfg "typography")
      (on (nonempty (fsOrder t) || nonempty (lhOrder t)
           || nonempty (fwOrder t) || nonempty (lsOrder t))
          (header "  /* Typography (same as light) */"
           :: decls (fsOrder t) (fsMap t) id_value
           ++ decls (lhOrder t) (lhMap t) id_value
           ++ decls (fwOrder t) (fwMap t) id_value
           ++ decls (lsOrder t) (lsMap t) id_value))
   ++ on (has_feature cfg "shadows" && nonempty (shadowOrder t))
      (block (header "  /* Shadows (same as light; adjust if needed) */")
             (shadowOrder t) (shadowMap t) id_value)
   ++ on (has_feature cfg "motion" && (nonempty (durOrder t) || nonempty (easeOrder t)))
      (on (nonempty (durOrder t))
          (block (header "  /* Durations */") (durOrder t) (durationMap t) normalizeDuration)
       ++ on (nonempty (easeOrder t))
          (block (header "  /* Easing */") (easeOrder t) (easeMap t) id_value)))%list.

End Emit.

(** ** The grammar of length tokens, in words

    What the expressions of the script accept, stated without the scanners:
    a number is an optional minus sign, digits, and an optional fraction; a
    number without a fraction has a digit, a fraction has one after its
    point. *)

Module Grammar.

Fixpoint digits (str : string) : bool :=
  match str with
  | EmptyString => true
  | String c rest => Str.is_digit c && digits rest
  end.

Definition is_sign (sg : string) : Prop := sg = EmptyString \/ sg = "-".

Inductive number_text : string -> Prop :=
| NT_whole (sg d : string) :
    is_sign sg -> d <> EmptyString -> digits d = true ->
    number_text (sg ++ d)
| NT_fraction (sg d1 d2 : string) :
    is_sign sg -> digits d1 = true -> d2 <> EmptyString -> digits d2 = true ->
    number_text (sg ++ d1 ++ "." ++ d2).

(** [u] is one of [units], compared without case when [ci]. *)
Definition unit_text (ci : bool) (units : list string) (u : string) : Prop :=
  exists x, In x units
            /\ if ci then Str.toLowerCase u = Str.toLowerCase x else u = x.

(** [u] reads as the unit [x]. *)
Definition same_unit (ci : bool) (u x : string) : Prop :=
  if ci then Str.toLowerCase u = Str.toLowerCase x else u = x.

(** No unit of the list continues another: two different units part ways
    before either ends. *)
Definition apart (ci : bool) (x y : string) : bool :=
  match Str.strip_prefix ci x y, Str.strip_prefix ci y x with
  | None, None => true
  | _, _ => false
  end.

Definition prefix_free (ci : bool) (units : list string) : bool :=
  forallb (fun x => forallb (fun y => String.eqb x y || apart ci x y) units) units.

(** The text after a number cannot continue it: it starts with neither a
    digit nor a point. *)
Definition ends_number (rest : string) : bool :=
  match rest with
  | EmptyString => true
  | String c _ => negb (Str.is_digit c) && negb (Ascii.eqb c "."%char)
  end.

(** A length token: a number followed by one of [units]. *)
Definition length_token (ci : bool) (units : list string) (token num u : string) : Prop :=
  token = num ++ u /\ number_text num /\ unit_text ci units u.

End Grammar.

(** ** Inputs of the worked cases *)

Module Cases.

Import Num.
Local Open Scope float_scope.

Definition all_features : list string :=
  ["colors"; "spacing"; "borders"; "radius"; "shadows"; "motion"; "typography"].

(** The defaults of the command line: 16px root and context, sequential
    names, the [flip] algorithm, every feature. *)
Definition default_config : Config :=
  mkConfig 16 16 false "flip" all_features "space".

(** The conversion pairs of the worked cases. *)
Definition px_rem : string * string := ("px", "rem").
Definition rem_em : string * string := ("rem", "em").

(** Whether [convertLengthUnitToken] has something to convert: the token
    reads as a number and a supported unit, and that unit is [from]. *)
Definition convertible (token from : string) : bool :=
  match Re.match_token true Units.convert_units token with
  | Some (_, u) => String.eqb (Str.toLowerCase u) from
  | None => false
  end.

(** A digest function under which every literal collides. *)
Definition constant_digest (_ : string) : string :=
  "0123456789abcdef0123456789abcdef".

(** [`${name}-${n}`] *)
Definition suffixed (name : string) (n : nat) : string :=
  name ++ "-" ++ Naming.nat_to_string n.

(** The name a factory call starts from. *)
Definition base_name (md5hex : string -> string) (stable : bool)
           (prefix lit : string) (i : nat) : string :=
  if stable then Naming.litHash md5hex lit prefix
  else "--" ++ prefix ++ "-" ++ Naming.nat_to_string (i + 1).

(** The candidates the loop of the factory tests in [fuel] rounds. *)
Fixpoint tested (fuel : nat) (name out : string) (n : nat) : list string :=
  match fuel with
  | O => []
  | S f => out :: tested f name (suffixed name n) (S n)
  end.

(** *** Eight-bit colours *)

(** The channel values [0 .. 255]. *)
Definition channels : list Z := map Z.of_nat (seq 0 256).

(** An opaque-or-not colour with channels [r g b] in [0 .. 255]. *)
Definition rgb8 (r g b : Z) (a : number) : Color.RGBA :=
  Color.mkRGBA (of_Z r) (of_Z g) (of_Z b) a.

(** A channel on the unit scale, as [rgbaToHsl] takes it. *)
Definition unit255 (z : Z) : number := of_Z z / 255.

(** The channel values with their unit-scale values. *)
Definition unit_table : list (Z * number) :=
  map (fun z => (z, unit255 z)) channels.

(** A check of every pair of channel values [y <= x], each with its
    unit-scale value; the table is computed once. *)
Definition all_pairs (P : Z -> number -> Z -> number -> bool) : bool :=
  let t := unit_table in
  forallb (fun p =>
    forallb (fun q => if (fst q <=? fst p)%Z
                      then P (fst p) (snd p) (fst q) (snd q) else true) t) t.

(** Lightness and saturation of [rgbaToHsl] from the largest and the
    smallest channel on the unit scale. *)
Definition lightness (mx mn : number) : number := (mx + mn) / 2.

Definition saturation (mx mn : number) : number :=
  let d := mx - mn in
  if negb (d =? 0) then
    if 0.5 <? lightness mx mn then d / (2 - mx - mn) else d / (mx + mn)
  else 0.







Definition and4 (w x y z : bool) : bool := w && x && y && z.

(** The largest and the smallest of two channels [y <= x], on the unit
    scale, in either order of the arguments. *)
Definition max_checked (x : Z) (ux : number) (y : Z) (uy : number) : bool :=
  and4 (Leibniz.eqb (max2 ux uy) ux) (Leibniz.eqb (max2 uy ux) ux)
       (Leibniz.eqb (min2 ux uy) uy) (Leibniz.eqb (min2 uy ux) uy).

(** [a] may stand before [b]: the comparator does not ask for the swap. *)
Definition before {A : Type} (cmp : A -> A -> comparison) (a b : A) : bool :=
  match cmp a b with Gt => false | _ => true end.

(** A comparator is consistent on a list when, on its elements, of two
    elements one may stand before the other, and standing before is
    transitive. *)
Definition consistent {A : Type} (cmp : A -> A -> comparison) (l : list A) : bool :=
  forallb (fun a =>
    forallb (fun b =>
      (before cmp a b || before cmp b a)
      && forallb (fun c => implb (before cmp a b && before cmp b c) (before cmp a c)) l)
      l) l.

(** Descending count, then descending pixel size: [b]'s size less [a]'s is
    not positive. *)
Definition count_then_larger (cfg : Config) (a b : string * nat) : Prop :=
  (snd b < snd a)%nat
  \/ (snd a = snd b
      /\ (0 <? Lengths.lenToPx cfg (fst b) - Lengths.lenToPx cfg (fst a)) = false).

(** Descending count, then ascending pixel size: [a]'s size less [b]'s is
    not positive. *)
Definition count_then_smaller (cfg : Config) (a b : string * nat) : Prop :=
  (snd b < snd a)%nat
  \/ (snd a = snd b
      /\ (0 <? Lengths.lenToPx cfg (fst a) - Lengths.lenToPx cfg (fst b)) = false).

(** The spacing table of [a{margin:8px 16px;padding:4px;gap:4px;}]. *)
Definition spacing_table : Orders.Table :=
  [("8px", 1%nat); ("16px", 1%nat); ("4px", 2%nat)].

(** The border-width table of [a{border:2px solid;} b{border:1px solid;}]
    and the radius table of [a{border-radius:8px;} b{border-radius:4px;}]. *)
Definition width_table : Orders.Table := [("2px", 1%nat); ("1px", 1%nat)].
Definition radius_table : Orders.Table := [("8px", 1%nat); ("4px", 1%nat)].

(** The colour table of the stylesheet [a{color:#333;}]: one gray. *)
Definition one_gray : list Roles.Cand :=
  [Roles.mkCand "#333" 1 [("color", 1%nat)] ["a"]].

(** Tokens with no entry in any category. *)
Definition no_tokens : Emit.Tokens :=
  Emit.mkTokens [] [] [] [] [] [] [] [] [] [] [] [] [] [] [] [] [] [] [] [] [] [] [] [].

(** The tokens of the stylesheet [body{font-family:Arial;}]: one font
    family and nothing else. *)
Definition one_family : Emit.Tokens :=
  Emit.mkTokens [] [] ["Arial"] [("Arial", "--ff-1")]
                [] [] [] [] [] [] [] [] [] [] [] [] [] [] [] [] [] [] [] [].

(** The tokens of the stylesheet
    [a{color:#3b82f6;font-size:16px;padding:8px 10px;box-shadow:0 1px 2px #3b82f6;transition:all 200ms ease;}]
    with one role assigned. *)
Definition small_sheet : Emit.Tokens :=
  Emit.mkTokens [("--color-fg", None); ("--color-bg", Some "#3b82f6")] []
                [] []
                ["16px"] [("16px", "--fs-1")]
                [] [] [] [] [] []
                ["8px"; "10px"] [("8px", "--space-1"); ("10px", "--space-2")]
                [] [] [] []
                ["0 1px 2px #3b82f6"] [("0 1px 2px #3b82f6", "--shadow-1")]
                ["200ms"] [("200ms", "--duration-1")]
                ["ease"] [("ease", "--ease-1")].

(** [t] with another font-family order and map. *)
Definition with_families (t : Emit.Tokens) (order : list string)
           (m : Emit.NameMap) : Emit.Tokens :=
  Emit.mkTokens (Emit.roles t) (Emit.remainingColors t) order m
                (Emit.fsOrder t) (Emit.fsMap t) (Emit.lhOrder t) (Emit.lhMap t)
                (Emit.fwOrder t) (Emit.fwMap t) (Emit.lsOrder t) (Emit.lsMap t)
                (Emit.spacingOrder t) (Emit.spacingMap t)
                (Emit.borderWidthOrder t) (Emit.borderWidthMap t)
                (Emit.radiusOrder t) (Emit.radiusMap t)
                (Emit.shadowOrder t) (Emit.shadowMap t)
                (Emit.durOrder t) (Emit.durationMap t)
                (Emit.easeOrder t) (Emit.easeMap t).

End Cases.

(** ** Ranges and checks over the channel values *)

Module Gamut.

Import Num.
Local Open Scope float_scope.

(** [x] is [NaN], or lies between [lo] and [hi]. *)
Definition within (lo hi x : number) : bool :=
  is_nan x || ((lo <=? x) && (x <=? hi)).

(** Every channel of [c] is [NaN] or in [0, 255], its alpha [NaN] or in
    [0, 1]. *)
Definition in_gamut (c : Color.RGBA) : bool :=
  within 0 255 (Color.r c) && within 0 255 (Color.g c)
  && within 0 255 (Color.b c) && within 0 1 (Color.a c).

(** A character that [trim] and [toLowerCase] leave alone. *)
Definition plain (c : ascii) : bool :=
  negb (Str.is_space c) && negb (Str.is_upper c).

(** The channel [k] prints as two plain characters that [parseInt] reads
    back as [k]. *)
Definition hex_checked (k : Z) : bool :=
  match Color.hex (of_Z k) with
  | String c1 (String c2 EmptyString) =>
      plain c1 && plain c2
      && Leibniz.eqb (parseInt16 (String c1 (String c2 EmptyString))) (of_Z k)
  | _ => false
  end.

(** The channel [k] inverted twice is [k] brought into [10, 245]. *)
Definition invert_checked (k : Z) : bool :=
  Leibniz.eqb (Color.clamp (255 - Color.clamp (255 - of_Z k) 10 245) 10 245)
              (of_Z (Z.min 245 (Z.max 10 k))).

(** The gray of channel [k] has no spread between its channels, and its
    lightness gives [k] back. *)
Definition gray_checked (k : Z) : bool :=
  let u := Cases.unit255 k in
  Leibniz.eqb (max2 u u) u && Leibniz.eqb (min2 u u) u
  && (u - u =? 0)
  && Leibniz.eqb (round (Color.clamp ((u + u) / 2) 0 1 * 255)) (of_Z k).

(** Saturation and lightness at a largest and a smallest channel lie in
    [0, 1]. *)
Definition unit_checked (x : Z) (ux : number) (y : Z) (uy : number) : bool :=
  (0 <=? Cases.saturation ux uy) && (Cases.saturation ux uy <=? 1)
  && (0 <=? Cases.lightness ux uy) && (Cases.lightness ux uy <=? 1).

End Gamut.

(** ** Shapes of texts *)

Module Shape.

(** The first character of [x] passes [f], if there is one. *)
Definition starts_with (f : ascii -> bool) (x : string) : bool :=
  match x with
  | String c _ => f c
  | EmptyString => true
  end.

Definition not_space (c : ascii) : bool := negb (Str.is_space c).

End Shape.

(** ** The ranking of [pickBest], and the roles by name *)

Module Ranking.

Import Num.
Local Open Scope float_scope.

(** The comparator of [pickBest]: [(a, b) => b.s - a.s]. *)
Definition by_score (x y : Roles.Cand * number) : comparison :=
  Sort.sign_of (snd y - snd x).

(** The candidates with their scores, as [pickBest] sorts them. *)
Definition scored (cands : list Roles.Cand) (scoreFn : Roles.Cand -> number)
  : list (Roles.Cand * number) :=
  map (fun c => (c, scoreFn c)) cands.

(** [roles[name]] as a candidate. *)
Definition pick_of (asg : Roles.Assigned) (name : string) : option Roles.Cand :=
  match find (fun p => String.eqb (fst p) name) (Roles.roles asg) with
  | Some (_, c) => c
  | None => None
  end.

Definition role_names : list string :=
  ["--color-fg"; "--color-bg"; "--color-primary"; "--color-secondary";
   "--color-accent"; "--color-border"; "--color-surface-1"; "--color-surface-2";
   "--color-outline"; "--color-muted"; "--color-disabled"].

(** The roles picked among the grayish colours only, and those picked among
    the saturated ones. *)
Definition gray_roles : list string :=
  ["--color-border"; "--color-surface-1"; "--color-surface-2"; "--color-muted";
   "--color-disabled"].

Definition vivid_roles : list string :=
  ["--color-primary"; "--color-secondary"; "--color-accent"].

(** Every literal of the set [u] is the literal of a palette colour. *)
Definition from_palette (palette : list Roles.Cand) (u : list string) : Prop :=
  forall x, In x u -> exists c, In c palette /\ Roles.lit c = x.

(** Two candidates of a small palette: a gray and a blue. *)
Definition gray_cand : Roles.Cand :=
  Roles.mkCand "#333" 2 [("color", 2%nat)] ["body"].

Definition blue_cand : Roles.Cand :=
  Roles.mkCand "#3b82f6" 1 [("background", 1%nat)] ["a"].

End Ranking.

(** ** Typography and motion: the measures of the orders *)

Module Typography.

Import Num.
Local Open Scope float_scope.

(** The units of [lenToPxSafe], matched without case. *)
Definition safe_units : list string := ["px"; "rem"; "em"].

Definition lenToPxSafe (cfg : Config) (lit : string) : number :=
  match Re.match_token true safe_units (Str.trim lit) with
  | None => 0
  | Some (num, u) =>
      let n := parseFloat num in
      let u := Str.toLowerCase u in
      if String.eqb u "px" then n
      else if String.eqb u "rem" then n * ROOT_SIZE cfg
      else if String.eqb u "em" then n * CONTEXT_SIZE cfg
      else 0
  end.

Definition lineHeightToFloat (cfg : Config) (v : string) : number :=
  let s := Str.toLowerCase (Str.trim v) in
  if String.eqb s "normal" then 1.2
  else
    match Re.scan_number s with
    | Some (num, EmptyString) => parseFloat num
    | _ =>
        let px := lenToPxSafe cfg s in
        if is_nan px then 0 else px
    end.

(** [/^\d{3}$/.test(s)] *)
Definition three_digits (s : string) : bool :=
  match s with
  | String x (String y (String z EmptyString)) =>
      Str.is_digit x && Str.is_digit y && Str.is_digit z
  | _ => false
  end.

Definition fontWeightToNum (v : string) : number :=
  let s := Str.toLowerCase (Str.trim v) in
  if three_digits s then of_Z (digits_val s 0)
  else if String.eqb s "normal" then 400
  else if String.eqb s "bold" then 700
  else if String.eqb s "lighter" || String.eqb s "bolder" then 500
  else 0.

(** The comparator [b.count - a.count || measure(b) - measure(a)]. *)
Definition by_measure (measure : string -> number) (a b : string * nat) : comparison :=
  Orders.by_count_then (measure (fst b) - measure (fst a)) a b.

Definition ordered (cfg : Config) (measure : string -> number) (tbl : Orders.Table)
  : list string :=
  if has_feature cfg "typography"
  then Orders.keys (Sort.sort (by_measure measure) tbl) else [].

Definition fsOrder (cfg : Config) (byFontSize : Orders.Table) : list string :=
  ordered cfg (lenToPxSafe cfg) byFontSize.

Definition lhOrder (cfg : Config) (byLineHeight : Orders.Table) : list string :=
  ordered cfg (lineHeightToFloat cfg) byLineHeight.

Definition fwOrder (cfg : Config) (byFontWeight : Orders.Table) : list string :=
  ordered cfg fontWeightToNum byFontWeight.

Definition lsOrder (cfg : Config) (byLetterSpacing : Orders.Table) : list string :=
  ordered cfg (lenToPxSafe cfg) byLetterSpacing.

(** Descending count, then descending measure: [b]'s measure less [a]'s is
    not positive. *)
Definition count_then_measure (measure : string -> number) (a b : string * nat) : Prop :=
  (snd b < snd a)%nat
  \/ (snd a = snd b /\ (0 <? measure (fst b) - measure (fst a)) = false).

(** The font-size table of [a{font-size:16px;} b{font-size:1.5rem;}
    c{font-size:1.5rem;} d{font-size:120%;}]. *)
Definition size_table : Orders.Table :=
  [("16px", 1%nat); ("1.5rem", 2%nat); ("120%", 1%nat)].

End Typography.

Module Motion.

Import Num.
Local Open Scope float_scope.

(** The units of [DUR_RE]. *)
Definition duration_units : list string := ["ms"; "s"].

(** [extractDurations(val)]: every match with its milliseconds. *)
Definition extractDurations (val : string) : list (string * number) :=
  map (fun str => (str, Emit.toMs str))
      (Re.match_all (Re.token_here false duration_units) val).

(** [scan_decimal] after the sign: [Infinity], or digits with an optional
    fraction and exponent. *)
Definition scan_unsigned (neg : bool) (u : string) : option (number * string) :=
  match Str.strip_prefix false "Infinity" u with
  | Some rest => Some ((if neg then neg_infinity else infinity), rest)
  | None =>
      let ip := Str.take_while Str.is_digit u in
      let u1 := Str.drop_while Str.is_digit u in
      let '(fp, u2) :=
        match u1 with
        | String "."%char t =>
            (Str.take_while Str.is_digit t, Str.drop_while Str.is_digit t)
        | _ => (EmptyString, u1)
        end in
      match ip, fp with
      | EmptyString, EmptyString => None
      | _, _ =>
          let '(ex, rest) := scan_exponent u2 in
          let mant := digits_val (ip ++ fp) 0 in
          Some (dec_to_number neg mant (ex - Z.of_nat (String.length fp)), rest)
      end
  end.

(** The number with the digits [ip] before and [fp] after the point. *)
Definition decimal_of (neg : bool) (ip fp : string) : number :=
  dec_to_number neg (digits_val (ip ++ fp) 0) (0 - Z.of_nat (String.length fp)).

(** A number can start with this character, the sign apart. *)
Definition number_start (c : ascii) : bool :=
  Str.is_digit c || Ascii.eqb c "."%char.

(** The text after a decimal literal cannot continue it: it starts with
    neither a digit, nor a point, nor an exponent mark. *)
Definition ends_decimal (rest : string) : bool :=
  match rest with
  | EmptyString => true
  | String c _ =>
      negb (Str.is_digit c) && negb (Ascii.eqb c "."%char)
      && negb (Ascii.eqb (Str.lower c) "e"%char)
  end.

(** An entry of [byDuration]: the literal, its count and its milliseconds. *)
Definition Entry : Type := string * (nat * number).

Definition count (e : Entry) : nat := fst (snd e).
Definition ms (e : Entry) : number := snd (snd e).

(** The comparator [b.count - a.count || a.ms - b.ms]. *)
Definition duration_cmp (a b : Entry) : comparison :=
  match Nat.compare (count b) (count a) with
  | Eq => Sort.sign_of (ms a - ms b)
  | c => c
  end.

Definition durOrder (cfg : Config) (byDuration : list Entry) : list string :=
  if has_feature cfg "motion"
  then map fst (Sort.sort duration_cmp byDuration) else [].

(** Descending count, then ascending milliseconds. *)
Definition count_then_shorter (a b : Entry) : Prop :=
  (count b < count a)%nat
  \/ (count a = count b /\ (0 <? ms a - ms b) = false).

(** The duration table of [a{transition:all 0.3s, color 200ms;}
    b{transition:all 200ms;}]. *)
Definition duration_table : list Entry :=
  [("0.3s", (1%nat, 300)); ("200ms", (2%nat, 200))].

End Motion.

(** ** Generated names *)

Module Numbering.

(** The sequential name of index [i]: [`--${prefix}-${i + 1}`]. *)
Definition numbered (prefix : string) (i : nat) : string :=
  "--" ++ prefix ++ "-" ++ Naming.nat_to_string (i + 1).

(** The names the factory starts from for the literals of [order], from
    index [i] on. *)
Fixpoint base_names (md5hex : string -> string) (stable : bool) (prefix : string)
         (order : list string) (i : nat) : list string :=
  match order with
  | [] => []
  | lit :: rest =>
      Cases.base_name md5hex stable prefix lit i
        :: base_names md5hex stable prefix rest (S i)
  end.

(** The number a text of decimal digits stands for. *)
Definition number_of (s : string) : nat :=
  match NilEmpty.uint_of_string s with
  | Some d => Nat.of_uint d
  | None => O
  end.

(** The name of the numbered colour of index [i]:
    [`--c${String(i + 1).padStart(2, '0')}`]. *)
Definition color_name (i : nat) : string :=
  "--c" ++ Str.padStart 2 "0"%char (Naming.nat_to_string (i + 1)).

(** Every key of the role object is a name [--color-...]. *)
Definition role_names_only (t : Emit.Tokens) : bool :=
  forallb (fun p => Str.startsWith (fst p) "--color-") (Emit.roles t).

(** Tokens with one role and two colours left over. *)
Definition two_left : Emit.Tokens :=
  Emit.mkTokens [("--color-fg", Some "#333"); ("--color-bg", Some "#333")]
                ["#3b82f6"; "#ef4444"]
                [] [] [] [] [] [] [] [] [] [] [] [] [] [] [] [] [] [] [] [] [] [].

(** A digest that is the literal itself. *)
Definition literal_digest (lit : string) : string := lit.

End Numbering.

(** ** The conversion pairs of the command line *)

Module Convert.

(** No character of [str] is a digit. *)
Fixpoint digit_free (str : string) : bool :=
  match str with
  | EmptyString => true
  | String c rest => negb (Str.is_digit c) && digit_free rest
  end.

(** A character a number is written with: a digit, the sign or the point. *)
Definition number_char (c : ascii) : bool :=
  Str.is_digit c || Ascii.eqb c "-"%char || Ascii.eqb c "."%char.

Fixpoint number_chars (str : string) : bool :=
  match str with
  | EmptyString => true
  | String c rest => number_char c && number_chars rest
  end.

(** The text left of a number with its percent sign: the empty text, or
    characters of a number up to the sign. *)
Definition percent_tail (t : string) : Prop :=
  t = EmptyString \/ exists d, number_chars d = true /\ t = d ++ "%".

(** [list.filter(Boolean)] on a list whose [null]s are [None]. *)
Fixpoint keep {A : Type} (l : list (option A)) : list A :=
  match l with
  | [] => []
  | Some x :: rest => x :: keep rest
  | None :: rest => keep rest
  end.

(** The callback of [parseConvert]: the first two parts of [from>to],
    trimmed and in lower case, when both are supported units and differ. *)
Definition parse_pair (pair : string) : option (string * string) :=
  match map (fun x => Str.toLowerCase (Str.trim x)) (Color.split ">"%char pair) with
  | from :: to :: _ =>
      if Str.mem from Units.convert_units && Str.mem to Units.convert_units
         && negb (String.eqb from to)
      then Some (from, to) else None
  | _ => None
  end.

(** [parseConvert(spec)], [spec] being [null] or the text of the flag. *)
Definition parseConvert (spec : option string) : list (string * string) :=
  match spec with
  | None | Some EmptyString => []
  | Some text =>
      keep (map parse_pair
                (filter (fun x => negb (String.eqb x EmptyString))
                        (map Str.trim (Color.split ","%char text))))
  end.

End Convert.

(** ** Easing functions *)

Module Easing.

(** The keyword alternatives of [EASE_RE], in the order of the expression. *)
Definition easing_words : list string :=
  ["linear"; "ease"; "ease-in"; "ease-out"; "ease-in-out"; "step-start"; "step-end"].

Definition not_closing (c : ascii) : bool := negb (Ascii.eqb c ")"%char).

(** [name\([^)]*\)] at the start of [str]: the name, an opening parenthesis,
    what comes before the first closing parenthesis, and that one. *)
Definition call_here (name str : string) : option (string * string) :=
  match Str.strip_prefix false (name ++ "(") str with
  | Some rest =>
      match Str.drop_while not_closing rest with
      | String _ rest' =>
          Some (name ++ "(" ++ Str.take_while not_closing rest ++ ")", rest')
      | EmptyString => None
      end
  | None => None
  end.

(** [EASE_RE] at the start of [str]: the first alternative that matches. *)
Definition ease_here (str : string) : option (string * string) :=
  match Re.scan_unit false easing_words str with
  | Some m => Some m
  | None =>
      match call_here "steps" str with
      | Some m => Some m
      | None => call_here "cubic-bezier" str
      end
  end.

(** [extractEasings(val)] *)
Definition extractEasings (val : string) : list string :=
  Re.match_all ease_here val.

(** The easings that can come out: four keywords and the two functions. *)
Definition reachable (e : string) : Prop :=
  In e ["linear"; "ease"; "step-start"; "step-end"]
  \/ (exists args, e = "steps(" ++ args ++ ")")
  \/ (exists args, e = "cubic-bezier(" ++ args ++ ")").

End Easing.

(** ** The stylesheet read into entries, and the candidate tables *)

Module Parse.

(** Every character of [str] passes [f]. *)
Fixpoint all_chars (f : ascii -> bool) (str : string) : bool :=
  match str with
  | EmptyString => true
  | String c rest => f c && all_chars f rest
  end.

(** The loop [while ((m = re.exec(str)))] for a global expression given by
    [here], which returns the groups of a match at the start of its
    argument and the length of the match: the groups of every match,
    leftmost first and without overlap. *)
Fixpoint exec_go {A : Type} (here : string -> option (A * nat)) (str : string)
         (skip : nat) : list A :=
  match str with
  | EmptyString => []
  | String c rest =>
      match skip with
      | S k => exec_go here rest k
      | O =>
          match here str with
          | Some (g, S k) => g :: exec_go here rest k
          | _ => exec_go here rest 0
          end
      end
  end.








Record Entry := mkEntry { selector : string; prop : string; value : string }.




End Parse.

Module Collect.

Import Parse.

(** [if (!map.has(k)) map.set(k, {count: 0}); map.get(k).count++] *)
Fixpoint bump (k : string) (t : Orders.Table) : Orders.Table :=
  match t with
  | [] => [(k, 1%nat)]
  | (k', n) :: rest =>
      if String.eqb k k' then (k', S n) :: rest else (k', n) :: bump k rest
  end.

(** The properties [lenPropsRE] accepts. *)
Definition spacing_props : list string :=
  flat_map (fun b => b :: map (fun side => b ++ "-" ++ side)
                              ["top"; "right"; "bottom"; "left"])
           ["margin"; "padding"; "gap"; "column-gap"; "row-gap"].

(** The lengths an entry adds to [byLength]. *)
Definition lengths_of (e : Entry) : list string :=
  if Str.mem (prop e) spacing_props then Lengths.extractLengths (value e) else [].

Definition byLength (entries : list Entry) : Orders.Table :=
  fold_left (fun t e => fold_left (fun t len => bump len t) (lengths_of e) t)
            entries [].

(** The width an entry adds to [byBorderWidth]: the first length of a
    property whose name starts with [border] or [outline]. *)
Definition width_of (e : Entry) : list string :=
  if Str.startsWith (prop e) "border" || Str.startsWith (prop e) "outline"
  then match Lengths.extractBorderWidth (value e) with
       | Some w => [w]
       | None => []
       end
  else [].

Definition byBorderWidth (entries : list Entry) : Orders.Table :=
  fold_left (fun t e => fold_left (fun t w => bump w t) (width_of e) t)
            entries [].

(** The count of [k] in a table, [0] when it has no entry. *)
Definition count_in (t : Orders.Table) (k : string) : nat :=
  match find (fun p => String.eqb (fst p) k) t with
  | Some (_, n) => n
  | None => O
  end.

(** The literals of a stream in the order of their first appearance. *)
Definition first_seen (stream : list string) : list string :=
  fold_left (fun acc k => if Str.mem k acc then acc else (acc ++ [k])%list) stream [].

Fixpoint occurrences (k : string) (stream : list string) : nat :=
  match stream with
  | [] => O
  | x :: rest => ((if String.eqb x k then 1 else 0) + occurrences k rest)%nat
  end.

(** The table [t] is the tally of [stream]: its keys are the literals of the
    stream in the order of first appearance, each once, and the count of a
    literal is the number of its occurrences, which is at least one. *)
Definition tallies (t : Orders.Table) (stream : list string) : Prop :=
  Orders.keys t = first_seen stream
  /\ NoDup (Orders.keys t)
  /\ (forall k, count_in t k = occurrences k stream)
  /\ (forall k n, In (k, n) t -> (1 <= n)%nat /\ In k stream).

End Collect.

(** ** Colour literals in a value *)

Module Palette.

Import Num.
Local Open Scope float_scope.

(** [[0-9a-fA-F]] *)
Definition is_hex (c : ascii) : bool :=
  match hex_val c with
  | Some _ => true
  | None => false
  end.

(** The numbers of digits a hexadecimal colour may have. *)
Definition hex_length (n : nat) : bool :=
  ((n =? 3) || (n =? 4) || (n =? 6) || (n =? 8))%nat.

(** The first alternative of [COLOR_RE] at the start of [str]: [#], then
    3, 4, 6 or 8 hexadecimal digits up to a word boundary.  As the digits
    are word characters, the boundary asks that the whole run of word
    characters after the [#] be these digits. *)
Definition hex_here (str : string) : option (string * string) :=
  match str with
  | String "#"%char rest =>
      let w := Str.take_while Str.is_word rest in
      if Parse.all_chars is_hex w && hex_length (String.length w)
      then Some ("#" ++ w, Str.drop_while Str.is_word rest)
      else None
  | _ => None
  end.

(** [rgba?\(\s*[^)]+\)] and [hsla?\(\s*[^)]+\)] at the start of [str], with
    [name] being [rgb] or [hsl]: the name, an [a] if there is one, an
    opening parenthesis, at least one character other than the closing
    parenthesis, and the closing one. *)
Definition func_here (name str : string) : option (string * string) :=
  match Str.strip_prefix false name str with
  | Some r0 =>
      let '(a, r1) :=
        match r0 with
        | String "a"%char t => ("a", t)
        | _ => (EmptyString, r0)
        end in
      match r1 with
      | String "("%char r2 =>
          match Str.take_while Easing.not_closing r2,
                Str.drop_while Easing.not_closing r2 with
          | String c body, String _ r3 =>
              Some (name ++ a ++ "(" ++ String c body ++ ")", r3)
          | _, _ => None
          end
      | _ => None
      end
  | None => None
  end.

(** [COLOR_RE] at the start of [str]. *)
Definition color_here (str : string) : option (string * string) :=
  match hex_here str with
  | Some m => Some m
  | None =>
      match func_here "rgb" str with
      | Some m => Some m
      | None => func_here "hsl" str
      end
  end.

(** The keys an entry's value adds to [byColor]: every match, trimmed. *)
Definition colors (value : string) : list string :=
  map Str.trim (Re.match_all color_here value).

(** The hexadecimal digits. *)
Definition hex_chars : list ascii :=
  map Ascii.ascii_of_nat
      (seq 48 10 ++ seq 65 6 ++ seq 97 6).

(** The value of two hexadecimal digits. *)
Definition pair_value (x y : ascii) : Z :=
  (16 * match hex_val x with Some d => d | None => 0 end
   + match hex_val y with Some d => d | None => 0 end)%Z.

(** Two digits are read by [parseInt] as their value, a channel value. *)
Definition pair_checked (x y : ascii) : bool :=
  Leibniz.eqb (parseInt16 (String x (String y EmptyString))) (of_Z (pair_value x y))
  && (0 <=? pair_value x y)%Z && (pair_value x y <=? 255)%Z.

(** An alpha read from two digits lies in [0, 1]. *)
Definition alpha_checked (k : Z) : bool :=
  (0 <=? Cases.unit255 k) && (Cases.unit255 k <=? 1).

(** A colour of eight-bit channels whose alpha is [1] or a channel value on
    the unit scale. *)
Definition eight_bit (c : Color.RGBA) : Prop :=
  exists r g b : Z,
    (0 <= r <= 255)%Z /\ (0 <= g <= 255)%Z /\ (0 <= b <= 255)%Z
    /\ (c = Cases.rgb8 r g b 1
        \/ exists k, (0 <= k <= 255)%Z /\ c = Cases.rgb8 r g b (Cases.unit255 k)
                     /\ (0 <=? Cases.unit255 k) = true
                     /\ (Cases.unit255 k <=? 1) = true).

End Palette.

(** * Properties *)

(** ** Dark variants *)

Module DarkProps.

Import Num Color.

(** The default branch of [toDark] is the flip. *)
Lemma toDark_flip (c : RGBA) : toDark c "flip" = flip c.
Proof. reflexivity. Qed.



(** The two named modes do differ from the flip on some colour, so the
    default is a third strategy and not a name for one of them. *)
Lemma toDark_modes_differ :
  toDark (toRgba "#3b82f6") "invert" <> flip (toRgba "#3b82f6")
  /\ toDark (toRgba "#3b82f6") "tone" <> flip (toRgba "#3b82f6").
Proof.
  split; intro H; apply (f_equal (fun c => Leibniz.eqb (r c) 9)) in H;
    vm_compute in H; discriminate.
Qed.

End DarkProps.

(** ** The scanners against the grammar *)

Module ReProps.

Import Grammar.

Lemma app_assoc (x y z : string) : (x ++ y) ++ z = x ++ (y ++ z).
Proof. induction x as [| c x IH]; simpl; [reflexivity | now rewrite IH]. Qed.

Lemma app_nil_r (x : string) : x ++ EmptyString = x.
Proof. induction x as [| c x IH]; simpl; [reflexivity | now rewrite IH]. Qed.

Lemma take_drop_while (f : ascii -> bool) (str : string) :
  Str.take_while f str ++ Str.drop_while f str = str.
Proof.
  induction str as [| c rest IH]; simpl; [reflexivity |].
  destruct (f c); simpl; [now rewrite IH | reflexivity].
Qed.

Lemma take_while_digits (str : string) :
  digits (Str.take_while Str.is_digit str) = true.
Proof.
  induction str as [| c rest IH]; simpl; [reflexivity |].
  destruct (Str.is_digit c) eqn:E; simpl; [now rewrite E | reflexivity].
Qed.

(** What [strip_prefix] cuts off is the unit as it stands in the text. *)
Lemma strip_prefix_split (ci : bool) (p str rest : string) :
  Str.strip_prefix ci p str = Some rest ->
  str = Str.take (String.length p) str ++ rest
  /\ (if ci then Str.toLowerCase (Str.take (String.length p) str) = Str.toLowerCase p
      else Str.take (String.length p) str = p).
Proof.
  revert str. induction p as [| a p IH]; intros str H; simpl in *.
  - injection H as <-. split; [reflexivity | destruct ci; reflexivity].
  - destruct str as [| b str]; [discriminate |].
    destruct (Ascii.eqb _ _) eqn:E; [| discriminate].
    apply Ascii.eqb_eq in E.
    destruct (IH _ H) as [Hs Hu]. simpl. split.
    + now rewrite <- Hs.
    + destruct ci; simpl; congruence.
Qed.

Lemma scan_unit_sound (ci : bool) (units : list string) (str u rest : string) :
  Re.scan_unit ci units str = Some (u, rest) ->
  str = u ++ rest /\ unit_text ci units u.
Proof.
  induction units as [| x xs IH]; simpl; [discriminate |].
  destruct (Str.strip_prefix ci x str) as [r |] eqn:E.
  - intros H. injection H as <- <-.
    destruct (strip_prefix_split _ _ _ _ E) as [Hs Hu].
    split; [exact Hs |]. exists x. split; [now left | exact Hu].
  - intros H. destruct (IH H) as [Hs [y [Hy Hu]]].
    split; [exact Hs |]. exists y. split; [now right | exact Hu].
Qed.

Lemma scan_number_sound (str num rest : string) :
  Re.scan_number str = Some (num, rest) ->
  str = num ++ rest /\ number_text num.
Proof.
  unfold Re.scan_number.
  assert (Hsign : exists sg u, is_sign sg /\ str = sg ++ u
            /\ (match str with
                | String "-"%char t => ("-", t)
                | _ => (EmptyString, str)
                end) = (sg, u)).
  { destruct str as [| c t].
    - exists EmptyString, EmptyString. repeat split. now left.
    - destruct (Ascii.eqb_spec c "-"%char) as [-> | Hc].
      + exists "-", t. repeat split. now right.
      + exists EmptyString, (String c t). split; [now left |]. split; [reflexivity |].
        destruct c as [[] [] [] [] [] [] [] []]; try reflexivity. now elim Hc. }
  destruct Hsign as [sg [u [Hsg [Hstr ->]]]].
  pose proof (take_drop_while Str.is_digit u) as Hu.
  pose proof (take_while_digits u) as Hd1.
  set (d1 := Str.take_while Str.is_digit u) in *.
  set (u1 := Str.drop_while Str.is_digit u) in *.
  assert (Hwhole : forall n r,
            match d1 with
            | EmptyString => None
            | String _ _ => Some (sg ++ d1, u1)
            end = Some (n, r) -> str = n ++ r /\ number_text n).
  { intros n r H. destruct d1 as [| c d] eqn:Ed; [discriminate |].
    injection H as <- <-. split.
    - rewrite Hstr, app_assoc. now rewrite Hu.
    - apply NT_whole; [exact Hsg | discriminate | exact Hd1]. }
  destruct u1 as [| c t] eqn:Eu1; [apply Hwhole |].
  destruct (Ascii.eqb_spec c "."%char) as [-> | Hc].
  - pose proof (take_drop_while Str.is_digit t) as Ht.
    pose proof (take_while_digits t) as Hd2.
    destruct (Str.take_while Str.is_digit t) as [| c2 d2] eqn:E2; [apply Hwhole |].
    intros H. injection H as <- <-. split.
    + rewrite Hstr, <- Hu, !app_assoc. do 2 f_equal.
      simpl. f_equal. symmetry. exact Ht.
    + apply NT_fraction; [exact Hsg | exact Hd1 | discriminate | exact Hd2].
  - intros H. apply Hwhole.
    destruct c as [[] [] [] [] [] [] [] []]; try exact H. now elim Hc.
Qed.

(** The anchored expression accepts length tokens only. *)
Lemma match_token_sound (ci : bool) (units : list string) (token num u : string) :
  Re.match_token ci units token = Some (num, u) ->
  length_token ci units token num u.
Proof.
  unfold Re.match_token, length_token.
  destruct (Re.scan_number token) as [[n rest] |] eqn:En; [| discriminate].
  destruct (Re.scan_unit ci units rest) as [[u' r] |] eqn:Eu; [| discriminate].
  destruct r; [| discriminate].
  intros H. injection H as <- <-.
  destruct (scan_number_sound _ _ _ En) as [Hs Hn].
  destruct (scan_unit_sound _ _ _ _ _ Eu) as [Hr Hu].
  rewrite app_nil_r in Hr. subst rest. auto.
Qed.

Lemma take_while_app (d rest : string) :
  digits d = true ->
  match rest with String c _ => Str.is_digit c = false | EmptyString => True end ->
  Str.take_while Str.is_digit (d ++ rest) = d
  /\ Str.drop_while Str.is_digit (d ++ rest) = rest.
Proof.
  intros Hd Hr. induction d as [| c d IH]; simpl in *.
  - destruct rest as [| c r]; simpl; [auto |]. now rewrite Hr.
  - apply andb_prop in Hd as [Hc Hd]. rewrite Hc.
    destruct (IH Hd) as [-> ->]. auto.
Qed.

Lemma ends_number_not_digit (rest : string) :
  ends_number rest = true ->
  match rest with String c _ => Str.is_digit c = false | EmptyString => True end.
Proof.
  destruct rest as [| c r]; simpl; [auto |].
  intros H. apply andb_prop in H as [H _]. now apply negb_true_iff in H.
Qed.

Lemma digits_not_minus (d : string) :
  digits d = true ->
  match d with String "-"%char _ => False | _ => True end.
Proof.
  destruct d as [| c d]; simpl; [auto |].
  intros H. apply andb_prop in H as [H _].
  destruct c as [[] [] [] [] [] [] [] []]; try exact I. discriminate H.
Qed.

(** A number that the following text cannot continue is scanned whole. *)
Lemma scan_number_complete (num rest : string) :
  number_text num -> ends_number rest = true ->
  Re.scan_number (num ++ rest) = Some (num, rest).
Proof.
  intros Hn Hr.
  assert (Hstrip : forall sg body, is_sign sg ->
            match body with String "-"%char _ => False | _ => True end ->
            (match sg ++ body with
             | String "-"%char t => ("-", t)
             | _ => (EmptyString, sg ++ body)
             end) = (sg, body)).
  { intros sg body [-> | ->] Hb; simpl.
    - destruct body as [| c t]; [reflexivity |].
      destruct c as [[] [] [] [] [] [] [] []]; try reflexivity. contradiction.
    - reflexivity. }
  unfold Re.scan_number. destruct Hn as [sg d Hsg Hne Hd | sg d1 d2 Hsg Hd1 Hne Hd2].
  - rewrite app_assoc.
    rewrite (Hstrip sg (d ++ rest) Hsg).
    2:{ pose proof (digits_not_minus d Hd) as Hm.
        destruct d as [| c t]; [now elim Hne | exact Hm]. }
    destruct (take_while_app d rest Hd (ends_number_not_digit _ Hr)) as [-> ->].
    destruct d as [| c t]; [now elim Hne |].
    destruct rest as [| c' r]; [reflexivity |].
    simpl in Hr. apply andb_prop in Hr as [_ Hp]. apply negb_true_iff in Hp.
    destruct (Ascii.eqb_spec c' "."%char) as [-> | Hc]; [discriminate |].
    destruct c' as [[] [] [] [] [] [] [] []]; try reflexivity. now elim Hc.
  - rewrite !app_assoc.
    rewrite (Hstrip sg (d1 ++ "." ++ d2 ++ rest) Hsg).
    2:{ pose proof (digits_not_minus d1 Hd1) as Hm.
        destruct d1 as [| c t]; [exact I | exact Hm]. }
    destruct (take_while_app d1 ("." ++ d2 ++ rest) Hd1 eq_refl) as [-> ->].
    simpl.
    destruct (take_while_app d2 rest Hd2 (ends_number_not_digit _ Hr)) as [-> ->].
    destruct d2 as [| c t]; [now elim Hne | reflexivity].
Qed.

Lemma toLowerCase_length (x : string) :
  String.length (Str.toLowerCase x) = String.length x.
Proof. induction x as [| c x IH]; simpl; [reflexivity | now rewrite IH]. Qed.

Lemma same_unit_length (ci : bool) (u x : string) :
  same_unit ci u x -> String.length u = String.length x.
Proof.
  unfold same_unit. destruct ci; intros H; [| now subst].
  rewrite <- (toLowerCase_length u), <- (toLowerCase_length x). now rewrite H.
Qed.

Lemma same_unit_cons (ci : bool) (c b : ascii) (u y : string) :
  same_unit ci (String c u) (String b y) ->
  (if ci then Str.lower c else c) = (if ci then Str.lower b else b)
  /\ same_unit ci u y.
Proof.
  unfold same_unit. destruct ci; simpl; intros H; injection H; auto.
Qed.

Lemma strip_prefix_same (ci : bool) (u x rest : string) :
  same_unit ci u x ->
  Str.strip_prefix ci x (u ++ rest) = Some rest
  /\ Str.take (String.length x) (u ++ rest) = u.
Proof.
  revert u. induction x as [| b x IH]; intros u H.
  - pose proof (same_unit_length _ _ _ H) as L.
    destruct u; [| discriminate]. simpl. auto.
  - pose proof (same_unit_length _ _ _ H) as L.
    destruct u as [| c u]; [discriminate |].
    apply same_unit_cons in H as [Hc Hu]. simpl.
    rewrite <- Hc, Ascii.eqb_refl.
    destruct (IH _ Hu) as [-> ->]. auto.
Qed.

Lemma strip_prefix_apart (ci : bool) (x y u rest : string) :
  same_unit ci u y -> apart ci x y = true ->
  Str.strip_prefix ci x (u ++ rest) = None.
Proof.
  unfold apart. revert y u. induction x as [| a x IH]; intros y u Hu H.
  - simpl in H. discriminate.
  - destruct y as [| b y].
    + simpl in H. discriminate.
    + pose proof (same_unit_length _ _ _ Hu) as L.
      destruct u as [| c u]; [discriminate |].
      apply same_unit_cons in Hu as [Hc Hu]. simpl in *.
      rewrite Hc.
      destruct (Ascii.eqb_spec (if ci then Str.lower a else a)
                               (if ci then Str.lower b else b)) as [E | E].
      * rewrite <- E, Ascii.eqb_refl in H. now apply (IH y u).
      * reflexivity.
Qed.

Lemma prefix_free_apart (ci : bool) (units : list string) (x y : string) :
  prefix_free ci units = true -> In x units -> In y units -> x <> y ->
  apart ci x y = true.
Proof.
  unfold prefix_free. intros H Hx Hy Hne.
  rewrite forallb_forall in H. specialize (H x Hx).
  rewrite forallb_forall in H. specialize (H y Hy).
  apply orb_true_iff in H as [H | H]; [| exact H].
  apply String.eqb_eq in H. contradiction.
Qed.

(** A unit of a prefix-free list is found where it stands. *)
Lemma scan_unit_complete (ci : bool) (units : list string) (u rest : string) :
  prefix_free ci units = true -> unit_text ci units u ->
  Re.scan_unit ci units (u ++ rest) = Some (u, rest).
Proof.
  intros Hpf [y [Hy Hu]]. fold (same_unit ci u y) in Hu.
  assert (Hgo : forall l, incl l units ->
            (In y l -> Re.scan_unit ci l (u ++ rest) = Some (u, rest))).
  { induction l as [| x l IH]; intros Hl Hin; [contradiction |].
    simpl. destruct (String.eqb_spec x y) as [-> | Hne].
    - destruct (strip_prefix_same ci u y rest Hu) as [-> ->]. reflexivity.
    - rewrite (strip_prefix_apart ci x y u rest Hu).
      + apply IH; [intros z Hz; apply Hl; now right |].
        destruct Hin as [E | Hin]; [contradiction | exact Hin].
      + apply (prefix_free_apart ci units); auto. apply Hl. now left. }
  apply Hgo; [apply incl_refl | exact Hy].
Qed.

(** Folding the case of a character keeps it a digit, a point or neither. *)
Lemma lower_keeps_class (c : ascii) :
  Str.is_digit (Str.lower c) = Str.is_digit c
  /\ Ascii.eqb (Str.lower c) "."%char = Ascii.eqb c "."%char.
Proof.
  destruct c as [[] [] [] [] [] [] [] []]; vm_compute; split; reflexivity.
Qed.

(** The anchored expression accepts every length token. *)
Lemma match_token_complete (ci : bool) (units : list string) (token num u : string) :
  prefix_free ci units = true ->
  (forall x, In x units -> ends_number x = true /\ x <> EmptyString) ->
  length_token ci units token num u ->
  Re.match_token ci units token = Some (num, u).
Proof.
  intros Hpf Hunits [-> [Hn Hu]]. unfold Re.match_token.
  assert (Hend : ends_number u = true).
  { destruct Hu as [x [Hx Hs]]. fold (same_unit ci u x) in Hs.
    destruct (Hunits x Hx) as [He Hne].
    pose proof (same_unit_length _ _ _ Hs) as L.
    destruct x as [| b x]; [now elim Hne |].
    destruct u as [| c u]; [discriminate |].
    apply same_unit_cons in Hs as [Hc _]. simpl in *.
    destruct ci; [| now subst].
    destruct (lower_keeps_class c) as [Hd Hp].
    destruct (lower_keeps_class b) as [Hd' Hp'].
    rewrite <- Hd, <- Hp, Hc, Hd', Hp'. exact He. }
  rewrite (scan_number_complete num u Hn Hend).
  pose proof (scan_unit_complete ci units u EmptyString Hpf Hu) as H.
  rewrite app_nil_r in H. rewrite H. reflexivity.
Qed.

End ReProps.

(** ** Unit conversion *)

Module UnitProps.

Import Num Units Grammar Cases.
Local Open Scope float_scope.

Lemma convert_units_prefix_free : prefix_free true convert_units = true.
Proof. reflexivity. Qed.

Lemma convert_units_shape (x : string) :
  In x convert_units -> ends_number x = true /\ x <> EmptyString.
Proof.
  unfold convert_units. simpl.
  intros H; repeat (destruct H as [<- | H]; [split; [reflexivity | discriminate] |]);
    contradiction.
Qed.

(** The token a conversion reads, when there is one, is a length token. *)
Lemma convertible_spec (token from : string) :
  convertible token from = true <->
  exists num u, length_token true convert_units token num u
                /\ Str.toLowerCase u = from.
Proof.
  unfold convertible. split.
  - destruct (Re.match_token true convert_units token) as [[num u] |] eqn:E;
      [| discriminate].
    intros H. apply String.eqb_eq in H. exists num, u. split; [| exact H].
    now apply ReProps.match_token_sound.
  - intros [num [u [Ht Hu]]].
    rewrite (ReProps.match_token_complete true convert_units token num u
               convert_units_prefix_free convert_units_shape Ht).
    now apply String.eqb_eq.
Qed.

(** A token with nothing to convert passes through. *)
Lemma convert_not_convertible (token from to : string) (o : Opts) :
  convertible token from = false ->
  convertLengthUnitToken token from to o = token.
Proof.
  unfold convertible, convertLengthUnitToken.
  destruct (Re.match_token true convert_units token) as [[num u] |];
    [| reflexivity].
  intros ->. reflexivity.
Qed.

(** A length token in the unit [from] is rewritten: its value goes to
    pixels and from pixels to the target, and is printed with the target
    unit; an unknown target leaves it as it is. *)
Lemma convert_convertible (num u from to : string) (o : Opts) :
  number_text num -> unit_text true convert_units u ->
  Str.toLowerCase u = from ->
  convertLengthUnitToken (num ++ u) from to o =
  match to_px from (parseFloat num) o with
  | Some px =>
      match from_px to px o with
      | Some out => prettifyUnit out to
      | None => num ++ u
      end
  | None => num ++ u
  end.
Proof.
  intros Hn Hu Hf. unfold convertLengthUnitToken.
  rewrite (ReProps.match_token_complete true convert_units (num ++ u) num u
             convert_units_prefix_free convert_units_shape).
  2:{ repeat split; assumption. }
  rewrite Hf, String.eqb_refl. reflexivity.
Qed.

(** C7. A token passes through [convertLengthUnitToken] unchanged whenever
    no reading of it as a number followed by a supported unit has the unit
    [from]: that covers the text that is no such token and the token of
    another unit.  The function is total: every token, pair and option
    record has a result.  [10px] under [rem > px] stays [10px]; [1rem]
    under [rem > px] with a 16px root is [16px]. *)
Theorem conversion_failure_policy :
  (forall (token from to : string) (o : Opts),
      (forall num u, length_token true convert_units token num u ->
                     Str.toLowerCase u <> from) ->
      convertLengthUnitToken token from to o = token)
  /\ convertLengthUnitToken "10px" "rem" "px" (opts_of 16 16) = "10px"
  /\ convertLengthUnitToken "1rem" "rem" "px" (opts_of 16 16) = "16px".
Proof.
  split; [| split; vm_compute; reflexivity].
  intros token from to o H. apply convert_not_convertible.
  destruct (convertible token from) eqn:E; [| reflexivity].
  apply convertible_spec in E as [num [u [Ht Hu]]].
  now elim (H num u Ht).
Qed.

Lemma conversion_failure_policy_witness :
  convertLengthUnitToken "10px" "rem" "px" (opts_of 16 16) = "10px"
  /\ convertLengthUnitToken "not a length" "px" "rem" (opts_of 16 16) = "not a length".
Proof.
  split.
  - apply (proj1 conversion_failure_policy).
    intros num u Ht Hu.
    assert (E : convertible "10px" "rem" = true).
    { apply convertible_spec. exists num, u. split; assumption. }
    vm_compute in E. discriminate.
  - apply (proj1 conversion_failure_policy).
    intros num u Ht Hu.
    assert (E : convertible "not a length" "px" = true).
    { apply convertible_spec. exists num, u. split; assumption. }
    vm_compute in E. discriminate.
Defined.




(** The function pass alone converts the tokens of a function once. *)
Lemma function_pass_once :
  convertUnitsInFunctions "calc(16px)" [rem_em; px_rem] (opts_of 16 8) = "calc(1rem)".
Proof. vm_compute. reflexivity. Qed.

(** C6. [calc(10px + 1rem)] under [px > rem] with a 16px root becomes
    [calc(0.625rem + 1rem)], the name and the operator untouched.  The
    pass over the whole value then reads the tokens of the function once
    more: under [rem > em, px > rem] with a 16px root and an 8px context,
    [16px] outside a function becomes [1rem], and inside [calc()] it becomes
    [1rem] in the function pass and [2em] in the pass that follows. *)
Theorem function_tokens_converted_twice :
  convertUnitsInValue "calc(10px + 1rem)" [px_rem] (opts_of 16 16)
  = "calc(0.625rem + 1rem)"
  /\ convertUnitsInValue "16px" [rem_em; px_rem] (opts_of 16 8) = "1rem"
  /\ convertUnitsInFunctions "calc(16px)" [rem_em; px_rem] (opts_of 16 8) = "calc(1rem)"
  /\ convertUnitsInValue "calc(16px)" [rem_em; px_rem] (opts_of 16 8) = "calc(2em)".
Proof. repeat split; vm_compute; reflexivity. Qed.

End UnitProps.

(** ** Token names *)

Module NamingProps.

Import Naming Cases.

Lemma mem_In (x : string) (l : list string) : Str.mem x l = true <-> In x l.
Proof.
  unfold Str.mem. rewrite existsb_exists. split.
  - intros [y [Hy E]]. apply String.eqb_eq in E. now subst.
  - intros H. exists x. split; [exact H | apply String.eqb_refl].
Qed.

Lemma mem_not_In (x : string) (l : list string) : Str.mem x l = false <-> ~ In x l.
Proof.
  rewrite <- mem_In. destruct (Str.mem x l); split; congruence.
Qed.

Lemma app_length (x y : string) :
  String.length (x ++ y) = (String.length x + String.length y)%nat.
Proof. induction x as [| c x IH]; simpl; [reflexivity | now rewrite IH]. Qed.

Lemma app_inv_head (x y z : string) : x ++ y = x ++ z -> y = z.
Proof.
  induction x as [| c x IH]; simpl; intros H; [exact H |].
  injection H as H. now apply IH.
Qed.

Lemma nat_to_string_inj (n m : nat) : nat_to_string n = nat_to_string m -> n = m.
Proof.
  unfold nat_to_string. intros H.
  apply (f_equal NilEmpty.uint_of_string) in H.
  rewrite !NilEmpty.usu in H. injection H as H.
  apply (f_equal Nat.of_uint) in H.
  now rewrite !DecimalNat.Unsigned.of_to in H.
Qed.

Lemma suffixed_inj (name : string) (n m : nat) :
  suffixed name n = suffixed name m -> n = m.
Proof.
  unfold suffixed. intros H. apply app_inv_head in H.
  simpl in H. injection H as H. now apply nat_to_string_inj.
Qed.

Lemma suffixed_longer (name : string) (n : nat) : suffixed name n <> name.
Proof.
  unfold suffixed. intros H. apply (f_equal String.length) in H.
  rewrite app_length in H. simpl in H. lia.
Qed.

Section Factory.

Variable md5hex : string -> string.

(** The loop returns a name outside the set, or every candidate it tested
    is in the set. *)
Lemma unique_from_tested (fuel : nat) (name : string) (used : list string) :
  forall out n,
    ~ In (unique_from fuel name used out n) used
    \/ Forall (fun c => In c used) (tested fuel name out n).
Proof.
  induction fuel as [| f IH]; intros out n; simpl.
  - right. constructor.
  - destruct (Str.mem out used) eqn:E.
    + destruct (IH (suffixed name n) (S n)) as [H | H]; [now left |].
      right. constructor; [now apply mem_In | exact H].
    + left. now apply mem_not_In.
Qed.

Lemma tested_suffixes (fuel : nat) (name out : string) (n : nat) :
  tested (S fuel) name out n = out :: map (suffixed name) (seq n fuel).
Proof.
  revert out n. induction fuel as [| f IH]; intros out n; [reflexivity |].
  change (tested (S (S f)) name out n)
    with (out :: tested (S f) name (suffixed name n) (S n)).
  rewrite IH. reflexivity.
Qed.

Lemma tested_NoDup (fuel : nat) (name : string) (n : nat) :
  NoDup (tested fuel name name n).
Proof.
  destruct fuel as [| f]; [constructor |].
  rewrite tested_suffixes. constructor.
  - rewrite in_map_iff. intros [k [E _]]. now apply suffixed_longer in E.
  - assert (H : forall l, NoDup l -> NoDup (map (suffixed name) l)).
    { induction 1 as [| x l Hx Hl IHl]; simpl; constructor; [| exact IHl].
      rewrite in_map_iff. intros [y [E Hy]].
      apply suffixed_inj in E. now subst. }
    apply H, seq_NoDup.
Qed.

(** The loop of the factory ends: within [length used + 1] rounds it has a
    name that is not in the set. *)
Lemma unique_from_fresh (name : string) (used : list string) :
  ~ In (unique_from (S (List.length used)) name used name 2) used.
Proof.
  destruct (unique_from_tested (S (List.length used)) name used name 2)
    as [H | H]; [exact H |].
  exfalso.
  assert (L : (List.length (tested (S (List.length used)) name name 2)
               <= List.length used)%nat).
  { apply NoDup_incl_length; [apply tested_NoDup |].
    intros c Hc. rewrite Forall_forall in H. now apply H. }
  rewrite tested_suffixes in L. simpl in L.
  rewrite length_map, length_seq in L. lia.
Qed.

(** The name the loop returns is the first candidate outside the set: the
    name itself, or the name with the least suffix from 2 on that is free. *)
Lemma unique_from_first (fuel : nat) (name : string) (used : list string) :
  forall out n,
    let res := unique_from fuel name used out n in
    ~ In res used ->
    res = out
    \/ exists k, (n <= k)%nat /\ res = suffixed name k /\ In out used
                 /\ forall j, (n <= j < k)%nat -> In (suffixed name j) used.
Proof.
  induction fuel as [| f IH]; intros out n; simpl; [now left |].
  destruct (Str.mem out used) eqn:E; [| now left].
  intros Hres. apply mem_In in E.
  destruct (IH (suffixed name n) (S n) Hres) as [H | [k [Hk [Hr [Hin Hall]]]]].
  - right. exists n. split; [lia |]. split; [exact H |]. split; [exact E |].
    intros j Hj. lia.
  - right. exists k. split; [lia |]. split; [exact Hr |]. split; [exact E |].
    intros j Hj. destruct (Nat.eq_dec j n) as [-> | Hne]; [exact Hin |].
    apply Hall. lia.
Qed.

Lemma name_factory_fresh (stable : bool) (prefix : string) (used : list string)
      (lit : string) (i : nat) :
  ~ In (fst (name_factory md5hex stable prefix used lit i)) used
  /\ snd (name_factory md5hex stable prefix used lit i)
     = (used ++ [fst (name_factory md5hex stable prefix used lit i)])%list.
Proof.
  unfold name_factory. simpl. split; [apply unique_from_fresh | reflexivity].
Qed.

(** A run of calls keeps the set free of repetitions and adds one new name
    for each literal. *)
Lemma name_all_NoDup (stable : bool) (prefix : string) (order : list string) :
  forall used i,
    NoDup used ->
    snd (name_all md5hex stable prefix used order i)
    = (used ++ map snd (fst (name_all md5hex stable prefix used order i)))%list
    /\ NoDup (snd (name_all md5hex stable prefix used order i)).
Proof.
  induction order as [| lit rest IH]; intros used i Hu.
  - simpl. rewrite List.app_nil_r. auto.
  - cbn [name_all].
    pose proof (name_factory_fresh stable prefix used lit i) as [Hf Hs].
    destruct (name_factory md5hex stable prefix used lit i) as [out used1].
    cbn [fst snd] in Hf, Hs.
    assert (Hu1 : NoDup used1).
    { subst used1. apply NoDup_app; [exact Hu | repeat constructor; intros [] |].
      intros a Ha [<- | []]. contradiction. }
    destruct (IH used1 (S i) Hu1) as [Hsnd Hnd].
    destruct (name_all md5hex stable prefix used1 rest (S i)) as [more used2].
    cbn [fst snd map] in *. split; [| exact Hnd].
    rewrite Hsnd, Hs, <- List.app_assoc. reflexivity.
Qed.

Lemma names_of_NoDup (stable : bool) (prefix : string) (order : list string) :
  NoDup (names_of md5hex stable prefix order).
Proof.
  unfold names_of.
  destruct (name_all_NoDup stable prefix order [] 0 (NoDup_nil _)) as [Hs Hn].
  rewrite Hs in Hn. exact Hn.
Qed.

End Factory.

(** C8. Whatever the digest function, the mode and the prefix, the names a
    factory gives to the literals of a category are pairwise different.
    Each call returns a name that is not in the factory's set and adds it;
    the name is the generated one when that is free, and else the generated
    one with the least suffix [-2], [-3], ... that is free.  Under a digest
    on which all literals collide, three literals get the short name, then
    it with [-2] and with [-3]. *)
Theorem names_unique :
  (forall md5hex stable prefix order,
      NoDup (names_of md5hex stable prefix order))
  /\ (forall md5hex stable prefix used lit i,
         let out := fst (name_factory md5hex stable prefix used lit i) in
         let name := base_name md5hex stable prefix lit i in
         ~ In out used
         /\ snd (name_factory md5hex stable prefix used lit i) = (used ++ [out])%list
         /\ (out = name
             \/ exists k, (2 <= k)%nat /\ out = suffixed name k /\ In name used
                          /\ forall j, (2 <= j < k)%nat -> In (suffixed name j) used))
  /\ names_of constant_digest true "space" ["4px"; "8px"; "16px"]
     = ["--space-01234567"; "--space-01234567-2"; "--space-01234567-3"]
  /\ names_of constant_digest false "space" ["4px"; "8px"; "16px"]
     = ["--space-1"; "--space-2"; "--space-3"].
Proof.
  split; [intros; apply names_of_NoDup |].
  split; [| split; vm_compute; reflexivity].
  intros md5hex stable prefix used lit i out name.
  destruct (name_factory_fresh md5hex stable prefix used lit i) as [Hf Hs].
  split; [exact Hf |]. split; [exact Hs |].
  apply (unique_from_first (S (List.length used)) name used name 2). exact Hf.
Qed.

End NamingProps.

(** ** Role assignment *)

Module RoleProps.

Import Num Color Roles Cases.

Section Engine.

Variable log1p : number -> number.
Variable pow : number -> number -> number.

(** The pick of a role does not read the set [used]: the set is only
    written. *)
Lemma pick_ignores_used (cands : list Cand) (scoreFn : Cand -> number)
      (u : list string) :
  fst (pickBestMark cands scoreFn u) = pickBest cands scoreFn.
Proof. unfold pickBestMark. destruct (pickBest cands scoreFn); reflexivity. Qed.

Lemma pickBest_single (c : Cand) (scoreFn : Cand -> number) :
  pickBest [c] scoreFn = Some c.
Proof. reflexivity. Qed.

End Engine.

(** C1, on the code: for the colour table of [a{color:#333;}], whatever
    [Math.log1p] and the power operator compute, the one gray is the border,
    both surfaces, the muted and the disabled colour at once, although it is
    in [used] from the background pick on; [used] holds one literal for nine
    assigned roles. *)
Theorem one_gray_many_roles (log1p : number -> number)
        (pow : number -> number -> number) :
  let asg := assign log1p pow one_gray in
  role asg "--color-bg" = Some "#333"
  /\ role asg "--color-border" = Some "#333"
  /\ role asg "--color-surface-1" = Some "#333"
  /\ role asg "--color-surface-2" = Some "#333"
  /\ role asg "--color-muted" = Some "#333"
  /\ role asg "--color-disabled" = Some "#333"
  /\ used asg = ["#333"].
Proof. vm_compute. repeat split; reflexivity. Qed.

End RoleProps.

(** ** The token document *)

Module EmitProps.

Import Num Color Emit Cases.

Lemma in_on (b : bool) (ls : list string) (x : string) :
  b = true -> In x ls -> In x (on b ls).
Proof. intros ->. auto. Qed.

Lemma nonempty_in {A : Type} (l : list A) (x : A) : In x l -> nonempty l = true.
Proof. destruct l; [contradiction | reflexivity]. Qed.

Lemma in_decls (order : list string) (m : NameMap) (value : string -> string)
      (v : string) :
  In v order -> In (decl (get m v) (value v)) (decls order m value).
Proof. intros H. unfold decls. apply in_map_iff. exists v. auto. Qed.

Lemma in_block (head : string) (order : list string) (m : NameMap)
      (value : string -> string) (v : string) :
  In v order -> In (decl (get m v) (value v)) (block head order m value).
Proof. intros H. right. now apply in_decls. Qed.

Ltac skip := apply in_or_app; right.
Ltac here := apply in_or_app; left.

Section Blocks.

Variable cfg : Config.
Variable t : Tokens.

Lemma root_color (v : string) :
  has_feature cfg "colors" = true -> In v (orderedColorVars t) ->
  In (decl v (rgbaToCss (colorOf t v))) (linesRoot cfg t).
Proof.
  intros Hf Hv. unfold linesRoot. here. rewrite Hf. right.
  apply in_map_iff. exists v. auto.
Qed.

Lemma dark_color (v : string) :
  has_feature cfg "colors" = true -> In v (orderedColorVars t) ->
  In (decl v (rgbaToCss (toDark (colorOf t v) (algorithm cfg)))) (linesDark cfg t).
Proof.
  intros Hf Hv. unfold linesDark. here. rewrite Hf. right.
  apply in_map_iff. exists v. auto.
Qed.

Lemma root_family (v : string) :
  has_feature cfg "typography" = true -> In v (ffOrder t) ->
  In (decl (get (ffMap t) v) v) (linesRoot cfg t).
Proof.
  intros Hf Hv. unfold linesRoot. skip. here. rewrite Hf. here.
  rewrite (nonempty_in _ _ Hv). now apply (in_block _ _ _ id_value).
Qed.

Lemma root_size (v : string) :
  has_feature cfg "typography" = true -> In v (fsOrder t) ->
  In (decl (get (fsMap t) v) v) (linesRoot cfg t).
Proof.
  intros Hf Hv. unfold linesRoot. skip. here. rewrite Hf. skip. here.
  rewrite (nonempty_in _ _ Hv). now apply (in_block _ _ _ id_value).
Qed.

Lemma root_line_height (v : string) :
  has_feature cfg "typography" = true -> In v (lhOrder t) ->
  In (decl (get (lhMap t) v) v) (linesRoot cfg t).
Proof.
  intros Hf Hv. unfold linesRoot. skip. here. rewrite Hf. do 2 skip. here.
  rewrite (nonempty_in _ _ Hv). now apply (in_block _ _ _ id_value).
Qed.

Lemma root_weight (v : string) :
  has_feature cfg "typography" = true -> In v (fwOrder t) ->
  In (decl (get (fwMap t) v) v) (linesRoot cfg t).
Proof.
  intros Hf Hv. unfold linesRoot. skip. here. rewrite Hf. do 3 skip. here.
  rewrite (nonempty_in _ _ Hv). now apply (in_block _ _ _ id_value).
Qed.

Lemma root_letter_spacing (v : string) :
  has_feature cfg "typography" = true -> In v (lsOrder t) ->
  In (decl (get (lsMap t) v) v) (linesRoot cfg t).
Proof.
  intros Hf Hv. unfold linesRoot. skip. here. rewrite Hf. do 4 skip.
  rewrite (nonempty_in _ _ Hv). now apply (in_block _ _ _ id_value).
Qed.


Lemma root_shadow (v : string) :
  has_feature cfg "shadows" = true -> In v (shadowOrder t) ->
  In (decl (get (shadowMap t) v) v) (linesRoot cfg t).
Proof.
  intros Hf Hv. unfold linesRoot. do 5 skip. here.
  rewrite Hf, (nonempty_in _ _ Hv). now apply (in_block _ _ _ id_value).
Qed.

Lemma root_duration (v : string) :
  has_feature cfg "motion" = true -> In v (durOrder t) ->
  In (decl (get (durationMap t) v) (normalizeDuration v)) (linesRoot cfg t).
Proof.
  intros Hf Hv. unfold linesRoot. do 6 skip.
  rewrite Hf, (nonempty_in _ _ Hv). here. now apply in_block.
Qed.

Lemma root_ease (v : string) :
  has_feature cfg "motion" = true -> In v (easeOrder t) ->
  In (decl (get (easeMap t) v) v) (linesRoot cfg t).
Proof.
  intros Hf Hv. unfold linesRoot. do 6 skip.
  rewrite Hf, (nonempty_in _ _ Hv), orb_true_r. skip.
  now apply (in_block _ _ _ id_value).
Qed.

(** In the dark block the four typography orders share one header. *)
Lemma dark_typography (x : string) :
  has_feature cfg "typography" = true ->
  In x (decls (fsOrder t) (fsMap t) id_value ++ decls (lhOrder t) (lhMap t) id_value
        ++ decls (fwOrder t) (fwMap t) id_value
        ++ decls (lsOrder t) (lsMap t) id_value)%list ->
  In x (linesDark cfg t).
Proof.
  intros Hf Hx. unfold linesDark. skip. here. rewrite Hf.
  assert (Hne : (nonempty (fsOrder t) || nonempty (lhOrder t)
                 || nonempty (fwOrder t) || nonempty (lsOrder t)) = true).
  { unfold decls in Hx. rewrite !in_app_iff, !in_map_iff in Hx.
    destruct Hx as [[v [_ Hv]] | [[v [_ Hv]] | [[v [_ Hv]] | [v [_ Hv]]]]];
      rewrite (nonempty_in _ _ Hv); rewrite ?orb_true_r; reflexivity. }
  rewrite Hne. right. exact Hx.
Qed.

Lemma dark_size (v : string) :
  has_feature cfg "typography" = true -> In v (fsOrder t) ->
  In (decl (get (fsMap t) v) v) (linesDark cfg t).
Proof.
  intros Hf Hv. apply dark_typography; [exact Hf |]. here.
  now apply (in_decls _ _ id_value).
Qed.

Lemma dark_line_height (v : string) :
  has_feature cfg "typography" = true -> In v (lhOrder t) ->
  In (decl (get (lhMap t) v) v) (linesDark cfg t).
Proof.
  intros Hf Hv. apply dark_typography; [exact Hf |]. skip. here.
  now apply (in_decls _ _ id_value).
Qed.

Lemma dark_weight (v : string) :
  has_feature cfg "typography" = true -> In v (fwOrder t) ->
  In (decl (get (fwMap t) v) v) (linesDark cfg t).
Proof.
  intros Hf Hv. apply dark_typography; [exact Hf |]. do 2 skip. here.
  now apply (in_decls _ _ id_value).
Qed.

Lemma dark_letter_spacing (v : string) :
  has_feature cfg "typography" = true -> In v (lsOrder t) ->
  In (decl (get (lsMap t) v) v) (linesDark cfg t).
Proof.
  intros Hf Hv. apply dark_typography; [exact Hf |]. do 3 skip.
  now apply (in_decls _ _ id_value).
Qed.

Lemma dark_shadow (v : string) :
  has_feature cfg "shadows" = true -> In v (shadowOrder t) ->
  In (decl (get (shadowMap t) v) v) (linesDark cfg t).
Proof.
  intros Hf Hv. unfold linesDark. do 2 skip. here.
  rewrite Hf, (nonempty_in _ _ Hv). now apply (in_block _ _ _ id_value).
Qed.

Lemma dark_duration (v : string) :
  has_feature cfg "motion" = true -> In v (durOrder t) ->
  In (decl (get (durationMap t) v) (normalizeDuration v)) (linesDark cfg t).
Proof.
  intros Hf Hv. unfold linesDark. do 3 skip.
  rewrite Hf, (nonempty_in _ _ Hv). here. now apply in_block.
Qed.

Lemma dark_ease (v : string) :
  has_feature cfg "motion" = true -> In v (easeOrder t) ->
  In (decl (get (easeMap t) v) v) (linesDark cfg t).
Proof.
  intros Hf Hv. unfold linesDark. do 3 skip.
  rewrite Hf, (nonempty_in _ _ Hv), orb_true_r. skip.
  now apply (in_block _ _ _ id_value).
Qed.

End Blocks.

(** C3 as stated fails on font families: the stylesheet
    [body{font-family:Arial;}] has the declaration of [--ff-1] in the
    default scope, and its dark scope is the colour header alone. *)
Lemma dark_block_omits_font_family :
  In "  --ff-1: Arial;" (linesRoot default_config one_family)
  /\ linesDark default_config one_family = ["  /* Colors */"].
Proof. split; vm_compute; auto. Qed.

(** C3, amended.  In every run, each font-size, line-height, font-weight,
    letter-spacing, shadow, duration and easing token declared in the
    default scope is declared in the dark scope with the same name and the
    same value; each colour variable is declared in the default scope with
    the text of its colour and in the dark scope with the text of the dark
    variant of that same colour; a font-family token is declared in the
    default scope, and the dark scope does not depend on the font
    families. *)
Theorem dark_block_contents (cfg : Config) (t : Tokens) :
  (has_feature cfg "typography" = true ->
   forall v,
     (In v (fsOrder t) ->
      In (decl (get (fsMap t) v) v) (linesRoot cfg t)
      /\ In (decl (get (fsMap t) v) v) (linesDark cfg t))
     /\ (In v (lhOrder t) ->
         In (decl (get (lhMap t) v) v) (linesRoot cfg t)
         /\ In (decl (get (lhMap t) v) v) (linesDark cfg t))
     /\ (In v (fwOrder t) ->
         In (decl (get (fwMap t) v) v) (linesRoot cfg t)
         /\ In (decl (get (fwMap t) v) v) (linesDark cfg t))
     /\ (In v (lsOrder t) ->
         In (decl (get (lsMap t) v) v) (linesRoot cfg t)
         /\ In (decl (get (lsMap t) v) v) (linesDark cfg t))
     /\ (In v (ffOrder t) ->
         In (decl (get (ffMap t) v) v) (linesRoot cfg t)))
  /\ (has_feature cfg "shadows" = true ->
      forall v, In v (shadowOrder t) ->
                In (decl (get (shadowMap t) v) v) (linesRoot cfg t)
                /\ In (decl (get (shadowMap t) v) v) (linesDark cfg t))
  /\ (has_feature cfg "motion" = true ->
      forall v,
        (In v (durOrder t) ->
         In (decl (get (durationMap t) v) (normalizeDuration v)) (linesRoot cfg t)
         /\ In (decl (get (durationMap t) v) (normalizeDuration v)) (linesDark cfg t))
        /\ (In v (easeOrder t) ->
            In (decl (get (easeMap t) v) v) (linesRoot cfg t)
            /\ In (decl (get (easeMap t) v) v) (linesDark cfg t)))
  /\ (has_feature cfg "colors" = true ->
      forall v, In v (orderedColorVars t) ->
                In (decl v (rgbaToCss (colorOf t v))) (linesRoot cfg t)
                /\ In (decl v (rgbaToCss (toDark (colorOf t v) (algorithm cfg))))
                      (linesDark cfg t))
  /\ (forall order m, linesDark cfg (with_families t order m) = linesDark cfg t).
Proof.
  repeat split; intros;
    auto using root_color, dark_color, root_family, root_size, dark_size,
      root_line_height, dark_line_height, root_weight, dark_weight,
      root_letter_spacing, dark_letter_spacing, root_shadow, dark_shadow,
      root_duration, dark_duration, root_ease, dark_ease.
Qed.

Lemma dark_block_contents_witness :
  (In (decl "--fs-1" "16px") (linesRoot default_config small_sheet)
   /\ In (decl "--fs-1" "16px") (linesDark default_config small_sheet))
  /\ (In (decl "--shadow-1" "0 1px 2px #3b82f6") (linesRoot default_config small_sheet)
      /\ In (decl "--shadow-1" "0 1px 2px #3b82f6") (linesDark default_config small_sheet))
  /\ (In (decl "--duration-1" "0.2s") (linesRoot default_config small_sheet)
      /\ In (decl "--duration-1" "0.2s") (linesDark default_config small_sheet))
  /\ (In (decl "--color-bg" "#3b82f6") (linesRoot default_config small_sheet)
      /\ In (decl "--color-bg" "#0950c4") (linesDark default_config small_sheet)).
Proof.
  pose proof (dark_block_contents default_config small_sheet)
    as [Hty [Hsh [Hmo [Hco _]]]].
  split; [| split; [| split]].
  - apply (proj1 (Hty eq_refl "16px")). simpl. auto.
  - apply (Hsh eq_refl "0 1px 2px #3b82f6"). simpl. auto.
  - apply (proj1 (Hmo eq_refl "200ms")). simpl. auto.
  - apply (Hco eq_refl "--color-bg"). simpl. auto.
Defined.

End EmitProps.

(** ** Spacing values *)

Module SpacingProps.

Import Num Grammar Lengths Cases.
Local Open Scope float_scope.

Lemma px_prefix_free : prefix_free false ["px"] = true.
Proof. reflexivity. Qed.

Lemma px_shape (x : string) :
  In x ["px"] -> ends_number x = true /\ x <> EmptyString.
Proof. intros [<- | []]. split; [reflexivity | discriminate]. Qed.

Lemma px_unit : unit_text false ["px"] "px".
Proof. exists "px". split; [now left | reflexivity]. Qed.

(** Whether [preferRem] reads [lit] as a pixel length. *)
Lemma pixel_length_spec (lit : string) :
  (exists num, Re.match_token false ["px"] lit = Some (num, "px"))
  <-> exists num, number_text num /\ lit = num ++ "px".
Proof.
  split.
  - intros [num H]. apply ReProps.match_token_sound in H as [Hl [Hn _]].
    exists num. auto.
  - intros [num [Hn ->]]. exists num.
    apply ReProps.match_token_complete;
      [exact px_prefix_free | exact px_shape |].
    repeat split; [exact Hn | exact px_unit].
Qed.

Lemma match_px_unit (lit num u : string) :
  Re.match_token false ["px"] lit = Some (num, u) -> u = "px".
Proof.
  intros H. apply ReProps.match_token_sound in H as [_ [_ [x [[<- | []] Hu]]]].
  exact Hu.
Qed.

(** A text ending in [rem] is not a text ending in [px]. *)
Lemma rem_is_not_px (x y : string) : x ++ "rem" <> y ++ "px".
Proof.
  revert y. induction x as [| c x IH]; intros y H.
  - destruct y as [| a [| b [| d y]]]; simpl in H; try discriminate.
    injection H as _ _ H. destruct y; discriminate.
  - destruct y as [| a y]; simpl in H.
    + injection H as _ H. destruct x as [| c1 [| c2 x]]; simpl in H;
        discriminate.
    + injection H as _ H. now apply (IH y).
Qed.

Section Config.

Variable cfg : Config.



(** A literal that is no pixel length is kept. *)
Lemma preferRem_not_px (lit : string) :
  (forall num, number_text num -> lit <> num ++ "px") ->
  preferRem cfg lit = lit.
Proof.
  intros H. unfold preferRem.
  destruct (Re.match_token false ["px"] lit) as [[num u] |] eqn:E;
    [| reflexivity].
  pose proof (match_px_unit _ _ _ E) as ->.
  apply ReProps.match_token_sound in E as [Hl [Hn _]].
  now elim (H num Hn).
Qed.

End Config.



End SpacingProps.

(** ** Category orders *)

Module OrderProps.

Import Num Orders Cases.
Local Open Scope float_scope.

Section Stable.

Context {A : Type}.
Variable cmp : A -> A -> comparison.

Lemma insert_perm (x : A) (l : list A) : Permutation (x :: l) (Sort.insert cmp x l).
Proof.
  induction l as [| y ys IH]; simpl; [reflexivity |].
  destruct (cmp x y); try reflexivity.
  rewrite perm_swap. now constructor.
Qed.

Lemma sort_perm (l : list A) : Permutation l (Sort.sort cmp l).
Proof.
  induction l as [| x xs IH]; simpl; [constructor |].
  rewrite <- insert_perm. now constructor.
Qed.

(** The relation the sorted list is ordered by. *)
Definition may_precede (a b : A) : Prop := before cmp a b = true.

Variable L : list A.
Hypothesis total : forall a b, In a L -> In b L -> may_precede a b \/ may_precede b a.
Hypothesis trans : forall a b c, In a L -> In b L -> In c L ->
                                 may_precede a b -> may_precede b c -> may_precede a c.

Lemma insert_sorted (x : A) (l : list A) :
  In x L -> incl l L -> StronglySorted may_precede l ->
  StronglySorted may_precede (Sort.insert cmp x l).
Proof.
  intros Hx Hl Hs. induction Hs as [| y ys Hs IH Hy]; simpl.
  - repeat constructor.
  - assert (HyL : In y L) by (apply Hl; now left).
    assert (HysL : incl ys L) by (intros z Hz; apply Hl; now right).
    destruct (cmp x y) eqn:E.
    + constructor; [now constructor |].
      assert (Hxy : may_precede x y) by (unfold may_precede, before; now rewrite E).
      constructor; [exact Hxy |].
      rewrite Forall_forall in *. intros z Hz.
      apply (trans x y z); auto.
    + constructor; [now constructor |].
      assert (Hxy : may_precede x y) by (unfold may_precede, before; now rewrite E).
      constructor; [exact Hxy |].
      rewrite Forall_forall in *. intros z Hz.
      apply (trans x y z); auto.
    + constructor; [now apply IH |].
      assert (Hyx : may_precede y x).
      { destruct (total x y Hx HyL) as [H | H]; [| exact H].
        unfold may_precede, before in H. rewrite E in H. discriminate. }
      rewrite Forall_forall in *. intros z Hz.
      apply Permutation_in with (l' := x :: ys) in Hz;
        [| symmetry; apply insert_perm].
      destruct Hz as [<- | Hz]; [exact Hyx | now apply Hy].
Qed.

Lemma sort_sorted (l : list A) :
  incl l L -> StronglySorted may_precede (Sort.sort cmp l).
Proof.
  induction l as [| x xs IH]; intros Hl; simpl; [constructor |].
  apply insert_sorted.
  - apply Hl. now left.
  - intros z Hz. apply Hl. right.
    apply Permutation_in with (l := Sort.sort cmp xs); [| exact Hz].
    symmetry. apply sort_perm.
  - apply IH. intros z Hz. apply Hl. now right.
Qed.

End Stable.

(** A comparator that passes the check is total and transitive on the list. *)
Lemma consistent_sorted {A : Type} (cmp : A -> A -> comparison) (l : list A) :
  consistent cmp l = true ->
  StronglySorted (may_precede cmp) (Sort.sort cmp l).
Proof.
  intros H. unfold consistent in H. rewrite forallb_forall in H.
  apply (sort_sorted cmp l); [| | apply incl_refl].
  - intros a b Ha Hb. specialize (H a Ha). rewrite forallb_forall in H.
    specialize (H b Hb). apply andb_prop in H as [H _].
    apply orb_true_iff in H. exact H.
  - intros a b c Ha Hb Hc Hab Hbc. specialize (H a Ha).
    rewrite forallb_forall in H. specialize (H b Hb).
    apply andb_prop in H as [_ H]. rewrite forallb_forall in H.
    specialize (H c Hc). unfold may_precede in *. rewrite Hab, Hbc in H.
    exact H.
Qed.

Lemma sign_of_Gt (v : number) : Sort.sign_of v = Gt <-> (0 <? v) = true.
Proof.
  unfold Sort.sign_of. destruct (0 <? v); [tauto |].
  destruct (v <? 0); split; discriminate.
Qed.

(** What the comparators of the script order by. *)
Lemma by_count_then_before (second : number) (a b : string * nat) :
  before (by_count_then second) a b = true <->
  (snd b < snd a)%nat \/ (snd a = snd b /\ (0 <? second) = false).
Proof.
  unfold before, by_count_then.
  destruct (Nat.compare_spec (snd b) (snd a)) as [E | E | E].
  - pose proof (sign_of_Gt second) as S.
    destruct (0 <? second) eqn:Z.
    + rewrite (proj2 S eq_refl).
      split; [discriminate | intros [H | [_ H]]; [lia | discriminate]].
    + destruct (Sort.sign_of second) eqn:G.
      * split; [intros _; right; split; [now symmetry | reflexivity] | reflexivity].
      * split; [intros _; right; split; [now symmetry | reflexivity] | reflexivity].
      * destruct S as [S _]. specialize (S eq_refl). discriminate.
  - split; [intros _; now left | reflexivity].
  - split; [discriminate | intros [H | [H _]]; lia].
Qed.

Lemma sorted_weaken {A : Type} (P Q : A -> A -> Prop) (l : list A) :
  (forall a b, P a b -> Q a b) -> StronglySorted P l -> StronglySorted Q l.
Proof.
  intros HPQ. induction 1 as [| x xs Hs IH Hx]; constructor; [exact IH |].
  rewrite Forall_forall in *. auto.
Qed.

(** C2 as stated fails on border widths and radii: two widths, and two
    radii, of equal count come out smaller first. *)
Lemma border_and_radius_ties_ascend :
  borderWidthOrder default_config width_table = ["1px"; "2px"]
  /\ radiusOrder default_config radius_table = ["4px"; "8px"]
  /\ (Lengths.lenToPx default_config "1px" <? Lengths.lenToPx default_config "2px") = true
  /\ (Lengths.lenToPx default_config "4px" <? Lengths.lenToPx default_config "8px") = true
  /\ (0 <? Lengths.lenToPx default_config "2px" - Lengths.lenToPx default_config "1px") = true.
Proof. repeat split; vm_compute; reflexivity. Qed.

(** C2, amended.  For every candidate table on which the comparator is
    consistent, the order of a category is the keys of a rearrangement of
    the table that is sorted by descending count; among equal counts the
    spacing order goes by descending pixel size, and the border-width and
    radius orders go by ascending pixel size, sizes being compared by the
    sign of the difference of [lenToPx]. *)
Theorem category_orders_sorted (cfg : Config) (tbl : Table) :
  (has_feature cfg "spacing" = true ->
   consistent (spacing_cmp cfg) tbl = true ->
   exists es, spacingOrder cfg tbl = keys es /\ Permutation tbl es
              /\ StronglySorted (count_then_larger cfg) es)
  /\ (has_feature cfg "borders" = true ->
      consistent (border_cmp cfg) tbl = true ->
      exists es, borderWidthOrder cfg tbl = keys es /\ Permutation tbl es
                 /\ StronglySorted (count_then_smaller cfg) es)
  /\ (has_feature cfg "radius" = true ->
      consistent (border_cmp cfg) tbl = true ->
      exists es, radiusOrder cfg tbl = keys es /\ Permutation tbl es
                 /\ StronglySorted (count_then_smaller cfg) es).
Proof.
  split; [| split].
  - intros Hf Hc. exists (Sort.sort (spacing_cmp cfg) tbl).
    unfold spacingOrder. rewrite Hf.
    split; [reflexivity |]. split; [apply sort_perm |].
    apply (sorted_weaken (may_precede (spacing_cmp cfg)));
      [| now apply consistent_sorted].
    intros a b H. now apply by_count_then_before in H.
  - intros Hf Hc. exists (Sort.sort (border_cmp cfg) tbl).
    unfold borderWidthOrder. rewrite Hf.
    split; [reflexivity |]. split; [apply sort_perm |].
    apply (sorted_weaken (may_precede (border_cmp cfg)));
      [| now apply consistent_sorted].
    intros a b H. now apply by_count_then_before in H.
  - intros Hf Hc. exists (Sort.sort (border_cmp cfg) tbl).
    unfold radiusOrder. rewrite Hf.
    split; [reflexivity |]. split; [apply sort_perm |].
    apply (sorted_weaken (may_precede (border_cmp cfg)));
      [| now apply consistent_sorted].
    intros a b H. now apply by_count_then_before in H.
Qed.

Lemma category_orders_sorted_witness :
  (exists es, spacingOrder default_config spacing_table = keys es
              /\ Permutation spacing_table es
              /\ StronglySorted (count_then_larger default_config) es)
  /\ (exists es, borderWidthOrder default_config width_table = keys es
                 /\ Permutation width_table es
                 /\ StronglySorted (count_then_smaller default_config) es).
Proof.
  split.
  - apply (proj1 (category_orders_sorted default_config spacing_table));
      vm_compute; reflexivity.
  - apply (proj1 (proj2 (category_orders_sorted default_config width_table)));
      vm_compute; reflexivity.
Defined.

(** The orders of the three worked tables. *)
Lemma worked_orders :
  spacingOrder default_config spacing_table = ["4px"; "16px"; "8px"]
  /\ borderWidthOrder default_config width_table = ["1px"; "2px"]
  /\ radiusOrder default_config radius_table = ["4px"; "8px"].
Proof. repeat split; vm_compute; reflexivity. Qed.

End OrderProps.

(** ** The flip of neutral colours *)

Module FlipProps.

Import Num Color Cases.
Local Open Scope float_scope.

Lemma in_channels (z : Z) : (0 <= z <= 255)%Z -> In z channels.
Proof.
  intros H. unfold channels. apply in_map_iff.
  exists (Z.to_nat z). split; [lia |]. apply in_seq. lia.
Qed.

Lemma all_pairs_spec (P : Z -> number -> Z -> number -> bool) :
  all_pairs P = true ->
  forall x y, (0 <= y <= x)%Z -> (x <= 255)%Z ->
              P x (unit255 x) y (unit255 y) = true.
Proof.
  unfold all_pairs, unit_table. intros H x y Hy Hx.
  rewrite forallb_forall in H.
  assert (Hin : forall z, (0 <= z <= 255)%Z ->
                 In (z, unit255 z) (map (fun z => (z, unit255 z)) channels)).
  { intros z Hz. apply in_map_iff. exists z. split; [reflexivity |].
    now apply in_channels. }
  specialize (H (x, unit255 x) (Hin x ltac:(lia))). rewrite forallb_forall in H.
  specialize (H (y, unit255 y) (Hin y ltac:(lia))). cbn [fst snd] in H.
  destruct (Z.leb_spec y x); [exact H | lia].
Qed.

(** On the channel values the largest and the smallest commute with the
    division by 255. *)
Lemma max2_unit_le (x y : Z) :
  (0 <= y <= x)%Z -> (x <= 255)%Z ->
  max2 (unit255 x) (unit255 y) = unit255 x
  /\ max2 (unit255 y) (unit255 x) = unit255 x
  /\ min2 (unit255 x) (unit255 y) = unit255 y
  /\ min2 (unit255 y) (unit255 x) = unit255 y.
Proof.
  intros Hy Hx.
  pose proof (all_pairs_spec max_checked ltac:(vm_cast_no_check (eq_refl true))
                x y Hy Hx) as H.
  unfold max_checked, and4 in H.
  apply andb_prop in H as [H H4]. apply andb_prop in H as [H H3].
  apply andb_prop in H as [H1 H2].
  apply FloatAxioms.Leibniz.eqb_spec in H1, H2, H3, H4. auto.
Qed.

Lemma max2_unit (x y : Z) :
  (0 <= x <= 255)%Z -> (0 <= y <= 255)%Z ->
  max2 (unit255 x) (unit255 y) = unit255 (Z.max x y).
Proof.
  intros Hx Hy. destruct (Z.le_ge_cases y x) as [L | L].
  - rewrite Z.max_l by lia. apply max2_unit_le; lia.
  - rewrite Z.max_r by lia. apply max2_unit_le; lia.
Qed.

Lemma min2_unit (x y : Z) :
  (0 <= x <= 255)%Z -> (0 <= y <= 255)%Z ->
  min2 (unit255 x) (unit255 y) = unit255 (Z.min x y).
Proof.
  intros Hx Hy. destruct (Z.le_ge_cases y x) as [L | L].
  - rewrite Z.min_r by lia. apply max2_unit_le; lia.
  - rewrite Z.min_l by lia. apply max2_unit_le; lia.
Qed.


(** Saturation and lightness of an eight-bit colour, from its largest and
    smallest channel. *)
Lemma hsl_of_rgb8 (r0 g0 b0 : Z) (a0 : number) :
  (0 <= r0 <= 255)%Z -> (0 <= g0 <= 255)%Z -> (0 <= b0 <= 255)%Z ->
  s (rgbaToHsl (rgb8 r0 g0 b0 a0))
  = saturation (unit255 (Z.max (Z.max r0 g0) b0)) (unit255 (Z.min (Z.min r0 g0) b0))
  /\ l (rgbaToHsl (rgb8 r0 g0 b0 a0))
     = lightness (unit255 (Z.max (Z.max r0 g0) b0)) (unit255 (Z.min (Z.min r0 g0) b0)).
Proof.
  intros Hr Hg Hb. unfold rgbaToHsl, rgb8. cbn [r g b a].
  unfold max3, min3. fold (unit255 r0) (unit255 g0) (unit255 b0).
  rewrite (max2_unit r0 g0 Hr Hg), (min2_unit r0 g0 Hr Hg).
  rewrite (max2_unit (Z.max r0 g0) b0) by lia.
  rewrite (min2_unit (Z.min r0 g0) b0) by lia.
  unfold saturation, lightness.
  set (mx := unit255 (Z.max (Z.max r0 g0) b0)).
  set (mn := unit255 (Z.min (Z.min r0 g0) b0)).
  destruct (negb (mx - mn =? 0)); split; reflexivity.
Qed.

(** With no saturation [hslToRgba] returns a gray. *)
Lemma hslToRgba_gray (h0 l0 a0 : number) :
  hslToRgba (mkHSL h0 0 l0 a0)
  = mkRGBA (round (clamp l0 0 1 * 255)) (round (clamp l0 0 1 * 255))
           (round (clamp l0 0 1 * 255)) a0.
Proof.
  unfold hslToRgba. cbn [h s l ha].
  replace (clamp 0 0 1 =? 0) with true by (vm_compute; reflexivity).
  reflexivity.
Qed.















End FlipProps.

(** ** Order of numbers, and the range of [clamp] *)

Module NumProps.

Import Num Color Gamut.
Local Open Scope float_scope.

Lemma SFcompare_refl (x : spec_float) :
  x <> S754_nan -> SFcompare x x = Some Eq.
Proof.
  destruct x as [sx | sx | | sx mx ex]; intros H; simpl.
  - reflexivity.
  - destruct sx; reflexivity.
  - now contradiction H.
  - rewrite Z.compare_refl.
    change (PosDef.Pos.compare_cont Eq mx mx) with (Pos.compare mx mx).
    rewrite Pos.compare_refl. destruct sx; reflexivity.
Qed.

Lemma SFcompare_antisym (x y : spec_float) :
  SFcompare y x = option_map CompOpp (SFcompare x y).
Proof.
  destruct x as [sx | sx | | sx mx ex], y as [sy | sy | | sy my ey]; simpl;
    try reflexivity; try (destruct sx; reflexivity); try (destruct sy; reflexivity);
    try (destruct sx, sy; reflexivity).
  change (PosDef.Pos.compare_cont Eq my mx) with (Pos.compare my mx).
  change (PosDef.Pos.compare_cont Eq mx my) with (Pos.compare mx my).
  rewrite (Z.compare_antisym ex ey), (Pos.compare_antisym mx my).
  destruct sx, sy; try reflexivity;
    destruct (ex ?= ey)%Z; simpl; try reflexivity;
    destruct (mx ?= my)%positive; reflexivity.
Qed.

Lemma is_nan_spec (x : number) :
  is_nan x = false <-> Prim2SF x <> S754_nan.
Proof.
  unfold is_nan. rewrite eqb_spec. unfold SFeqb. split.
  - intros H E. rewrite E in H. simpl in H. discriminate.
  - intros H. rewrite (SFcompare_refl _ H). reflexivity.
Qed.

Lemma leb_numbers (x y : number) :
  (x <=? y) = true -> is_nan x = false /\ is_nan y = false.
Proof.
  rewrite leb_spec. unfold SFleb. intros H.
  split; apply is_nan_spec; intros E; rewrite E in H;
    [| destruct (Prim2SF x)]; simpl in H; discriminate.
Qed.

Lemma leb_refl (x : number) : is_nan x = false -> (x <=? x) = true.
Proof.
  intros H. apply is_nan_spec in H. rewrite leb_spec. unfold SFleb.
  now rewrite (SFcompare_refl _ H).
Qed.

Lemma ltb_leb (x y : number) : (x <? y) = true -> (x <=? y) = true.
Proof.
  rewrite ltb_spec, leb_spec. unfold SFltb, SFleb.
  destruct (SFcompare (Prim2SF x) (Prim2SF y)) as [[] |]; auto.
Qed.

(** Of two numbers one is below the other, or they compare as equal. *)
Lemma not_ltb_leb (x y : number) :
  is_nan x = false -> is_nan y = false -> (x <? y) = false -> (y <=? x) = true.
Proof.
  intros Hx Hy. apply is_nan_spec in Hx, Hy.
  rewrite ltb_spec, leb_spec. unfold SFltb, SFleb.
  rewrite (SFcompare_antisym (Prim2SF x) (Prim2SF y)).
  destruct (SFcompare (Prim2SF x) (Prim2SF y)) as [[] |] eqn:E; simpl; auto.
  exfalso.
  destruct (Prim2SF x) as [sx | sx | | sx mx ex]; [| | now contradiction Hx |];
    (destruct (Prim2SF y) as [sy | sy | | sy my ey]; [| | now contradiction Hy |]);
    simpl in E; discriminate.
Qed.

Lemma nan_is_nan : is_nan nan = true.
Proof. reflexivity. Qed.

(** [Math.max(lo, v)] of two numbers is a number, and not below [lo]. *)
Lemma max2_lower (lo v : number) :
  is_nan lo = false -> is_nan v = false ->
  is_nan (max2 lo v) = false /\ (lo <=? max2 lo v) = true.
Proof.
  intros Hlo Hv. unfold max2. rewrite Hlo, Hv. cbn [orb].
  destruct (lo <? v) eqn:E1.
  - split; [exact Hv | now apply ltb_leb].
  - destruct (v <? lo) eqn:E2.
    + split; [exact Hlo | now apply leb_refl].
    + destruct (get_sign lo).
      * split; [exact Hv |]. apply not_ltb_leb; assumption.
      * split; [exact Hlo | now apply leb_refl].
Qed.

(** [Math.min(hi, m)] of two numbers is [hi], or it is [m] and [m] is not
    above [hi]. *)
Lemma min2_cases (hi m : number) :
  is_nan hi = false -> is_nan m = false ->
  min2 hi m = hi \/ (min2 hi m = m /\ (m <=? hi) = true).
Proof.
  intros Hhi Hm. unfold min2. rewrite Hhi, Hm. cbn [orb].
  destruct (hi <? m) eqn:E1; [now left |].
  destruct (m <? hi) eqn:E2.
  - right. split; [reflexivity | now apply ltb_leb].
  - destruct (get_sign hi); [now left |].
    right. split; [reflexivity |]. apply not_ltb_leb; assumption.
Qed.

Lemma clamp_nan (v lo hi : number) :
  is_nan v = true -> clamp v lo hi = nan.
Proof.
  intros H. unfold clamp, max2. rewrite H, orb_true_r.
  unfold min2. rewrite nan_is_nan, orb_true_r. reflexivity.
Qed.

Lemma clamp_number (v lo hi : number) :
  (lo <=? hi) = true -> is_nan v = false ->
  is_nan (clamp v lo hi) = false
  /\ (lo <=? clamp v lo hi) = true /\ (clamp v lo hi <=? hi) = true.
Proof.
  intros Hb Hv. destruct (leb_numbers lo hi Hb) as [Hlo Hhi].
  destruct (max2_lower lo v Hlo Hv) as [Hm Hlm].
  unfold clamp.
  destruct (min2_cases hi (max2 lo v) Hhi Hm) as [E | [E Hle]]; rewrite E.
  - split; [exact Hhi |]. split; [exact Hb | now apply leb_refl].
  - split; [exact Hm |]. split; [exact Hlm | exact Hle].
Qed.

Lemma clamp_within (v lo hi : number) :
  (lo <=? hi) = true -> within lo hi (clamp v lo hi) = true.
Proof.
  intros Hb. unfold within. destruct (is_nan v) eqn:Hv.
  - rewrite (clamp_nan v lo hi Hv), nan_is_nan. reflexivity.
  - destruct (clamp_number v lo hi Hb Hv) as [_ [H1 H2]].
    rewrite H1, H2. apply orb_true_r.
Qed.

Lemma channel_bounds : (0 <=? 255) = true /\ (0 <=? 1) = true /\ (10 <=? 245) = true.
Proof. repeat split; reflexivity. Qed.

Lemma clampRgb_in_gamut (c : RGBA) : in_gamut (clampRgb c) = true.
Proof.
  destruct channel_bounds as [B1 [B2 _]].
  unfold in_gamut, clampRgb. cbn [r g b a].
  rewrite !(clamp_within _ 0 255 B1), (clamp_within _ 0 1 B2). reflexivity.
Qed.

(** X1. [clamp(v, lo, hi)] with [lo <= hi]: a [NaN] stays a [NaN], and any
    other [v], an infinity included, comes out as a number between [lo] and
    [hi]. *)
Theorem clamp_between (v lo hi : number) :
  (lo <=? hi) = true ->
  (is_nan v = true -> clamp v lo hi = nan)
  /\ (is_nan v = false ->
      is_nan (clamp v lo hi) = false
      /\ (lo <=? clamp v lo hi) = true /\ (clamp v lo hi <=? hi) = true).
Proof.
  intros Hb. split.
  - apply clamp_nan.
  - now apply clamp_number.
Qed.

Lemma clamp_between_witness :
  (clamp nan 0 255 = nan)
  /\ (0 <=? clamp infinity 0 255) = true /\ (clamp infinity 0 255 <=? 255) = true.
Proof.
  destruct (clamp_between infinity 0 255 (proj1 channel_bounds)) as [_ H].
  destruct (clamp_between nan 0 255 (proj1 channel_bounds)) as [N _].
  split; [apply N; reflexivity |].
  apply (proj2 (H ltac:(reflexivity))).
Defined.

(** X2. Whatever the colour and the mode, [toDark] returns channels that
    are [NaN] or lie in [0, 255] and an alpha that is [NaN] or lies in
    [0, 1]; so do [clampRgb] on any colour and [rgbStrToRgba] on any text. *)
Theorem toDark_in_gamut :
  (forall (c : RGBA) (mode : string), in_gamut (toDark c mode) = true)
  /\ (forall c : RGBA, in_gamut (clampRgb c) = true)
  /\ (forall str : string, in_gamut (rgbStrToRgba str) = true).
Proof.
  split; [| split].
  - intros c mode. unfold toDark.
    destruct (String.eqb mode "invert"); [apply clampRgb_in_gamut |].
    destruct (String.eqb mode "tone").
    + unfold toDarkTone. apply clampRgb_in_gamut.
    + unfold flip. apply clampRgb_in_gamut.
  - apply clampRgb_in_gamut.
  - intros str. destruct channel_bounds as [B1 [B2 _]].
    unfold in_gamut, rgbStrToRgba. cbn [r g b a].
    rewrite !(clamp_within _ 0 255 B1), (clamp_within _ 0 1 B2). reflexivity.
Qed.

End NumProps.

(** ** Strings *)

Module StrProps.

Import Shape.

Lemma rev_onto_app (x acc : string) :
  Str.rev_onto x acc = Str.rev x ++ acc.
Proof.
  unfold Str.rev. revert acc.
  induction x as [| c x IH]; intros acc; simpl; [reflexivity |].
  rewrite (IH (String c acc)), (IH (String c EmptyString)).
  rewrite ReProps.app_assoc. reflexivity.
Qed.

Lemma rev_app (x y : string) : Str.rev (x ++ y) = Str.rev y ++ Str.rev x.
Proof.
  induction x as [| c x IH]; simpl.
  - now rewrite ReProps.app_nil_r.
  - unfold Str.rev at 1 3. simpl.
    rewrite !rev_onto_app, IH, ReProps.app_assoc. reflexivity.
Qed.

Lemma rev_cons (c : ascii) (x : string) :
  Str.rev (String c x) = Str.rev x ++ String c EmptyString.
Proof. unfold Str.rev at 1. simpl. apply rev_onto_app. Qed.

Lemma rev_involutive (x : string) : Str.rev (Str.rev x) = x.
Proof.
  induction x as [| c x IH]; [reflexivity |].
  rewrite rev_cons, rev_app, IH. reflexivity.
Qed.

Lemma drop_while_fixed (x : string) :
  starts_with not_space x = true -> Str.drop_while Str.is_space x = x.
Proof.
  destruct x as [| c x]; simpl; [reflexivity |].
  unfold not_space. now destruct (Str.is_space c).
Qed.

(** [trim] leaves a text alone that neither starts nor ends with white
    space. *)
Lemma trim_fixed (x : string) :
  starts_with not_space x = true -> starts_with not_space (Str.rev x) = true ->
  Str.trim x = x.
Proof.
  intros H1 H2. unfold Str.trim.
  rewrite (drop_while_fixed x H1), (drop_while_fixed _ H2).
  apply rev_involutive.
Qed.

Lemma lower_fixed (c : ascii) : Str.is_upper c = false -> Str.lower c = c.
Proof. unfold Str.lower. now intros ->. Qed.

End StrProps.

(** ** Eight-bit colours *)

Module ColorProps.

Import Num Color Cases Gamut.
Local Open Scope float_scope.

Lemma channels_checked (P : Z -> bool) :
  forallb P channels = true -> forall k, (0 <= k <= 255)%Z -> P k = true.
Proof.
  intros H k Hk. rewrite forallb_forall in H. apply H.
  now apply FlipProps.in_channels.
Qed.

Lemma plain_spec (c : ascii) :
  plain c = true -> Str.is_space c = false /\ Str.is_upper c = false.
Proof.
  unfold plain. destruct (Str.is_space c), (Str.is_upper c); simpl;
    intros H; try discriminate; auto.
Qed.

Lemma all_hex_checked : forallb hex_checked channels = true.
Proof. vm_compute. reflexivity. Qed.

(** A channel prints as two characters that read back as the channel. *)
Lemma hex_spec (k : Z) :
  (0 <= k <= 255)%Z ->
  exists c1 c2,
    hex (of_Z k) = String c1 (String c2 EmptyString)
    /\ plain c1 = true /\ plain c2 = true
    /\ parseInt16 (String c1 (String c2 EmptyString)) = of_Z k.
Proof.
  intros Hk. pose proof (channels_checked _ all_hex_checked k Hk) as H.
  unfold hex_checked in H.
  destruct (hex (of_Z k)) as [| c1 [| c2 [| c3 rest]]]; try discriminate.
  apply andb_prop in H as [H H3]. apply andb_prop in H as [H1 H2].
  apply FloatAxioms.Leibniz.eqb_spec in H3.
  exists c1, c2. auto.
Qed.

Lemma hexToRgba_six (a1 a2 b1 b2 c1 c2 : ascii) :
  hexToRgba (String "#" (String a1 (String a2 (String b1 (String b2
              (String c1 (String c2 EmptyString)))))))
  = mkRGBA (parseInt16 (String a1 (String a2 EmptyString)))
           (parseInt16 (String b1 (String b2 EmptyString)))
           (parseInt16 (String c1 (String c2 EmptyString))) 1.
Proof. reflexivity. Qed.

Lemma toRgba_six (a1 a2 b1 b2 c1 c2 : ascii) :
  plain a1 = true -> plain a2 = true -> plain b1 = true -> plain b2 = true ->
  plain c1 = true -> plain c2 = true ->
  toRgba (String "#" (String a1 (String a2 (String b1 (String b2
           (String c1 (String c2 EmptyString)))))))
  = mkRGBA (parseInt16 (String a1 (String a2 EmptyString)))
           (parseInt16 (String b1 (String b2 EmptyString)))
           (parseInt16 (String c1 (String c2 EmptyString))) 1.
Proof.
  intros A1 A2 B1 B2 C1 C2.
  apply plain_spec in A1 as [A1 A1'], A2 as [A2 A2'], B1 as [B1 B1'],
      B2 as [B2 B2'], C1 as [C1 C1'], C2 as [C2 C2'].
  unfold toRgba. rewrite StrProps.trim_fixed.
  - cbn [Str.toLowerCase].
    rewrite (StrProps.lower_fixed a1 A1'), (StrProps.lower_fixed a2 A2'),
      (StrProps.lower_fixed b1 B1'), (StrProps.lower_fixed b2 B2'),
      (StrProps.lower_fixed c1 C1'), (StrProps.lower_fixed c2 C2').
    apply hexToRgba_six.
  - reflexivity.
  - cbn [Str.rev Str.rev_onto Shape.starts_with]. unfold Shape.not_space.
    now rewrite C2.
Qed.

Lemma opaque_is_one : (1 =? 1) = true.
Proof. reflexivity. Qed.

(** X3. The colour the document prints for opaque eight-bit channels reads
    back as the same colour: [toRgba(rgbaToCss(c)) = c]. *)
Theorem hex_round_trip (r0 g0 b0 : Z) :
  (0 <= r0 <= 255)%Z -> (0 <= g0 <= 255)%Z -> (0 <= b0 <= 255)%Z ->
  toRgba (rgbaToCss (rgb8 r0 g0 b0 1)) = rgb8 r0 g0 b0 1.
Proof.
  intros Hr Hg Hb.
  destruct (hex_spec r0 Hr) as [a1 [a2 [Ea [A1 [A2 Pa]]]]].
  destruct (hex_spec g0 Hg) as [b1 [b2 [Eb [B1 [B2 Pb]]]]].
  destruct (hex_spec b0 Hb) as [c1 [c2 [Ec [C1 [C2 Pc]]]]].
  unfold rgbaToCss, rgb8. cbn [r g b a].
  rewrite opaque_is_one, Ea, Eb, Ec. cbn [append].
  rewrite (toRgba_six a1 a2 b1 b2 c1 c2 A1 A2 B1 B2 C1 C2), Pa, Pb, Pc.
  reflexivity.
Qed.

Lemma hex_round_trip_witness :
  toRgba (rgbaToCss (rgb8 59 130 246 1)) = rgb8 59 130 246 1.
Proof. apply hex_round_trip; lia. Defined.

Lemma all_invert_checked : forallb invert_checked channels = true.
Proof. vm_compute. reflexivity. Qed.

Lemma invert_channel (k : Z) :
  (0 <= k <= 255)%Z ->
  clamp (255 - clamp (255 - of_Z k) 10 245) 10 245 = of_Z (Z.min 245 (Z.max 10 k)).
Proof.
  intros Hk. apply FloatAxioms.Leibniz.eqb_spec.
  apply (channels_checked invert_checked all_invert_checked k Hk).
Qed.

(** X4. [invertRgb] is no involution: on eight-bit channels, inverting twice
    brings every channel into [10, 245] and leaves it alone there; the
    alpha is kept. *)
Theorem invert_twice (r0 g0 b0 : Z) (a0 : number) :
  (0 <= r0 <= 255)%Z -> (0 <= g0 <= 255)%Z -> (0 <= b0 <= 255)%Z ->
  invertRgb (invertRgb (rgb8 r0 g0 b0 a0))
  = rgb8 (Z.min 245 (Z.max 10 r0)) (Z.min 245 (Z.max 10 g0))
         (Z.min 245 (Z.max 10 b0)) a0.
Proof.
  intros Hr Hg Hb. unfold invertRgb, rgb8. cbn [r g b a].
  rewrite (invert_channel r0 Hr), (invert_channel g0 Hg), (invert_channel b0 Hb).
  reflexivity.
Qed.

Lemma invert_twice_witness :
  invertRgb (invertRgb (rgb8 0 128 255 1)) = rgb8 10 128 245 1.
Proof. apply (invert_twice 0 128 255 1); lia. Defined.

Lemma all_unit_checked : all_pairs unit_checked = true.
Proof. vm_cast_no_check (eq_refl true). Qed.

(** X5. For every eight-bit colour [rgbaToHsl] gives a saturation and a
    lightness in [0, 1]. *)
Theorem hsl_in_unit_range (r0 g0 b0 : Z) (a0 : number) :
  (0 <= r0 <= 255)%Z -> (0 <= g0 <= 255)%Z -> (0 <= b0 <= 255)%Z ->
  (0 <=? s (rgbaToHsl (rgb8 r0 g0 b0 a0))) = true
  /\ (s (rgbaToHsl (rgb8 r0 g0 b0 a0)) <=? 1) = true
  /\ (0 <=? l (rgbaToHsl (rgb8 r0 g0 b0 a0))) = true
  /\ (l (rgbaToHsl (rgb8 r0 g0 b0 a0)) <=? 1) = true.
Proof.
  intros Hr Hg Hb.
  destruct (FlipProps.hsl_of_rgb8 r0 g0 b0 a0 Hr Hg Hb) as [Hs Hl].
  assert (Hle : (0 <= Z.min (Z.min r0 g0) b0 <= Z.max (Z.max r0 g0) b0)%Z) by lia.
  assert (Hmx : (Z.max (Z.max r0 g0) b0 <= 255)%Z) by lia.
  pose proof (FlipProps.all_pairs_spec unit_checked all_unit_checked _ _ Hle Hmx) as H.
  unfold unit_checked in H.
  apply andb_prop in H as [H H4]. apply andb_prop in H as [H H3].
  apply andb_prop in H as [H1 H2].
  rewrite Hs, Hl. auto.
Qed.

Lemma hsl_in_unit_range_witness :
  (0 <=? s (rgbaToHsl (rgb8 59 130 246 1))) = true
  /\ (s (rgbaToHsl (rgb8 59 130 246 1)) <=? 1) = true
  /\ (0 <=? l (rgbaToHsl (rgb8 59 130 246 1))) = true
  /\ (l (rgbaToHsl (rgb8 59 130 246 1)) <=? 1) = true.
Proof. apply (hsl_in_unit_range 59 130 246 1); lia. Defined.

Lemma all_gray_checked : forallb gray_checked channels = true.
Proof. vm_compute. reflexivity. Qed.

Lemma gray_spec (k : Z) :
  (0 <= k <= 255)%Z ->
  max2 (unit255 k) (unit255 k) = unit255 k
  /\ min2 (unit255 k) (unit255 k) = unit255 k
  /\ (unit255 k - unit255 k =? 0) = true
  /\ round (clamp ((unit255 k + unit255 k) / 2) 0 1 * 255) = of_Z k.
Proof.
  intros Hk. pose proof (channels_checked gray_checked all_gray_checked k Hk) as H.
  unfold gray_checked in H.
  apply andb_prop in H as [H H4]. apply andb_prop in H as [H H3].
  apply andb_prop in H as [H1 H2].
  apply FloatAxioms.Leibniz.eqb_spec in H1, H2, H4. auto.
Qed.

Lemma rgbaToHsl_gray (k : Z) (a0 : number) :
  (0 <= k <= 255)%Z ->
  rgbaToHsl (rgb8 k k k a0) = mkHSL 0 0 ((unit255 k + unit255 k) / 2) a0.
Proof.
  intros Hk. destruct (gray_spec k Hk) as [H1 [H2 [H3 _]]].
  unfold rgbaToHsl, rgb8. cbn [r g b a].
  unfold max3, min3. fold (unit255 k).
  rewrite !H1, !H2, H3. reflexivity.
Qed.

(** X6. A gray goes to HSL and back unchanged: for every channel value [k]
    and every alpha, [rgbaToHsl] gives the gray no hue and no saturation,
    and [hslToRgba] returns the gray itself. *)
Theorem gray_round_trip (k : Z) (a0 : number) :
  (0 <= k <= 255)%Z ->
  h (rgbaToHsl (rgb8 k k k a0)) = 0
  /\ s (rgbaToHsl (rgb8 k k k a0)) = 0
  /\ hslToRgba (rgbaToHsl (rgb8 k k k a0)) = rgb8 k k k a0.
Proof.
  intros Hk. rewrite (rgbaToHsl_gray k a0 Hk). cbn [h s].
  split; [reflexivity |]. split; [reflexivity |].
  rewrite FlipProps.hslToRgba_gray.
  destruct (gray_spec k Hk) as [_ [_ [_ H4]]]. rewrite H4. reflexivity.
Qed.

Lemma gray_round_trip_witness :
  hslToRgba (rgbaToHsl (rgb8 51 51 51 1)) = rgb8 51 51 51 1.
Proof. apply (gray_round_trip 51 1); lia. Defined.

End ColorProps.

(** ** The pick of a role *)

Module PickProps.

Import Num Color Roles Cases Ranking.
Local Open Scope float_scope.

Lemma sort_nil {A : Type} (cmp : A -> A -> comparison) (l : list A) :
  Sort.sort cmp l = [] -> l = [].
Proof.
  intros H. pose proof (OrderProps.sort_perm cmp l) as P. rewrite H in P.
  now apply Permutation_nil, Permutation_sym.
Qed.

Lemma pickBest_ranked (cands : list Cand) (scoreFn : Cand -> number) :
  pickBest cands scoreFn
  = match cands with
    | [] => None
    | _ =>
        match Sort.sort by_score (scored cands scoreFn) with
        | (c, _) :: _ => Some c
        | [] => None
        end
    end.
Proof. reflexivity. Qed.

(** The pick is the candidate at the head of the ranking. *)
Lemma pickBest_head (cands : list Cand) (scoreFn : Cand -> number) (c : Cand) :
  pickBest cands scoreFn = Some c ->
  exists sc rest, Sort.sort by_score (scored cands scoreFn) = (c, sc) :: rest.
Proof.
  rewrite pickBest_ranked.
  destruct cands as [| c0 cs]; [discriminate |].
  destruct (Sort.sort by_score (scored (c0 :: cs) scoreFn)) as [| [c1 s1] rest];
    [discriminate |].
  intros H. injection H as <-. now exists s1, rest.
Qed.

Lemma in_scored (cands : list Cand) (scoreFn : Cand -> number) (c : Cand)
      (sc : number) :
  In (c, sc) (scored cands scoreFn) <-> In c cands /\ sc = scoreFn c.
Proof.
  unfold scored. rewrite in_map_iff. split.
  - intros [x [E Hx]]. injection E as <- <-. auto.
  - intros [Hc ->]. now exists c.
Qed.

Lemma pickBest_In (cands : list Cand) (scoreFn : Cand -> number) (c : Cand) :
  pickBest cands scoreFn = Some c -> In c cands.
Proof.
  intros H. destruct (pickBest_head _ _ _ H) as [sc [rest E]].
  assert (Hin : In (c, sc) (scored cands scoreFn)).
  { apply Permutation_in with (l := Sort.sort by_score (scored cands scoreFn)).
    - symmetry. apply OrderProps.sort_perm.
    - rewrite E. now left. }
  now apply in_scored in Hin.
Qed.

Lemma pickBest_None (cands : list Cand) (scoreFn : Cand -> number) :
  pickBest cands scoreFn = None <-> cands = [].
Proof.
  split; [| now intros ->].
  rewrite pickBest_ranked.
  destruct cands as [| c0 cs]; [reflexivity |].
  destruct (Sort.sort by_score (scored (c0 :: cs) scoreFn)) as [| [c1 s1] rest] eqn:E;
    [| discriminate].
  apply sort_nil in E. discriminate.
Qed.

(** X7. [pickBest] returns nothing exactly when there is no candidate, and
    what it returns is one of the candidates, whatever the scores (a [NaN]
    score included); the set it is given only grows by the pick. *)
Theorem pickBest_picks (cands : list Cand) (scoreFn : Cand -> number)
        (u : list string) :
  (pickBest cands scoreFn = None <-> cands = [])
  /\ (forall c, pickBest cands scoreFn = Some c -> In c cands)
  /\ fst (pickBestMark cands scoreFn u) = pickBest cands scoreFn
  /\ (forall x, In x (snd (pickBestMark cands scoreFn u)) ->
                In x u \/ exists c, pickBest cands scoreFn = Some c /\ x = lit c).
Proof.
  split; [apply pickBest_None |]. split; [apply pickBest_In |].
  split; [apply RoleProps.pick_ignores_used |].
  intros x. unfold pickBestMark.
  destruct (pickBest cands scoreFn) as [c |]; cbn [snd]; [| now left].
  unfold set_add. destruct (Str.mem (lit c) u); [now left |].
  rewrite in_app_iff. intros [H | [<- | []]]; [now left |].
  right. now exists c.
Qed.

(** X8. On candidates whose scores the comparator orders consistently, the
    pick has the best score: no candidate's score exceeds it. *)
Theorem pickBest_best (cands : list Cand) (scoreFn : Cand -> number) :
  consistent by_score (scored cands scoreFn) = true ->
  forall c, pickBest cands scoreFn = Some c ->
            In c cands
            /\ forall c', In c' cands -> (0 <? scoreFn c' - scoreFn c) = false.
Proof.
  intros Hc c Hp. split; [now apply (pickBest_In cands scoreFn) |].
  destruct (pickBest_head _ _ _ Hp) as [sc [rest E]].
  pose proof (OrderProps.consistent_sorted by_score _ Hc) as Hs.
  rewrite E in Hs. apply StronglySorted_inv in Hs as [_ Hall].
  rewrite Forall_forall in Hall.
  assert (Hperm : forall p, In p (scored cands scoreFn) -> In p ((c, sc) :: rest)).
  { intros p Hin. rewrite <- E.
    apply Permutation_in with (l := scored cands scoreFn); [| exact Hin].
    apply OrderProps.sort_perm. }
  assert (Hsc : sc = scoreFn c).
  { assert (Hin : In (c, sc) (scored cands scoreFn)).
    { apply Permutation_in with (l := Sort.sort by_score (scored cands scoreFn)).
      - symmetry. apply OrderProps.sort_perm.
      - rewrite E. now left. }
    now apply in_scored in Hin. }
  subst sc. intros c' Hc'.
  assert (Hb : before by_score (c, scoreFn c) (c', scoreFn c') = true).
  { destruct (Hperm (c', scoreFn c')) as [Heq | Hin].
    - apply in_scored. auto.
    - rewrite <- Heq. unfold consistent in Hc. rewrite forallb_forall in Hc.
      assert (Hin : In (c, scoreFn c) (scored cands scoreFn))
        by (apply in_scored; split; [now apply (pickBest_In cands scoreFn) | reflexivity]).
      specialize (Hc _ Hin). rewrite forallb_forall in Hc. specialize (Hc _ Hin).
      apply andb_prop in Hc as [Hc _]. now destruct (before by_score _ _).
    - now apply Hall. }
  unfold before, by_score in Hb. cbn [snd] in Hb.
  destruct (0 <? scoreFn c' - scoreFn c) eqn:Z; [| reflexivity].
  apply OrderProps.sign_of_Gt in Z. rewrite Z in Hb. discriminate.
Qed.

Lemma pickBest_best_witness :
  pickBest [gray_cand; blue_cand] (fun c => of_nat (count c)) = Some gray_cand
  /\ (0 <? of_nat (count blue_cand) - of_nat (count gray_cand)) = false.
Proof.
  assert (Hc : consistent by_score
                 (scored [gray_cand; blue_cand] (fun c => of_nat (count c))) = true)
    by (vm_compute; reflexivity).
  assert (Hp : pickBest [gray_cand; blue_cand] (fun c => of_nat (count c))
               = Some gray_cand) by (vm_compute; reflexivity).
  split; [exact Hp |].
  apply (proj2 (pickBest_best _ _ Hc gray_cand Hp) blue_cand).
  right. now left.
Defined.

Section Engine.

Variable log1p : number -> number.
Variable pow : number -> number -> number.

(** The role object of [assign], pick by pick. *)
Lemma assign_roles (palette : list Cand) :
  let grays := filter isGrayish palette in
  let primary := pickBest (filter isSaturated palette) (scorePrimary log1p pow) in
  let secondary :=
    pickBest (filter (fun c => isSaturated c && distinct c primary) palette)
             (scoreSecondary log1p) in
  let border := pickBest grays (scoreBorder log1p pow) in
  let muted := pickBest grays (scoreMuted log1p pow) in
  roles (assign log1p pow palette)
  = [("--color-fg",
      orElse (pickBest grays (scoreFg log1p pow))
             (pickBest palette (scoreFgFallback log1p pow)));
     ("--color-bg", pickBest palette (scoreBg log1p pow));
     ("--color-primary", primary);
     ("--color-secondary", secondary);
     ("--color-accent",
      pickBest (filter (fun c => isSaturated c && distinct c primary
                                 && distinct c secondary) palette)
               (scoreAccent log1p));
     ("--color-border", border);
     ("--color-surface-1", pickBest grays (scoreSurface log1p pow 0.96 1.4 0.6));
     ("--color-surface-2", pickBest grays (scoreSurface log1p pow 0.9 1.2 0.5));
     ("--color-outline", orElse (pickBest palette (scoreOutline pow)) border);
     ("--color-muted", muted);
     ("--color-disabled", orElse (pickBest grays (scoreDisabled pow)) muted)].
Proof.
  cbv zeta. unfold Roles.assign, pickBestMark.
  repeat match goal with
         | |- context [match pickBest ?x ?y with _ => _ end] =>
             destruct (pickBest x y)
         end; reflexivity.
Qed.

Lemma orElse_Some (x y : option Cand) (c : Cand) :
  orElse x y = Some c -> x = Some c \/ y = Some c.
Proof. destruct x; simpl; auto. Qed.

Lemma pick_filter (P : Cand -> bool) (palette : list Cand)
      (scoreFn : Cand -> number) (c : Cand) :
  pickBest (filter P palette) scoreFn = Some c -> In c palette /\ P c = true.
Proof. intros H. apply pickBest_In in H. now apply filter_In in H. Qed.

Lemma mark_from_palette (palette cands : list Cand) (scoreFn : Cand -> number)
      (u : list string) :
  incl cands palette -> from_palette palette u ->
  from_palette palette (snd (pickBestMark cands scoreFn u)).
Proof.
  intros Hi Hu x. unfold pickBestMark.
  destruct (pickBest cands scoreFn) as [c |] eqn:E; cbn [snd]; [| apply Hu].
  unfold set_add. destruct (Str.mem (lit c) u); [apply Hu |].
  rewrite in_app_iff. intros [H | [<- | []]]; [now apply Hu |].
  exists c. split; [| reflexivity]. apply Hi. now apply (pickBest_In cands scoreFn).
Qed.

Lemma filter_incl (P : Cand -> bool) (palette : list Cand) :
  incl (filter P palette) palette.
Proof. intros c H. now apply filter_In in H. Qed.

Lemma used_from_palette (palette : list Cand) :
  from_palette palette (used (assign log1p pow palette)).
Proof.
  unfold Roles.assign.
  repeat match goal with
         | |- context [pickBestMark ?cs ?f ?u] =>
             let H := fresh "H" in
             let E := fresh "E" in
             let x := fresh "x" in
             let u' := fresh "u" in
             assert (H : incl cs palette -> from_palette palette u ->
                         from_palette palette (snd (pickBestMark cs f u)))
               by apply mark_from_palette;
             destruct (pickBestMark cs f u) as [x u'] eqn:E; cbn [snd] in H
         end.
  cbn [used].
  repeat match goal with
         | H : incl ?cs palette -> from_palette palette ?u -> from_palette palette ?v
           |- from_palette palette ?v =>
             apply H; [first [apply incl_refl | apply filter_incl] |]; clear H
         end.
  intros y [].  
Qed.

End Engine.

(** X9. Whatever [Math.log1p] and the power operator compute, a role is
    only ever given a colour of the palette, and the set [used] only holds
    palette colours; without colours no role is assigned, and with at least
    one colour the foreground, the background and the outline are. *)
Theorem roles_from_palette (log1p : number -> number)
        (pow : number -> number -> number) (palette : list Cand) :
  let asg := assign log1p pow palette in
  (forall name c, pick_of asg name = Some c -> In c palette)
  /\ (forall x, In x (used asg) -> exists c, In c palette /\ lit c = x)
  /\ (palette = [] -> forall name, pick_of asg name = None)
  /\ (palette <> [] ->
      pick_of asg "--color-fg" <> None /\ pick_of asg "--color-bg" <> None
      /\ pick_of asg "--color-outline" <> None).
Proof.
  cbv zeta.
  assert (Hin : forall name c,
             pick_of (assign log1p pow palette) name = Some c -> In c palette).
  { intros name c. unfold pick_of. rewrite assign_roles. cbv zeta. cbn [find fst].
    repeat match goal with
           | |- context [String.eqb ?x name] => destruct (String.eqb x name)
           end;
      try discriminate; intros H;
      repeat match type of H with
             | orElse _ _ = Some _ => apply orElse_Some in H as [H | H]
             end;
      first [ now apply pick_filter in H | now apply pickBest_In in H ]. }
  split; [exact Hin |]. split; [apply used_from_palette |]. split.
  - intros -> name. destruct (pick_of _ name) as [c |] eqn:E; [| reflexivity].
    now apply Hin in E.
  - intros Hne. unfold pick_of. rewrite assign_roles. cbv zeta. cbn.
    assert (Hp : forall f, pickBest palette f <> None)
      by (intros f E; now apply pickBest_None in E).
    repeat split.
    + destruct (pickBest (filter isGrayish palette) _); [discriminate | apply Hp].
    + apply Hp.
    + destruct (pickBest palette (scoreOutline pow)) eqn:E; [discriminate |].
      now apply Hp in E.
Qed.

Lemma roles_from_palette_witness :
  In blue_cand [gray_cand; blue_cand]
  /\ pick_of (assign (fun x => x) (fun x _ => x) [gray_cand; blue_cand])
             "--color-primary" = Some blue_cand.
Proof.
  assert (H : pick_of (assign (fun x => x) (fun x _ => x) [gray_cand; blue_cand])
                      "--color-primary" = Some blue_cand) by (vm_compute; reflexivity).
  split; [| exact H].
  apply (proj1 (roles_from_palette (fun x => x) (fun x _ => x) [gray_cand; blue_cand])
           "--color-primary" blue_cand H).
Defined.

(** X10. The pools of the roles hold: border, both surfaces, muted and
    disabled are only given a grayish colour (saturation at most 0.1);
    primary, secondary and accent only a saturated one (at least 0.22); a
    secondary is only given beside a primary and lies further than 0.18
    from it in HSL, and an accent lies further than 0.18 from both. *)
Theorem roles_keep_their_pools (log1p : number -> number)
        (pow : number -> number -> number) (palette : list Cand) :
  let asg := assign log1p pow palette in
  (forall name c, In name gray_roles -> pick_of asg name = Some c ->
                  isGrayish c = true)
  /\ (forall name c, In name vivid_roles -> pick_of asg name = Some c ->
                     isSaturated c = true)
  /\ (forall c2, pick_of asg "--color-secondary" = Some c2 ->
                 exists c1, pick_of asg "--color-primary" = Some c1
                            /\ (0.18 <? hslDist (hsl_of c2) (hsl_of c1))%float = true)
  /\ (forall c3, pick_of asg "--color-accent" = Some c3 ->
                 distinct c3 (pick_of asg "--color-primary") = true
                 /\ distinct c3 (pick_of asg "--color-secondary") = true).
Proof.
  cbv zeta. unfold pick_of. rewrite assign_roles. cbv zeta.
  split; [| split; [| split]].
  - intros name c Hn. unfold gray_roles in Hn. cbn [In] in Hn.
    repeat destruct Hn as [<- | Hn]; try contradiction; cbn; intros H;
      repeat match type of H with
             | orElse _ _ = Some _ => apply orElse_Some in H as [H | H]
             end;
      now apply pick_filter in H.
  - intros name c Hn. unfold vivid_roles in Hn. cbn [In] in Hn.
    repeat destruct Hn as [<- | Hn]; try contradiction; cbn; intros H;
      apply pick_filter in H as [_ H];
      repeat (apply andb_prop in H as [H _]); exact H.
  - intros c2. cbn. intros H. apply pick_filter in H as [Hin H].
    apply andb_prop in H as [Hs Hd].
    destruct (pickBest (filter isSaturated palette) (scorePrimary log1p pow))
      as [c1 |] eqn:E.
    + exists c1. split; [reflexivity | exact Hd].
    + apply pickBest_None in E.
      assert (Hf : In c2 (filter isSaturated palette)) by (apply filter_In; auto).
      rewrite E in Hf. contradiction.
  - intros c3. cbn. intros H. apply pick_filter in H as [_ H].
    apply andb_prop in H as [H Hd2]. apply andb_prop in H as [_ Hd1]. auto.
Qed.

End PickProps.

(** ** Orders: ties, typography and motion *)

Module StableProps.

Import Num Orders Cases Typography Motion.
Local Open Scope float_scope.

(** The sort leaves a list alone in which every element may stand before the
    next. *)
Lemma sort_sorted_id {A : Type} (cmp : A -> A -> comparison) (l : list A) :
  Sorted (fun a b => before cmp a b = true) l -> Sort.sort cmp l = l.
Proof.
  induction 1 as [| x xs Hs IH Hx]; simpl; [reflexivity |].
  rewrite IH. destruct Hx as [| y ys Hxy]; simpl; [reflexivity |].
  unfold before in Hxy. now destruct (cmp x y).
Qed.

(** X11. The sort keeps a table that is already in order: when each
    candidate may stand before the next (the comparator does not ask to swap
    them, as among candidates of equal count and equal size), the order of a
    category is the order of first appearance. *)
Theorem ordered_table_kept (cfg : Config) (tbl : Table) :
  (has_feature cfg "spacing" = true ->
   Sorted (fun a b => before (spacing_cmp cfg) a b = true) tbl ->
   spacingOrder cfg tbl = keys tbl)
  /\ (has_feature cfg "borders" = true ->
      Sorted (fun a b => before (border_cmp cfg) a b = true) tbl ->
      borderWidthOrder cfg tbl = keys tbl)
  /\ (has_feature cfg "radius" = true ->
      Sorted (fun a b => before (border_cmp cfg) a b = true) tbl ->
      radiusOrder cfg tbl = keys tbl).
Proof.
  unfold spacingOrder, borderWidthOrder, radiusOrder.
  split; [| split]; intros -> H; now rewrite (sort_sorted_id _ _ H).
Qed.

Lemma ordered_table_kept_witness :
  spacingOrder default_config [("1rem", 1%nat); ("16px", 1%nat)] = ["1rem"; "16px"]
  /\ spacingOrder default_config [("16px", 1%nat); ("1rem", 1%nat)] = ["16px"; "1rem"].
Proof.
  split.
  - apply (proj1 (ordered_table_kept default_config [("1rem", 1%nat); ("16px", 1%nat)]));
      [reflexivity |].
    repeat constructor.
  - apply (proj1 (ordered_table_kept default_config [("16px", 1%nat); ("1rem", 1%nat)]));
      [reflexivity |].
    repeat constructor.
Defined.

Lemma ordered_sorted (cfg : Config) (measure : string -> number) (tbl : Table) :
  has_feature cfg "typography" = true ->
  consistent (by_measure measure) tbl = true ->
  exists es, ordered cfg measure tbl = keys es /\ Permutation tbl es
             /\ StronglySorted (count_then_measure measure) es.
Proof.
  intros Hf Hc. exists (Sort.sort (by_measure measure) tbl).
  unfold ordered. rewrite Hf.
  split; [reflexivity |]. split; [apply OrderProps.sort_perm |].
  apply (OrderProps.sorted_weaken (OrderProps.may_precede (by_measure measure)));
    [| now apply OrderProps.consistent_sorted].
  intros a b H. now apply OrderProps.by_count_then_before in H.
Qed.

(** X12. With the typography feature on and a consistent comparator, the
    font sizes, line heights, font weights and letter spacings are each
    ordered by descending count and, among equal counts, by descending
    measure: [lenToPxSafe] for sizes and spacings, [lineHeightToFloat] for
    line heights, [fontWeightToNum] for weights.  No candidate is lost or
    repeated. *)
Theorem typography_orders_sorted (cfg : Config) (tbl : Table) :
  has_feature cfg "typography" = true ->
  (consistent (by_measure (lenToPxSafe cfg)) tbl = true ->
   (exists es, fsOrder cfg tbl = keys es /\ Permutation tbl es
               /\ StronglySorted (count_then_measure (lenToPxSafe cfg)) es)
   /\ (exists es, lsOrder cfg tbl = keys es /\ Permutation tbl es
                  /\ StronglySorted (count_then_measure (lenToPxSafe cfg)) es))
  /\ (consistent (by_measure (lineHeightToFloat cfg)) tbl = true ->
      exists es, lhOrder cfg tbl = keys es /\ Permutation tbl es
                 /\ StronglySorted (count_then_measure (lineHeightToFloat cfg)) es)
  /\ (consistent (by_measure fontWeightToNum) tbl = true ->
      exists es, fwOrder cfg tbl = keys es /\ Permutation tbl es
                 /\ StronglySorted (count_then_measure fontWeightToNum) es).
Proof.
  intros Hf. unfold fsOrder, lsOrder, lhOrder, fwOrder.
  split; [| split].
  - intros Hc. split; now apply ordered_sorted.
  - intros Hc. now apply ordered_sorted.
  - intros Hc. now apply ordered_sorted.
Qed.

Lemma typography_orders_sorted_witness :
  fsOrder default_config size_table = ["1.5rem"; "16px"; "120%"]
  /\ exists es, fsOrder default_config size_table = keys es
                /\ Permutation size_table es
                /\ StronglySorted (count_then_measure (lenToPxSafe default_config)) es.
Proof.
  split; [vm_compute; reflexivity |].
  apply (proj1 (typography_orders_sorted default_config size_table eq_refl)).
  vm_compute. reflexivity.
Defined.

Lemma duration_cmp_before (a b : Entry) :
  before duration_cmp a b = true <-> count_then_shorter a b.
Proof.
  unfold before, duration_cmp, count_then_shorter.
  destruct (Nat.compare_spec (count b) (count a)) as [E | E | E].
  - pose proof (OrderProps.sign_of_Gt (ms a - ms b)) as S.
    destruct (0 <? ms a - ms b) eqn:Z.
    + rewrite (proj2 S eq_refl).
      split; [discriminate | intros [H | [_ H]]; [lia | discriminate]].
    + destruct (Sort.sign_of (ms a - ms b)) eqn:G.
      * split; [intros _; right; split; [now symmetry | reflexivity] | reflexivity].
      * split; [intros _; right; split; [now symmetry | reflexivity] | reflexivity].
      * destruct S as [S _]. specialize (S eq_refl). discriminate.
  - split; [intros _; now left | reflexivity].
  - split; [discriminate | intros [H | [H _]]; lia].
Qed.

(** X13. With the motion feature on and a consistent comparator, the
    durations are ordered by descending count and, among equal counts, by
    ascending milliseconds; no candidate is lost or repeated. *)
Theorem duration_order_sorted (cfg : Config) (tbl : list Entry) :
  has_feature cfg "motion" = true ->
  consistent duration_cmp tbl = true ->
  exists es, durOrder cfg tbl = map fst es /\ Permutation tbl es
             /\ StronglySorted count_then_shorter es.
Proof.
  intros Hf Hc. exists (Sort.sort duration_cmp tbl).
  unfold durOrder. rewrite Hf.
  split; [reflexivity |]. split; [apply OrderProps.sort_perm |].
  apply (OrderProps.sorted_weaken (OrderProps.may_precede duration_cmp));
    [| now apply OrderProps.consistent_sorted].
  intros a b H. now apply duration_cmp_before in H.
Qed.

Lemma duration_order_sorted_witness :
  durOrder default_config duration_table = ["200ms"; "0.3s"]
  /\ exists es, durOrder default_config duration_table = map fst es
                /\ Permutation duration_table es
                /\ StronglySorted count_then_shorter es.
Proof.
  split; [vm_compute; reflexivity |].
  apply (duration_order_sorted default_config duration_table);
    vm_compute; reflexivity.
Defined.

End StableProps.

(** ** Generated names *)

Module NumberingProps.

Import Naming Cases Numbering.

Lemma numbered_inj (prefix : string) (i j : nat) :
  numbered prefix i = numbered prefix j -> i = j.
Proof.
  unfold numbered. intros H.
  apply (NamingProps.app_inv_head "--") in H.
  apply NamingProps.app_inv_head in H.
  apply (NamingProps.app_inv_head "-") in H.
  apply NamingProps.nat_to_string_inj in H. lia.
Qed.

Lemma base_names_sequential (md5hex : string -> string) (prefix : string)
      (order : list string) :
  forall i, base_names md5hex false prefix order i
            = map (numbered prefix) (seq i (List.length order)).
Proof.
  induction order as [| lit rest IH]; intros i; simpl; [reflexivity |].
  now rewrite IH.
Qed.

Lemma map_NoDup {A B : Type} (f : A -> B) (l : list A) :
  (forall x y, f x = f y -> x = y) -> NoDup l -> NoDup (map f l).
Proof.
  intros Hf. induction 1 as [| x l Hx Hl IH]; simpl; constructor; [| exact IH].
  rewrite in_map_iff. intros [y [E Hy]]. apply Hf in E. now subst.
Qed.

Lemma sequential_NoDup (prefix : string) (i n : nat) :
  NoDup (map (numbered prefix) (seq i n)).
Proof.
  apply map_NoDup; [| apply seq_NoDup].
  intros x y. apply numbered_inj.
Qed.

Section Factory.

Variable md5hex : string -> string.

(** A generated name that is free is returned as it is. *)
Lemma name_factory_free (stable : bool) (prefix : string) (used : list string)
      (lit : string) (i : nat) :
  ~ In (base_name md5hex stable prefix lit i) used ->
  name_factory md5hex stable prefix used lit i
  = (base_name md5hex stable prefix lit i,
     (used ++ [base_name md5hex stable prefix lit i])%list).
Proof.
  intros H. apply NamingProps.mem_not_In in H.
  unfold name_factory, base_name in *. cbn [unique_from].
  destruct stable; rewrite H; reflexivity.
Qed.

Lemma name_all_free (stable : bool) (prefix : string) (order : list string) :
  forall used i,
    NoDup (base_names md5hex stable prefix order i) ->
    (forall x, In x (base_names md5hex stable prefix order i) -> ~ In x used) ->
    map snd (fst (name_all md5hex stable prefix used order i))
    = base_names md5hex stable prefix order i
    /\ map fst (fst (name_all md5hex stable prefix used order i)) = order.
Proof.
  induction order as [| lit rest IH]; intros used i Hnd Hfree; [now split |].
  cbn [name_all base_names] in *.
  rewrite name_factory_free by (apply Hfree; now left).
  apply NoDup_cons_iff in Hnd as [Hhd Hnd].
  destruct (IH (used ++ [base_name md5hex stable prefix lit i])%list (S i) Hnd)
    as [IH1 IH2].
  { intros x Hx Hin. apply in_app_iff in Hin as [Hin | [<- | []]].
    - apply (Hfree x); [now right | exact Hin].
    - contradiction. }
  destruct (name_all md5hex stable prefix _ rest (S i)) as [more used2].
  cbn [fst snd map] in *. now rewrite IH1, IH2.
Qed.

End Factory.

(** X14. The suffix loop of the name factory does nothing unless two
    generated names coincide: when the names the factory starts from are
    pairwise different, each literal gets exactly that name.  With
    sequential names that is always so: the literals of a category are named
    [--prefix-1], [--prefix-2], ... in their order. *)
Theorem names_without_collision (md5hex : string -> string) (prefix : string)
        (order : list string) :
  (forall stable,
      NoDup (base_names md5hex stable prefix order 0) ->
      names_of md5hex stable prefix order = base_names md5hex stable prefix order 0
      /\ map fst (fst (name_all md5hex stable prefix [] order 0)) = order)
  /\ names_of md5hex false prefix order
     = map (numbered prefix) (seq 0 (List.length order)).
Proof.
  split.
  - intros stable Hnd. unfold names_of.
    apply name_all_free; [exact Hnd | intros x _ []].
  - unfold names_of.
    rewrite <- (base_names_sequential md5hex).
    apply name_all_free; [| intros x _ []].
    rewrite base_names_sequential. apply sequential_NoDup.
Qed.

Lemma names_without_collision_witness :
  names_of literal_digest true "space" ["4px"; "8px"] = ["--space-4px"; "--space-8px"].
Proof.
  apply (proj1 (names_without_collision literal_digest "space" ["4px"; "8px"]) true).
  repeat constructor; simpl; intuition discriminate.
Defined.

Lemma number_of_zero (s : string) :
  number_of (String "0" s) = number_of s.
Proof.
  unfold number_of. cbn [NilEmpty.uint_of_string].
  destruct (NilEmpty.uint_of_string s) as [d |]; reflexivity.
Qed.

Lemma number_of_padded (k : nat) (s : string) :
  number_of (Str.repeat "0" k ++ s) = number_of s.
Proof.
  induction k as [| k IH]; simpl; [reflexivity |].
  now rewrite number_of_zero.
Qed.

Lemma number_of_nat (n : nat) : number_of (nat_to_string n) = n.
Proof.
  unfold number_of, nat_to_string. rewrite NilEmpty.usu.
  apply DecimalNat.Unsigned.of_to.
Qed.

Lemma color_name_inj (i j : nat) : color_name i = color_name j -> i = j.
Proof.
  unfold color_name, Str.padStart. intros H.
  apply (NamingProps.app_inv_head "--c") in H.
  apply (f_equal number_of) in H.
  rewrite !number_of_padded, !number_of_nat in H. lia.
Qed.

Lemma number_from_names (cs : list string) :
  forall i, map snd (Emit.number_from i cs) = map color_name (seq i (List.length cs))
            /\ map fst (Emit.number_from i cs) = cs.
Proof.
  induction cs as [| c rest IH]; intros i; [now split |].
  cbn [Emit.number_from map List.length seq fst snd].
  destruct (IH (S i)) as [IH1 IH2]. rewrite IH1, IH2. now split.
Qed.

(** The digits of a number start with a digit. *)
Lemma string_of_uint_digit (d : Decimal.uint) :
  match NilEmpty.string_of_uint d with
  | String c _ => Str.is_digit c = true
  | EmptyString => True
  end.
Proof. destruct d; simpl; auto. Qed.

Lemma color_name_no_role (i : nat) :
  Str.startsWith (color_name i) "--color-" = false.
Proof.
  unfold color_name, Str.padStart, nat_to_string.
  pose proof (string_of_uint_digit (Nat.to_uint (i + 1))) as H.
  destruct (NilEmpty.string_of_uint (Nat.to_uint (i + 1))) as [| c rest].
  - reflexivity.
  - destruct rest as [| c2 rest]; cbn [String.length Nat.sub Str.repeat append].
    + reflexivity.
    + unfold Str.startsWith. cbn [append String.prefix].
      destruct (ascii_dec "-" "-") as [_ | N]; [| now contradiction N].
      destruct (ascii_dec "c" "c") as [_ | N]; [| now contradiction N].
      destruct (ascii_dec "o" c) as [<- | _]; [discriminate | reflexivity].
Qed.

(** X15. The numbered colours are named [--c01], [--c02], ... in their
    order: each of the remaining colours gets one name, the names are
    pairwise different, and none of them can be taken for a role name
    [--color-...]. *)
Theorem numbered_colors_distinct (t : Emit.Tokens) :
  map fst (Emit.numericColorMap t) = Emit.remainingColors t
  /\ map snd (Emit.numericColorMap t)
     = map color_name (seq 0 (List.length (Emit.remainingColors t)))
  /\ NoDup (map snd (Emit.numericColorMap t))
  /\ (forall name, In name (map snd (Emit.numericColorMap t)) ->
                   Str.startsWith name "--color-" = false).
Proof.
  unfold Emit.numericColorMap.
  destruct (number_from_names (Emit.remainingColors t) 0) as [H1 H2].
  rewrite H1, H2. split; [reflexivity |]. split; [reflexivity |]. split.
  - apply map_NoDup; [| apply seq_NoDup].
    intros x y. apply color_name_inj.
  - intros name Hin. apply in_map_iff in Hin as [i [<- _]].
    apply color_name_no_role.
Qed.

End NumberingProps.

(** ** Scanning and replacing *)

Module ScanProps.

Import Grammar Shape.

Lemma drop_app (x y : string) : Str.drop (String.length x) (x ++ y) = y.
Proof. induction x as [| c x IH]; simpl; [now destruct y | exact IH]. Qed.

Lemma drop_0 (x : string) : Str.drop 0 x = x.
Proof. now destruct x. Qed.

Section Replace.

Variable here : string -> option (string * string).
Variable f : string -> string.

(** The texts the replacement may come to scan. *)
Variable P : string -> Prop.
Hypothesis P_tail : forall c t, P (String c t) -> P t.
Hypothesis kept : forall t m r, P t -> here t = Some (m, r) -> t = m ++ r /\ f m = m.

Lemma replace_go_kept (t : string) :
  forall skip, P t -> (skip <= String.length t)%nat ->
               Re.replace_go here f t skip = Str.drop skip t.
Proof.
  induction t as [| c rest IH]; intros skip Ht Hs.
  - now destruct skip.
  - assert (Hrest : P rest) by now apply (P_tail c).
    destruct skip as [| k]; cbn [Re.replace_go Str.drop].
    + destruct (here (String c rest)) as [[m r] |] eqn:E.
      * destruct (kept _ _ _ Ht E) as [Hsplit Hf].
        destruct m as [| c' m']; cbn [String.length].
        -- now rewrite (IH 0%nat Hrest (Nat.le_0_l _)), drop_0.
        -- rewrite Hf. simpl in Hsplit. injection Hsplit as <- ->.
           rewrite IH; [| exact Hrest |].
           ++ now rewrite drop_app.
           ++ rewrite NamingProps.app_length. lia.
      * now rewrite (IH 0%nat Hrest (Nat.le_0_l _)), drop_0.
    + apply IH; [exact Hrest | simpl in Hs; lia].
Qed.

(** A replacement all of whose matches are replaced by themselves changes
    nothing. *)
Lemma replace_all_kept (t : string) : P t -> Re.replace_all here f t = t.
Proof.
  intros Ht. unfold Re.replace_all.
  rewrite (replace_go_kept t 0 Ht (Nat.le_0_l _)). apply drop_0.
Qed.

End Replace.

(** Every match of the list was found by the scanner somewhere. *)
Lemma matches_go_found (here : string -> option (string * string)) (t : string) :
  forall skip m, In m (Re.matches_go here t skip) ->
                 exists t' r, here t' = Some (m, r).
Proof.
  induction t as [| c rest IH]; intros skip m; [contradiction |].
  destruct skip as [| k]; cbn [Re.matches_go]; [| apply IH].
  destruct (here (String c rest)) as [[m0 r0] |] eqn:E; [| apply IH].
  destruct (String.length m0) as [| k]; [apply IH |].
  intros [<- | H]; [now exists (String c rest), r0 | now apply (IH k)].
Qed.

(** The first match of the list is the match at the first position that
    has one. *)
Lemma token_here_split (ci : bool) (units : list string) (t m r : string) :
  Re.token_here ci units t = Some (m, r) ->
  t = m ++ r /\ exists num u, length_token ci units m num u.
Proof.
  unfold Re.token_here.
  destruct (Re.scan_number t) as [[num rest] |] eqn:En; [| discriminate].
  destruct (Re.scan_unit ci units rest) as [[u rest'] |] eqn:Eu; [| discriminate].
  destruct (Re.word_boundary u rest'); [| discriminate].
  intros H. injection H as <- <-.
  apply ReProps.scan_number_sound in En as [-> Hn].
  apply ReProps.scan_unit_sound in Eu as [-> Hu].
  split; [now rewrite ReProps.app_assoc |].
  exists num, u. repeat split; assumption.
Qed.

Lemma fn_body_split (t : string) :
  forall depth m r, Re.fn_body t depth = Some (m, r) -> t = m ++ r.
Proof.
  induction t as [| c rest IH]; intros depth m r; [discriminate |].
  cbn [Re.fn_body].
  destruct (Ascii.eqb c ")") eqn:E1.
  - destruct depth as [| d].
    + intros H. injection H as <- <-. apply Ascii.eqb_eq in E1. now subst.
    + destruct (Re.fn_body rest d) as [[m' r'] |] eqn:E; [| discriminate].
      intros H. injection H as <- <-. simpl. f_equal. now apply (IH d).
  - destruct (Ascii.eqb c "(").
    + destruct depth as [| [| d]]; try discriminate;
        (destruct (Re.fn_body rest _) as [[m' r'] |] eqn:E; [| discriminate];
         intros H; injection H as <- <-; simpl; f_equal; now apply (IH _ _ _ E)).
    + destruct (Re.fn_body rest depth) as [[m' r'] |] eqn:E; [| discriminate].
      intros H. injection H as <- <-. simpl. f_equal. now apply (IH depth).
Qed.

Lemma fn_here_split (t m r : string) :
  Re.fn_here t = Some (m, r) -> t = m ++ r.
Proof.
  unfold Re.fn_here.
  destruct (Re.scan_unit true ["calc"; "min"; "max"; "clamp"] t)
    as [[name rest] |] eqn:Eu; [| discriminate].
  destruct rest as [| c rest]; [discriminate |].
  destruct c as [[] [] [] [] [] [] [] []]; try discriminate.
  destruct (Re.fn_body rest 0) as [[m' r'] |] eqn:Eb; [| discriminate].
  intros H. injection H as <- <-.
  apply ReProps.scan_unit_sound in Eu as [-> _].
  apply fn_body_split in Eb as ->.
  rewrite !ReProps.app_assoc. reflexivity.
Qed.

End ScanProps.

(** ** Conversion: what is left alone, and the pairs of the command line *)

Module ConvertProps.

Import Num Units Grammar Cases Convert Shape.
Local Open Scope float_scope.

Lemma digit_free_app (x y : string) :
  digit_free (x ++ y) = digit_free x && digit_free y.
Proof.
  induction x as [| c x IH]; simpl; [reflexivity |].
  now rewrite IH, andb_assoc.
Qed.

Lemma digits_not_free (d : string) :
  d <> EmptyString -> digits d = true -> digit_free d = false.
Proof.
  destruct d as [| c d]; [now intros H | intros _].
  simpl. intros H. apply andb_prop in H as [-> _]. reflexivity.
Qed.

(** A number has a digit. *)
Lemma number_has_digit (num : string) :
  number_text num -> digit_free num = false.
Proof.
  intros [sg d Hs Hd Hds | sg d1 d2 Hs Hd1 Hd2 Hds2];
    rewrite !digit_free_app.
  - rewrite (digits_not_free d Hd Hds). apply andb_false_r.
  - rewrite (digits_not_free d2 Hd2 Hds2). now rewrite !andb_false_r.
Qed.

Lemma token_re_digit_free (t : string) :
  digit_free t = true -> token_re t = None.
Proof.
  intros Hf. unfold token_re.
  destruct (Re.token_here true convert_units t) as [[m r] |] eqn:E; [| reflexivity].
  apply ScanProps.token_here_split in E as [-> [num [u [-> [Hn _]]]]].
  rewrite !digit_free_app, (number_has_digit num Hn) in Hf. discriminate.
Qed.

Lemma digit_free_tail (c : ascii) (t : string) :
  digit_free (String c t) = true -> digit_free t = true.
Proof. simpl. intros H. now apply andb_prop in H. Qed.

(** Without a digit there is no token, and nothing is replaced. *)
Lemma tokens_digit_free (g : string -> string) (t : string) :
  digit_free t = true -> Re.replace_all token_re g t = t.
Proof.
  apply (ScanProps.replace_all_kept token_re g (fun x => digit_free x = true)
           digit_free_tail).
  intros x m r Hx E. rewrite (token_re_digit_free x Hx) in E. discriminate.
Qed.

(** With no pair, a token is replaced by itself. *)
Lemma tokens_no_pairs (o : Opts) (t : string) :
  Re.replace_all token_re (convert_token [] o) t = t.
Proof.
  apply (ScanProps.replace_all_kept token_re (convert_token [] o) (fun _ => True)).
  - auto.
  - intros x m r _ E. apply ScanProps.token_here_split in E as [E _].
    split; [exact E | reflexivity].
  - exact I.
Qed.

(** X16. [convertUnitsInValue] leaves alone what has nothing to convert: a
    value is returned as it is when the list of pairs is empty, and,
    whatever the pairs, when it holds no digit. *)
Theorem nothing_to_convert (value : string) (o : Opts) :
  convertUnitsInValue value [] o = value
  /\ forall pairs, digit_free value = true ->
                   convertUnitsInValue value pairs o = value.
Proof.
  split.
  - unfold convertUnitsInValue, convertUnitsInFunctions.
    rewrite (ScanProps.replace_all_kept Re.fn_here _ (fun _ => True)).
    + apply tokens_no_pairs.
    + auto.
    + intros x m r _ E. split; [now apply ScanProps.fn_here_split |].
      apply tokens_no_pairs.
    + exact I.
  - intros pairs Hf. unfold convertUnitsInValue, convertUnitsInFunctions.
    rewrite (ScanProps.replace_all_kept Re.fn_here _ (fun x => digit_free x = true)
               digit_free_tail).
    + now apply tokens_digit_free.
    + intros x m r Hx E. apply ScanProps.fn_here_split in E as ->.
      rewrite digit_free_app in Hx. apply andb_prop in Hx as [Hm _].
      split; [reflexivity | now apply tokens_digit_free].
    + exact Hf.
Qed.

Lemma nothing_to_convert_witness :
  convertUnitsInValue "calc(auto + inherit) solid" [px_rem; rem_em] (opts_of 16 16)
  = "calc(auto + inherit) solid".
Proof.
  apply (proj2 (nothing_to_convert "calc(auto + inherit) solid" (opts_of 16 16))).
  reflexivity.
Defined.

Lemma in_keep {A : Type} (l : list (option A)) (x : A) :
  In x (keep l) <-> In (Some x) l.
Proof.
  induction l as [| [y |] l IH]; simpl; [tauto | |].
  - rewrite IH. split; [intros [-> | H]; auto | intros [H | H]; [injection H; auto | auto]].
  - rewrite IH. split; [auto | intros [H | H]; [discriminate | exact H]].
Qed.

Lemma parse_pair_valid (pair : string) (p : string * string) :
  parse_pair pair = Some p ->
  In (fst p) convert_units /\ In (snd p) convert_units /\ fst p <> snd p.
Proof.
  unfold parse_pair.
  destruct (map _ (Color.split ">" pair)) as [| from [| to rest]]; try discriminate.
  destruct (Str.mem from convert_units) eqn:Hf; [| discriminate].
  destruct (Str.mem to convert_units) eqn:Ht; [| discriminate].
  destruct (String.eqb from to) eqn:He; [discriminate |].
  intros H. injection H as <-. cbn [fst snd].
  apply NamingProps.mem_In in Hf, Ht. apply String.eqb_neq in He. auto.
Qed.

Lemma parsed_valid (spec : option string) (p : string * string) :
  In p (parseConvert spec) ->
  In (fst p) convert_units /\ In (snd p) convert_units /\ fst p <> snd p.
Proof.
  unfold parseConvert. destruct spec as [[| c text] |]; try contradiction.
  intros H. apply in_keep in H. apply in_map_iff in H as [pair [H _]].
  now apply parse_pair_valid in H.
Qed.

Lemma unit_reads_itself (x : string) :
  In x convert_units -> unit_text true convert_units x /\ Str.toLowerCase x = x.
Proof.
  intros H. split.
  - exists x. split; [exact H | reflexivity].
  - unfold convert_units in H. simpl in H.
    repeat (destruct H as [<- | H]; [reflexivity |]). contradiction.
Qed.

Lemma to_px_supported (from : string) (val : number) (o : Opts) :
  In from convert_units -> exists px, to_px from val o = Some px.
Proof.
  unfold convert_units. simpl. intros H.
  repeat (destruct H as [<- | H]; [eexists; reflexivity |]). contradiction.
Qed.

Lemma from_px_supported (to : string) (px : number) (o : Opts) :
  In to convert_units -> exists out, from_px to px o = Some out.
Proof.
  unfold convert_units. simpl. intros H.
  repeat (destruct H as [<- | H]; [eexists; reflexivity |]). contradiction.
Qed.

(** X17. [parseConvert] only returns pairs of two different supported
    units, in lower case; nothing is returned for a missing or empty flag.
    For such a pair [convertLengthUnitToken] never falls through: a number
    followed by the source unit is rewritten as a value in the target unit,
    printed by [prettifyUnit]. *)
Theorem parsed_pairs_convert (spec : option string) :
  (spec = None \/ spec = Some EmptyString -> parseConvert spec = [])
  /\ forall p, In p (parseConvert spec) ->
       In (fst p) convert_units /\ In (snd p) convert_units /\ fst p <> snd p
       /\ forall num o, number_text num ->
            exists px out,
              to_px (fst p) (parseFloat num) o = Some px
              /\ from_px (snd p) px o = Some out
              /\ convertLengthUnitToken (num ++ fst p) (fst p) (snd p) o
                 = prettifyUnit out (snd p).
Proof.
  split; [intros [-> | ->]; reflexivity |].
  intros p Hp. destruct (parsed_valid spec p Hp) as [Hf [Ht Hne]].
  repeat split; try assumption.
  intros num o Hn.
  destruct (unit_reads_itself (fst p) Hf) as [Hu Hl].
  destruct (to_px_supported (fst p) (parseFloat num) o Hf) as [px Hpx].
  destruct (from_px_supported (snd p) px o Ht) as [out Hout].
  exists px, out. split; [exact Hpx |]. split; [exact Hout |].
  rewrite (UnitProps.convert_convertible num (fst p) (fst p) (snd p) o Hn Hu Hl).
  now rewrite Hpx, Hout.
Qed.

Lemma parsed_pairs_convert_witness :
  parseConvert (Some " PX > rem , em>em, pt>px ,rem>%>vh") = [("px", "rem"); ("rem", "%")]
  /\ exists px out,
       to_px "px" (parseFloat "24") (opts_of 16 16) = Some px
       /\ from_px "rem" px (opts_of 16 16) = Some out
       /\ convertLengthUnitToken "24px" "px" "rem" (opts_of 16 16)
          = prettifyUnit out "rem".
Proof.
  split; [vm_compute; reflexivity |].
  apply (proj2 (parsed_pairs_convert (Some "px>rem")) ("px", "rem")).
  - now left.
  - apply (NT_whole EmptyString "24"); [now left | discriminate | reflexivity].
Defined.

End ConvertProps.

(** ** Length literals *)

Module LengthProps.

Import Num Grammar Lengths Cases Shape Convert Typography.
Local Open Scope float_scope.

Lemma digit_not_space (c : ascii) :
  Str.is_digit c = true -> Str.is_space c = false.
Proof.
  unfold Str.is_digit, Str.is_space. intros H.
  apply andb_prop in H as [H1 H2].
  apply Nat.leb_le in H1, H2.
  destruct (Nat.eqb_spec (Str.code c) 32) as [E | _]; [lia |].
  destruct (Nat.leb_spec 9 (Str.code c)) as [_ | _]; simpl; [| reflexivity].
  destruct (Nat.leb_spec (Str.code c) 13) as [E | _]; [lia | reflexivity].
Qed.

Lemma digits_start (d rest : string) :
  d <> EmptyString -> digits d = true -> starts_with not_space (d ++ rest) = true.
Proof.
  destruct d as [| c d]; [now intros H | intros _].
  simpl. intros H. apply andb_prop in H as [H _].
  unfold not_space. now rewrite (digit_not_space c H).
Qed.

(** A number starts with a sign, a digit or a point: no white space. *)
Lemma number_starts (num rest : string) :
  number_text num -> starts_with not_space (num ++ rest) = true.
Proof.
  intros [sg d Hs Hd Hds | sg d1 d2 Hs Hd1 Hd2 Hds2].
  - destruct Hs as [-> | ->]; [| reflexivity].
    simpl. now apply digits_start.
  - destruct Hs as [-> | ->]; [| reflexivity].
    cbn [append]. destruct d1 as [| c d1]; [reflexivity |].
    rewrite ReProps.app_assoc. now apply digits_start.
Qed.

Lemma length_units_prefix_free : prefix_free false length_units = true.
Proof. reflexivity. Qed.

Lemma length_units_shape (x : string) :
  In x length_units -> ends_number x = true /\ x <> EmptyString.
Proof.
  unfold length_units. simpl.
  intros H; repeat (destruct H as [<- | H]; [split; [reflexivity | discriminate] |]);
    contradiction.
Qed.

(** A length token has no white space at either end. *)
Lemma token_trimmed (tok num u : string) :
  length_token false length_units tok num u -> Str.trim tok = tok.
Proof.
  intros [-> [Hn [x [Hx Hu]]]]. cbn in Hu. subst x.
  apply StrProps.trim_fixed; [now apply number_starts |].
  rewrite StrProps.rev_app.
  unfold length_units in Hx. simpl in Hx.
  repeat (destruct Hx as [<- | Hx]; [reflexivity |]). contradiction.
Qed.

Lemma matches_go_none (here : string -> option (string * string))
      (P : string -> Prop) :
  (forall c t, P (String c t) -> P t) ->
  (forall t, P t -> here t = None) ->
  forall t skip, P t -> Re.matches_go here t skip = [].
Proof.
  intros Htail Hnone. induction t as [| c rest IH]; intros skip Ht; [reflexivity |].
  assert (Hrest : P rest) by now apply (Htail c).
  destruct skip as [| k]; cbn [Re.matches_go]; [| now apply IH].
  rewrite (Hnone _ Ht). now apply IH.
Qed.

Lemma extracted_token (value tok : string) :
  In tok (Re.match_all (Re.token_here false length_units) value) ->
  exists num u, length_token false length_units tok num u.
Proof.
  intros H. apply ScanProps.matches_go_found in H as [t [r H]].
  now apply ScanProps.token_here_split in H as [_ H].
Qed.

(** X18. Every literal [extractLengths] returns is a length token, a number
    followed by one of [px rem em % vh vw], which [lenToPx] reads as such;
    [extractBorderWidth] returns the first of them, and nothing when there
    is none; a value without a digit has none. *)
Theorem extracted_lengths (value : string) :
  (forall tok, In tok (extractLengths value) ->
     exists num u, length_token false length_units tok num u
                   /\ Re.match_token false length_units tok = Some (num, u))
  /\ extractBorderWidth value = hd_error (extractLengths value)
  /\ (digit_free value = true -> extractLengths value = []).
Proof.
  unfold extractLengths, extractBorderWidth. split; [| split].
  - intros tok H. apply in_map_iff in H as [m [Ht Hm]].
    destruct (extracted_token value m Hm) as [num [u Hl]].
    rewrite (token_trimmed m num u Hl) in Ht. subst m.
    exists num, u. split; [exact Hl |].
    now apply (ReProps.match_token_complete false length_units tok num u
                 length_units_prefix_free length_units_shape).
  - destruct (Re.match_all (Re.token_here false length_units) value) as [| m rest] eqn:E;
      [reflexivity |].
    assert (Hm : In m (Re.match_all (Re.token_here false length_units) value))
      by (rewrite E; now left).
    destruct (extracted_token value m Hm) as [num [u Hl]].
    cbn [map hd_error]. now rewrite (token_trimmed m num u Hl).
  - intros Hf. unfold Re.match_all.
    rewrite (matches_go_none (Re.token_here false length_units)
               (fun x => digit_free x = true) ConvertProps.digit_free_tail); try easy.
    intros t Ht.
    destruct (Re.token_here false length_units t) as [[m r] |] eqn:E; [| reflexivity].
    apply ScanProps.token_here_split in E as [-> [num [u [-> [Hn _]]]]].
    rewrite !ConvertProps.digit_free_app, (ConvertProps.number_has_digit num Hn) in Ht.
    discriminate.
Qed.

Lemma extracted_lengths_witness :
  extractLengths "solid none" = []
  /\ extractLengths "1px -0.5rem calc(2em + 3vw)" = ["1px"; "-0.5rem"; "2em"; "3vw"].
Proof.
  split; [| vm_compute; reflexivity].
  apply (proj2 (proj2 (extracted_lengths "solid none"))). reflexivity.
Defined.

(** X19. [preferRem] is idempotent for every configuration and literal:
    what it returns is either the literal or a value in [rem], and both are
    returned as they are. *)
Theorem preferRem_idempotent (cfg : Config) (lit : string) :
  preferRem cfg (preferRem cfg lit) = preferRem cfg lit.
Proof.
  assert (H : preferRem cfg lit = lit \/ exists x, preferRem cfg lit = x ++ "rem").
  { unfold preferRem.
    destruct (Re.match_token false ["px"] lit) as [[num u] |]; [| now left].
    destruct (rem (parseFloat num) 4 =? 0); [| now left].
    right. eexists. reflexivity. }
  destruct H as [H | [x H]]; rewrite H.
  - exact H.
  - apply SpacingProps.preferRem_not_px. intros n _.
    apply SpacingProps.rem_is_not_px.
Qed.

Lemma safe_units_prefix_free : prefix_free true safe_units = true.
Proof. reflexivity. Qed.

Lemma safe_units_shape (x : string) :
  In x safe_units -> ends_number x = true /\ x <> EmptyString.
Proof.
  unfold safe_units. simpl.
  intros H; repeat (destruct H as [<- | H]; [split; [reflexivity | discriminate] |]);
    contradiction.
Qed.

Lemma safe_token_trimmed (num u : string) :
  number_text num -> In u length_units -> Str.trim (num ++ u) = num ++ u.
Proof.
  intros Hn Hu. apply (token_trimmed (num ++ u) num u).
  repeat split; [exact Hn |]. exists u. split; [exact Hu | reflexivity].
Qed.

Lemma safe_reads (cfg : Config) (num u : string) :
  number_text num -> In u safe_units ->
  Re.match_token true safe_units (Str.trim (num ++ u)) = Some (num, u)
  /\ Re.match_token false length_units (num ++ u) = Some (num, u).
Proof.
  intros Hn Hu.
  assert (Hu' : In u length_units).
  { unfold safe_units in Hu. unfold length_units. simpl in *. tauto. }
  rewrite (safe_token_trimmed num u Hn Hu'). split.
  - apply (ReProps.match_token_complete true safe_units _ num u
             safe_units_prefix_free safe_units_shape).
    repeat split; [exact Hn |]. exists u. split; [exact Hu | reflexivity].
  - apply (ReProps.match_token_complete false length_units _ num u
             length_units_prefix_free length_units_shape).
    repeat split; [exact Hn |]. exists u. split; [exact Hu' | reflexivity].
Qed.

(** The last character of a text that reads as [px], [rem] or [em] is a
    letter [x] or [m]. *)
Lemma safe_unit_last (u : string) :
  unit_text true safe_units u ->
  exists c rest, Str.rev u = String c rest
                 /\ (Str.lower c = "x"%char \/ Str.lower c = "m"%char).
Proof.
  intros [x [Hx Hu]]. unfold safe_units in Hx. simpl in Hx.
  destruct Hx as [<- | [<- | [<- | []]]]; cbn in Hu.
  - destruct u as [| a [| b [| c u]]]; try discriminate.
    injection Hu as _ Hb. exists b, (String a EmptyString). auto.
  - destruct u as [| a [| b [| c [| d u]]]]; try discriminate.
    injection Hu as _ _ Hc. exists c, (String b (String a EmptyString)). auto.
  - destruct u as [| a [| b [| c u]]]; try discriminate.
    injection Hu as _ Hb. exists b, (String a EmptyString). auto.
Qed.

(** A token of another unit is none of [lenToPxSafe]'s. *)
Lemma safe_rejects (num u : string) (c : ascii) (w : string) :
  number_text num -> In u length_units ->
  Str.rev u = String c w ->
  Str.lower c <> "x"%char -> Str.lower c <> "m"%char ->
  Re.match_token true safe_units (Str.trim (num ++ u)) = None.
Proof.
  intros Hn Hu Hr Hx Hm. rewrite (safe_token_trimmed num u Hn Hu).
  destruct (Re.match_token true safe_units (num ++ u)) as [[n' u'] |] eqn:E;
    [| reflexivity].
  apply ReProps.match_token_sound in E as [Hs [_ Hu']].
  apply safe_unit_last in Hu' as [c' [rest [Hr' Hc']]].
  apply (f_equal Str.rev) in Hs.
  rewrite !StrProps.rev_app, Hr, Hr' in Hs. simpl in Hs.
  injection Hs as -> _. destruct Hc'; contradiction.
Qed.

(** X20. [lenToPxSafe] agrees with [lenToPx] on a number followed by [px],
    [rem] or [em], and measures a number followed by [%], [vh] or [vw] as
    0, where [lenToPx] gives the number. *)
Theorem safe_lengths (cfg : Config) (num : string) :
  number_text num ->
  (forall u, In u safe_units ->
             lenToPxSafe cfg (num ++ u) = lenToPx cfg (num ++ u))
  /\ (forall u, In u ["%"; "vh"; "vw"] ->
                lenToPxSafe cfg (num ++ u) = 0
                /\ lenToPx cfg (num ++ u) = parseFloat num).
Proof.
  intros Hn. split.
  - intros u Hu. destruct (safe_reads cfg num u Hn Hu) as [H1 H2].
    unfold lenToPxSafe, lenToPx. rewrite H1, H2.
    unfold safe_units in Hu. simpl in Hu.
    repeat (destruct Hu as [<- | Hu]; [reflexivity |]). contradiction.
  - intros u Hu.
    assert (Hu' : In u length_units).
    { unfold length_units. simpl in *. tauto. }
    split.
    + unfold lenToPxSafe.
      assert (Hnone : Re.match_token true safe_units (Str.trim (num ++ u)) = None).
      { simpl in Hu.
        destruct Hu as [<- | [<- | [<- | []]]];
          [apply (safe_rejects num "%" "%" EmptyString)
          | apply (safe_rejects num "vh" "h" "v")
          | apply (safe_rejects num "vw" "w" "v")];
          try assumption; try reflexivity; discriminate. }
      now rewrite Hnone.
    + unfold lenToPx.
      rewrite (ReProps.match_token_complete false length_units (num ++ u) num u
                 length_units_prefix_free length_units_shape).
      * simpl in Hu. repeat (destruct Hu as [<- | Hu]; [reflexivity |]).
        contradiction.
      * repeat split; [exact Hn |]. exists u. split; [exact Hu' | reflexivity].
Qed.

Lemma safe_lengths_witness :
  lenToPxSafe default_config "120%" = 0
  /\ lenToPx default_config "120%" = parseFloat "120".
Proof.
  apply (proj2 (safe_lengths default_config "120"
                  (NT_whole EmptyString "120" (or_introl eq_refl)
                            ltac:(discriminate) eq_refl)) "%").
  now left.
Defined.

End LengthProps.

(** ** Percentages and the word boundary *)

Module PercentProps.

Import Num Units Grammar Lengths Cases Shape Convert.
Local Open Scope float_scope.

(** A character that lower case turns into a small letter is no character
    of a number and no percent sign; only the percent sign turns into the
    percent sign. *)
Lemma lower_classes (c : ascii) :
  (Str.is_lower (Str.lower c) = true ->
   number_char c = false /\ c <> "%"%char)
  /\ (Str.lower c = "%"%char -> c = "%"%char)
  /\ (Str.is_lower c = true -> Str.lower c = c).
Proof.
  destruct c as [[] [] [] [] [] [] [] []];
    (split; [| split]); vm_compute; try discriminate; try reflexivity;
    intros _; split; try reflexivity; discriminate.
Qed.

Section Units.

Variable ci : bool.
Variable units : list string.
Hypothesis small : forall x, In x units ->
  x = "%" \/ exists c w, x = String c w /\ Str.is_lower c = true.

(** A unit of the list is the percent sign, or starts with a letter. *)
Lemma unit_cases (u : string) :
  unit_text ci units u ->
  u = "%" \/ exists c w, u = String c w /\ number_char c = false /\ c <> "%"%char.
Proof.
  intros [x [Hx Hu]]. destruct (small x Hx) as [-> | [cx [w [-> Hl]]]].
  - left. destruct ci; [| exact Hu].
    destruct u as [| c [| c2 u]]; try discriminate.
    cbn in Hu. injection Hu as Hc.
    now rewrite (proj1 (proj2 (lower_classes c)) Hc).
  - right. destruct u as [| c u'].
    + destruct ci; discriminate.
    + exists c, u'. split; [reflexivity |].
      apply (proj1 (lower_classes c)).
      destruct ci.
      * cbn in Hu. injection Hu as Hc _.
        rewrite Hc, (proj2 (proj2 (lower_classes cx)) Hl). exact Hl.
      * injection Hu as -> _.
        rewrite (proj2 (proj2 (lower_classes cx)) Hl). exact Hl.
Qed.

(** In a number followed by the percent sign, every character but the last
    is a character of a number. *)
Lemma percent_split (d : string) :
  number_chars d = true ->
  forall n c rest, n ++ String c rest = d ++ "%" ->
                   number_char c = true \/ (c = "%"%char /\ rest = EmptyString).
Proof.
  induction d as [| c0 d IH]; intros Hd n c rest H.
  - destruct n as [| a n]; simpl in H.
    + injection H as -> ->. now right.
    + injection H as _ H. now destruct n.
  - simpl in Hd. apply andb_prop in Hd as [Hc0 Hd].
    destruct n as [| a n]; simpl in H.
    + injection H as -> _. now left.
    + injection H as _ H. now apply (IH Hd n).
Qed.

Lemma percent_tail_tail (c : ascii) (t : string) :
  percent_tail (String c t) -> percent_tail t.
Proof.
  intros [H | [d [Hd H]]]; [discriminate |].
  destruct d as [| c0 d]; simpl in H.
  - injection H as _ ->. now left.
  - injection H as _ ->. simpl in Hd. apply andb_prop in Hd as [_ Hd].
    right. now exists d.
Qed.

(** No token is found there: after the sign comes the end, and the end is
    no word boundary. *)
Lemma token_here_percent (t : string) :
  percent_tail t -> Re.token_here ci units t = None.
Proof.
  intros [-> | [d [Hd ->]]]; [reflexivity |].
  unfold Re.token_here.
  destruct (Re.scan_number (d ++ "%")) as [[n rest] |] eqn:En; [| reflexivity].
  destruct (Re.scan_unit ci units rest) as [[u rest'] |] eqn:Eu; [| reflexivity].
  apply ReProps.scan_number_sound in En as [Hs _].
  apply ReProps.scan_unit_sound in Eu as [-> Hu].
  destruct (unit_cases u Hu) as [-> | [c [w [-> [Hc Hp]]]]].
  - symmetry in Hs. cbn [append] in Hs.
    destruct (percent_split d Hd _ _ _ Hs) as [H | [_ ->]]; [discriminate |].
    reflexivity.
  - symmetry in Hs. cbn [append] in Hs.
    destruct (percent_split d Hd _ _ _ Hs) as [H | [H _]];
      [rewrite H in Hc; discriminate | contradiction].
Qed.

End Units.

Lemma convert_units_small (x : string) :
  In x convert_units ->
  x = "%" \/ exists c w, x = String c w /\ Str.is_lower c = true.
Proof.
  unfold convert_units. simpl. intros H.
  repeat (destruct H as [<- | H];
          [first [now left | right; eexists; eexists; split; reflexivity] |]).
  contradiction.
Qed.

Lemma length_units_small (x : string) :
  In x length_units ->
  x = "%" \/ exists c w, x = String c w /\ Str.is_lower c = true.
Proof.
  unfold length_units. simpl. intros H.
  repeat (destruct H as [<- | H];
          [first [now left | right; eexists; eexists; split; reflexivity] |]).
  contradiction.
Qed.

Lemma function_names_small (x : string) :
  In x ["calc"; "min"; "max"; "clamp"] ->
  x = "%" \/ exists c w, x = String c w /\ Str.is_lower c = true.
Proof.
  simpl. intros H.
  repeat (destruct H as [<- | H]; [right; eexists; eexists; split; reflexivity |]).
  contradiction.
Qed.

Lemma fn_here_percent (t : string) : percent_tail t -> Re.fn_here t = None.
Proof.
  intros [-> | [d [Hd ->]]]; [reflexivity |].
  unfold Re.fn_here.
  destruct (Re.scan_unit true ["calc"; "min"; "max"; "clamp"] (d ++ "%"))
    as [[name rest] |] eqn:Eu; [| reflexivity].
  apply ReProps.scan_unit_sound in Eu as [Hs Hu].
  destruct (unit_cases true _ function_names_small name Hu)
    as [-> | [c [w [-> [Hc Hp]]]]].
  - destruct Hu as [x [Hx Hu]]. simpl in Hx.
    repeat (destruct Hx as [<- | Hx]; [discriminate |]). contradiction.
  - symmetry in Hs.
    destruct (percent_split d Hd EmptyString c (w ++ rest) Hs) as [H | [H _]];
      [rewrite H in Hc; discriminate | contradiction].
Qed.

Lemma digits_number_chars (d : string) : digits d = true -> number_chars d = true.
Proof.
  induction d as [| c d IH]; simpl; [reflexivity |].
  intros H. apply andb_prop in H as [Hc Hd].
  unfold number_char. now rewrite Hc, (IH Hd).
Qed.

Lemma number_chars_app (x y : string) :
  number_chars (x ++ y) = number_chars x && number_chars y.
Proof.
  induction x as [| c x IH]; simpl; [reflexivity |].
  now rewrite IH, andb_assoc.
Qed.

Lemma number_number_chars (num : string) :
  number_text num -> number_chars num = true.
Proof.
  intros [sg d Hs Hd Hds | sg d1 d2 Hs Hd1 Hd2 Hds2];
    rewrite !number_chars_app;
    destruct Hs as [-> | ->]; cbn [number_chars andb];
    rewrite ?(digits_number_chars _ Hds), ?(digits_number_chars _ Hd1),
      ?(digits_number_chars _ Hds2); reflexivity.
Qed.

(** Every match of the list was found at some place of the text. *)
Lemma matches_go_place (here : string -> option (string * string)) (t : string) :
  forall skip m, In m (Re.matches_go here t skip) ->
                 exists pre t' r, t = pre ++ t' /\ here t' = Some (m, r).
Proof.
  induction t as [| c rest IH]; intros skip m; [contradiction |].
  assert (Hnext : forall k, In m (Re.matches_go here rest k) ->
            exists pre t' r, String c rest = pre ++ t' /\ here t' = Some (m, r)).
  { intros k H. destruct (IH k m H) as [pre [t' [r [-> E]]]].
    now exists (String c pre), t', r. }
  destruct skip as [| k]; cbn [Re.matches_go]; [| apply Hnext].
  destruct (here (String c rest)) as [[m0 r0] |] eqn:E; [| apply Hnext].
  destruct (String.length m0) as [| k]; [apply Hnext |].
  intros [<- | H]; [| now apply (Hnext k)].
  now exists EmptyString, (String c rest), r0.
Qed.

(** A token with its boundary: the unit ends on a word character exactly
    when the text after it does not start with one. *)
Lemma token_here_boundary (ci : bool) (us : list string) (t m r : string) :
  Re.token_here ci us t = Some (m, r) ->
  exists num u, length_token ci us m num u /\ t = m ++ r
                /\ Re.word_boundary u r = true.
Proof.
  unfold Re.token_here.
  destruct (Re.scan_number t) as [[num rest] |] eqn:En; [| discriminate].
  destruct (Re.scan_unit ci us rest) as [[u rest'] |] eqn:Eu; [| discriminate].
  destruct (Re.word_boundary u rest') eqn:Eb; [| discriminate].
  intros H. injection H as <- <-.
  apply ReProps.scan_number_sound in En as [-> Hn].
  apply ReProps.scan_unit_sound in Eu as [-> Hu].
  exists num, u. repeat split; try assumption.
  now rewrite ReProps.app_assoc.
Qed.

(** X21. The word boundary that closes the length expressions sits between
    a word character and another character, and the percent sign is no
    word character: a percentage is found only where a letter, a digit or
    an underscore follows it.  So a number followed by [%] and nothing else
    is never converted, whatever the pairs, and never extracted as a
    length; and whenever [extractLengths] returns a percentage, a word
    character follows it in the value. *)
Theorem percent_needs_word_after :
  (forall num pairs o, number_text num ->
      convertUnitsInValue (num ++ "%") pairs o = num ++ "%")
  /\ (forall num, number_text num -> extractLengths (num ++ "%") = [])
  /\ (forall value tok,
         In tok (extractLengths value) -> Color.ends_percent tok = true ->
         exists pre c post, value = pre ++ tok ++ String c post
                            /\ Str.is_word c = true).
Proof.
  split; [| split].
  - intros num pairs o Hn.
    assert (Ht : percent_tail (num ++ "%")).
    { right. exists num. split; [now apply number_number_chars | reflexivity]. }
    unfold convertUnitsInValue, convertUnitsInFunctions.
    rewrite (ScanProps.replace_all_kept Re.fn_here _ percent_tail percent_tail_tail).
    + apply (ScanProps.replace_all_kept token_re _ percent_tail percent_tail_tail);
        [| exact Ht].
      intros t m r Hp E. unfold token_re in E.
      rewrite (token_here_percent true convert_units convert_units_small t Hp) in E.
      discriminate.
    + intros t m r Hp E. rewrite (fn_here_percent t Hp) in E. discriminate.
    + exact Ht.
  - intros num Hn. unfold extractLengths, Re.match_all.
    rewrite (LengthProps.matches_go_none _ percent_tail percent_tail_tail).
    + reflexivity.
    + apply (token_here_percent false length_units length_units_small).
    + right. exists num. split; [now apply number_number_chars | reflexivity].
  - intros value tok Hin He. unfold extractLengths in Hin.
    apply in_map_iff in Hin as [m [Ht Hm]].
    apply matches_go_place in Hm as [pre [t' [r [-> E]]]].
    apply token_here_boundary in E as [num [u [Hl [-> Hb]]]].
    rewrite (LengthProps.token_trimmed m num u Hl) in Ht. subst tok.
    destruct Hl as [-> [Hn [x [Hx Hu]]]]. cbn in Hu. subst x.
    unfold Color.ends_percent in He. rewrite StrProps.rev_app in He.
    unfold Re.word_boundary, Re.last_char in Hb.
    destruct (Str.rev u) as [| c w] eqn:Er.
    { apply (f_equal Str.rev) in Er. rewrite StrProps.rev_involutive in Er.
      subst u. unfold length_units in Hx. simpl in Hx.
      repeat (destruct Hx as [Hx | Hx]; [discriminate |]). contradiction. }
    cbn [append] in He.
    destruct c as [[] [] [] [] [] [] [] []]; try discriminate.
    destruct r as [| c r]; [discriminate |].
    exists pre, c, r. split; [reflexivity |].
    cbn in Hb. exact Hb.
Qed.

End PercentProps.

(** ** Easing functions *)

Module EasingProps.

Import Easing.

(** A text that starts with [p ++ q] starts with [p]. *)
Lemma strip_prefix_longer (p q t r : string) :
  Str.strip_prefix false (p ++ q) t = Some r ->
  exists r', Str.strip_prefix false p t = Some r'.
Proof.
  revert t. induction p as [| a p IH]; intros t; simpl.
  - intros _. now exists t.
  - destruct t as [| b t]; [discriminate |].
    destruct (Ascii.eqb a b); [apply IH | discriminate].
Qed.

Lemma strip_prefix_take (p t r : string) :
  Str.strip_prefix false p t = Some r -> Str.take (String.length p) t = p.
Proof. intros H. now apply ReProps.strip_prefix_split in H as [_ H]. Qed.

Lemma call_here_shape (name t m r : string) :
  call_here name t = Some (m, r) -> exists args, m = name ++ "(" ++ args ++ ")".
Proof.
  unfold call_here.
  destruct (Str.strip_prefix false (name ++ "(") t) as [rest |]; [| discriminate].
  destruct (Str.drop_while not_closing rest) as [| c rest']; [discriminate |].
  intros H. injection H as <- _. now eexists.
Qed.

Lemma ease_here_reachable (t m r : string) :
  ease_here t = Some (m, r) -> reachable m.
Proof.
  unfold ease_here, easing_words. cbn [Re.scan_unit].
  destruct (Str.strip_prefix false "linear" t) as [r1 |] eqn:E1.
  { intros H. assert (Hm : m = "linear")
      by (rewrite <- (strip_prefix_take _ _ _ E1); congruence).
    subst m. left. now left. }
  destruct (Str.strip_prefix false "ease" t) as [r2 |] eqn:E2.
  { intros H. assert (Hm : m = "ease")
      by (rewrite <- (strip_prefix_take _ _ _ E2); congruence).
    subst m. left. right. now left. }
  destruct (Str.strip_prefix false "ease-in" t) as [r3 |] eqn:E3.
  { destruct (strip_prefix_longer "ease" "-in" t r3 E3) as [r' E].
    rewrite E in E2. discriminate. }
  destruct (Str.strip_prefix false "ease-out" t) as [r4 |] eqn:E4.
  { destruct (strip_prefix_longer "ease" "-out" t r4 E4) as [r' E].
    rewrite E in E2. discriminate. }
  destruct (Str.strip_prefix false "ease-in-out" t) as [r5 |] eqn:E5.
  { destruct (strip_prefix_longer "ease" "-in-out" t r5 E5) as [r' E].
    rewrite E in E2. discriminate. }
  destruct (Str.strip_prefix false "step-start" t) as [r6 |] eqn:E6.
  { intros H. assert (Hm : m = "step-start")
      by (rewrite <- (strip_prefix_take _ _ _ E6); congruence).
    subst m. left. right. right. now left. }
  destruct (Str.strip_prefix false "step-end" t) as [r7 |] eqn:E7.
  { intros H. assert (Hm : m = "step-end")
      by (rewrite <- (strip_prefix_take _ _ _ E7); congruence).
    subst m. left. right. right. right. now left. }
  destruct (call_here "steps" t) as [[m1 r8] |] eqn:E8.
  { intros H. injection H as <- _. right. left.
    now apply call_here_shape in E8. }
  intros H. right. right. now apply call_here_shape in H.
Qed.

(** X22. The alternatives of the easing expression are tried in order, and
    [ease] stands before [ease-in], [ease-out] and [ease-in-out]: these
    three are never extracted, the match is their first word [ease].  What
    [extractEasings] returns is [linear], [ease], [step-start], [step-end],
    or a call of [steps] or [cubic-bezier] up to its first closing
    parenthesis. *)
Theorem easing_alternatives (val : string) :
  (forall e, In e (extractEasings val) ->
             reachable e
             /\ e <> "ease-in" /\ e <> "ease-out" /\ e <> "ease-in-out")
  /\ extractEasings "all 200ms ease-in-out, color 1s cubic-bezier(0.4, 0, 0.2, 1)"
     = ["ease"; "cubic-bezier(0.4, 0, 0.2, 1)"].
Proof.
  split; [| vm_compute; reflexivity].
  intros e H. unfold extractEasings in H.
  apply ScanProps.matches_go_found in H as [t [r H]].
  apply ease_here_reachable in H. split; [exact H |].
  destruct H as [H | [[args ->] | [args ->]]].
  - simpl in H. repeat (destruct H as [<- | H]; [repeat split; discriminate |]).
    contradiction.
  - repeat split; discriminate.
  - repeat split; discriminate.
Qed.

End EasingProps.

(** ** The map from colours to role names *)

Module SemanticProps.

Import Emit.

Lemma map_set_In (k v : string) (m : NameMap) (p : string * string) :
  In p (map_set k v m) -> p = (k, v) \/ In p m.
Proof.
  induction m as [| [k' v'] m IH]; simpl.
  - intros [<- | []]. now left.
  - destruct (String.eqb k k').
    + intros [<- | H]; [now left | right; now right].
    + intros [<- | H]; [right; now left |].
      destruct (IH H) as [-> | H']; [now left | right; now right].
Qed.

Lemma map_set_has (k v : string) (m : NameMap) : In (k, v) (map_set k v m).
Proof.
  induction m as [| [k' v'] m IH]; simpl; [now left |].
  destruct (String.eqb k k'); [now left | now right].
Qed.

Lemma map_set_keeps (k v : string) (m : NameMap) (k0 : string) :
  In k0 (map fst m) -> In k0 (map fst (map_set k v m)).
Proof.
  induction m as [| [k' v'] m IH]; simpl; [contradiction |].
  destruct (String.eqb_spec k k') as [-> | Hne]; simpl; [tauto |].
  intros [<- | H]; [now left | right; now apply IH].
Qed.

Lemma map_set_keys (k v : string) (m : NameMap) (k0 : string) :
  In k0 (map fst (map_set k v m)) -> k0 = k \/ In k0 (map fst m).
Proof.
  intros H. apply in_map_iff in H as [[k1 v1] [<- H]].
  apply map_set_In in H as [H | H].
  - injection H as -> _. now left.
  - right. apply in_map_iff. now exists (k1, v1).
Qed.

Lemma map_set_NoDup (k v : string) (m : NameMap) :
  NoDup (map fst m) -> NoDup (map fst (map_set k v m)).
Proof.
  induction m as [| [k' v'] m IH]; simpl; intros H.
  - repeat constructor. intros [].
  - apply NoDup_cons_iff in H as [Hh Ht].
    destruct (String.eqb_spec k k') as [-> | Hne]; simpl.
    + now constructor.
    + constructor; [| now apply IH].
      intros Hin. apply map_set_keys in Hin as [-> | Hin]; [now apply Hne | contradiction].
Qed.

Lemma keys_functional (m : NameMap) (c v1 v2 : string) :
  NoDup (map fst m) -> In (c, v1) m -> In (c, v2) m -> v1 = v2.
Proof.
  induction m as [| [k v] m IH]; [contradiction |].
  simpl. intros H1 Ha Hb. apply NoDup_cons_iff in H1 as [Hh Ht].
  destruct Ha as [Ha | Ha], Hb as [Hb | Hb].
  - congruence.
  - injection Ha as -> _. elim Hh. apply in_map_iff. now exists (c, v2).
  - injection Hb as -> _. elim Hh. apply in_map_iff. now exists (c, v1).
  - now apply IH.
Qed.

(** The entries of the map while the roles are read. *)
Lemma semantic_fold (rs : list (string * option string)) :
  forall m,
    NoDup (map fst m) ->
    let m' := fold_left (fun m p => match snd p with
                                    | Some c => map_set c (fst p) m
                                    | None => m
                                    end) rs m in
    NoDup (map fst m')
    /\ (forall c v, In (c, v) m' -> In (c, v) m \/ In (v, Some c) rs)
    /\ (forall c, In c (map fst m) -> In c (map fst m'))
    /\ (forall v c, In (v, Some c) rs -> In c (map fst m')).
Proof.
  induction rs as [| [v0 [c0 |]] rs IH]; intros m Hm; cbn [fold_left fst snd].
  - repeat split; auto. intros v c [].
  - destruct (IH (map_set c0 v0 m) (map_set_NoDup c0 v0 m Hm)) as [H1 [H2 [H3 H4]]].
    split; [exact H1 |]. split; [| split].
    + intros c v H. destruct (H2 c v H) as [H' | H']; [| right; now right].
      apply map_set_In in H' as [H' | H']; [| now left].
      injection H' as -> ->. right. now left.
    + intros c H. apply H3. now apply map_set_keeps.
    + intros v c [H | H]; [| now apply (H4 v)].
      injection H as -> ->. apply H3.
      apply in_map_iff. exists (c, v). split; [reflexivity | apply map_set_has].
  - destruct (IH m Hm) as [H1 [H2 [H3 H4]]].
    split; [exact H1 |]. split; [| split].
    + intros c v H. destruct (H2 c v H) as [H' | H']; [now left | right; now right].
    + exact H3.
    + intros v c [H | H]; [discriminate | now apply (H4 v)].
Qed.

(** X23. [semanticMap] is keyed by colour: every colour a role holds has
    exactly one entry, however many roles hold it, and the entry names one
    of the roles that hold the colour.  So of several roles with the same
    colour, [varToColor] can find the colour for one only. *)
Theorem semantic_map_keys (t : Tokens) :
  NoDup (map fst (semanticMap t))
  /\ (forall c v, In (c, v) (semanticMap t) -> In (v, Some c) (roles t))
  /\ (forall v c, In (v, Some c) (roles t) -> In c (map fst (semanticMap t)))
  /\ (forall c v1 v2, In (c, v1) (semanticMap t) -> In (c, v2) (semanticMap t) ->
                      v1 = v2).
Proof.
  unfold semanticMap.
  destruct (semantic_fold (roles t) [] (NoDup_nil _)) as [H1 [H2 [_ H4]]].
  cbv zeta in *.
  split; [exact H1 |]. split; [| split].
  - intros c v H. destruct (H2 c v H) as [[] | H']. exact H'.
  - exact H4.
  - intros c v1 v2. now apply keys_functional.
Qed.

Lemma find_none {A : Type} (f : A -> bool) (l : list A) :
  (forall x, In x l -> f x = false) -> find f l = None.
Proof.
  induction l as [| x l IH]; simpl; [reflexivity |].
  intros H. rewrite (H x (or_introl eq_refl)). apply IH. intros y Hy.
  apply H. now right.
Qed.

(** A numbered colour is looked up under its name, and its name leads back
    to it. *)
Lemma number_from_round (cs : list string) (c : string) :
  forall i, In c cs ->
    exists j, (i <= j)%nat
              /\ get (number_from i cs) c = Numbering.color_name j
              /\ find (fun p => String.eqb (snd p) (Numbering.color_name j))
                      (number_from i cs)
                 = Some (c, Numbering.color_name j).
Proof.
  induction cs as [| c0 cs IH]; intros i Hin; [contradiction |].
  cbn [number_from]. fold (Numbering.color_name i).
  destruct (String.eqb_spec c0 c) as [-> | Hne].
  - exists i. split; [lia |]. unfold get. cbn [find fst snd].
    rewrite !String.eqb_refl. split; reflexivity.
  - destruct Hin as [Hin | Hin]; [contradiction |].
    destruct (IH (S i) Hin) as [j [Hj [Hg Hf]]].
    exists j. split; [lia |]. unfold get in *. cbn [find fst snd].
    destruct (String.eqb_spec c0 c) as [E | _]; [contradiction |].
    split; [exact Hg |].
    destruct (String.eqb_spec (Numbering.color_name i) (Numbering.color_name j))
      as [E | _]; [| exact Hf].
    apply NumberingProps.color_name_inj in E. lia.
Qed.

Lemma semantic_values (t : Tokens) (c v : string) :
  In (c, v) (semanticMap t) -> In (v, Some c) (roles t).
Proof.
  unfold semanticMap.
  destruct (semantic_fold (roles t) [] (NoDup_nil _)) as [_ [H2 _]].
  cbv zeta in H2. intros H. destruct (H2 c v H) as [[] | H']. exact H'.
Qed.

(** X27. A numbered colour always leads back to itself: when the keys of
    the role object are names [--color-...], as the script's are, the name
    a colour left without a role is numbered with is resolved by
    [varToColor] to that colour, so the colour is emitted from its own
    literal. *)
Theorem numbered_color_round_trip (t : Tokens) (c : string) :
  Numbering.role_names_only t = true ->
  In c (remainingColors t) ->
  varToColor t (get (numericColorMap t) c) = Some c
  /\ colorOf t (get (numericColorMap t) c) = Color.toRgba c.
Proof.
  intros Hr Hin.
  assert (H : varToColor t (get (numericColorMap t) c) = Some c).
  { unfold varToColor, numericColorMap.
    destruct (number_from_round (remainingColors t) c 0 Hin) as [j [_ [Hg Hf]]].
    rewrite Hg, Hf. rewrite find_none; [reflexivity |].
    intros [c' v'] Hs. cbn [snd]. apply semantic_values in Hs.
    unfold Numbering.role_names_only in Hr. rewrite forallb_forall in Hr.
    specialize (Hr _ Hs). cbn [fst] in Hr.
    destruct (String.eqb_spec v' (Numbering.color_name j)) as [-> | _];
      [| reflexivity].
    rewrite NumberingProps.color_name_no_role in Hr. discriminate. }
  split; [exact H |]. unfold colorOf. now rewrite H.
Qed.

Lemma numbered_color_round_trip_witness :
  varToColor Numbering.two_left "--c02" = Some "#ef4444"
  /\ colorOf Numbering.two_left "--c02" = Color.toRgba "#ef4444".
Proof.
  apply (numbered_color_round_trip Numbering.two_left "#ef4444");
    [reflexivity | right; now left].
Defined.

End SemanticProps.

(** ** The parse *)

Module ParseProps.

Import Parse Shape.


Lemma all_chars_app (f : ascii -> bool) (x y : string) :
  all_chars f (x ++ y) = all_chars f x && all_chars f y.
Proof.
  induction x as [| c x IH]; simpl; [reflexivity |].
  now rewrite IH, andb_assoc.
Qed.

Lemma all_chars_rev (f : ascii -> bool) (x : string) :
  all_chars f (Str.rev x) = all_chars f x.
Proof.
  induction x as [| c x IH]; [reflexivity |].
  rewrite StrProps.rev_cons, all_chars_app, IH. simpl.
  rewrite andb_true_r. apply andb_comm.
Qed.





Lemma all_chars_weaken (f g : ascii -> bool) (x : string) :
  (forall c, f c = true -> g c = true) ->
  all_chars f x = true -> all_chars g x = true.
Proof.
  intros Hfg. induction x as [| c x IH]; simpl; [reflexivity |].
  intros H. apply andb_prop in H as [Hc Hx]. now rewrite (Hfg c Hc), IH.
Qed.

Lemma all_chars_starts (f : ascii -> bool) (x : string) :
  all_chars f x = true -> starts_with f x = true.
Proof. destruct x; simpl; [reflexivity |]. intros H. now apply andb_prop in H. Qed.

(** A text without white space is its own [trim]. *)
Lemma trim_solid (x : string) :
  all_chars not_space x = true -> Str.trim x = x.
Proof.
  intros H. apply StrProps.trim_fixed.
  - now apply all_chars_starts.
  - apply all_chars_starts. now rewrite all_chars_rev.
Qed.

Lemma drop_while_all (f : ascii -> bool) (x : string) :
  all_chars f x = true -> Str.drop_while f x = EmptyString.
Proof.
  induction x as [| c x IH]; simpl; [reflexivity |].
  intros H. apply andb_prop in H as [-> Hx]. now apply IH.
Qed.




Section Exec.

Context {A : Type}.
Variable here : string -> option (A * nat).
Variable P : string -> Prop.
Hypothesis P_tail : forall c t, P (String c t) -> P t.


Lemma exec_go_none (str : string) :
  (forall t, P t -> here t = None) ->
  forall skip, P str -> exec_go here str skip = [].
Proof.
  intros Hnone. induction str as [| c rest IH]; intros skip Hs; [reflexivity |].
  assert (Hrest : P rest) by now apply (P_tail c).
  destruct skip as [| k]; cbn [exec_go]; [| now apply IH].
  rewrite (Hnone _ Hs). now apply IH.
Qed.

End Exec.






End ParseProps.

(** ** The candidate tables *)

Module CollectProps.

Import Orders Parse Collect Grammar Lengths.

Lemma keys_bump (k : string) (t : Table) :
  keys (bump k t) = if Str.mem k (keys t) then keys t else (keys t ++ [k])%list.
Proof.
  unfold Str.mem, keys. induction t as [| [k' n] t IH]; simpl; [reflexivity |].
  destruct (String.eqb k k'); simpl; [reflexivity |].
  rewrite IH. now destruct (existsb (String.eqb k) (map fst t)).
Qed.

Lemma count_bump (k' : string) (t : Table) (k : string) :
  count_in (bump k' t) k
  = (count_in t k + if String.eqb k' k then 1 else 0)%nat.
Proof.
  unfold count_in. induction t as [| [k0 n] t IH]; simpl.
  - destruct (String.eqb k' k); reflexivity.
  - destruct (String.eqb_spec k' k0) as [-> | Hne]; simpl.
    + destruct (String.eqb k0 k); lia.
    + destruct (String.eqb_spec k0 k) as [-> | Hne2]; simpl.
      * destruct (String.eqb_spec k' k) as [-> | _]; [now elim Hne | lia].
      * exact IH.
Qed.

Lemma bump_In (k' : string) (t : Table) (k : string) (n : nat) :
  In (k, n) (bump k' t) ->
  (k = k' /\ (1 <= n)%nat) \/ In (k, n) t.
Proof.
  induction t as [| [k0 n0] t IH]; simpl.
  - intros [H | []]. injection H as <- <-. left. split; [reflexivity | lia].
  - destruct (String.eqb_spec k' k0) as [-> | Hne].
    + intros [H | H]; [| right; now right].
      injection H as <- <-. left. split; [reflexivity | lia].
    + intros [H | H]; [right; now left |].
      destruct (IH H) as [H' | H']; [now left | right; now right].
Qed.

Section Tally.

Lemma tally_keys (stream : list string) :
  forall t, keys (fold_left (fun t k => bump k t) stream t)
            = fold_left (fun acc k => if Str.mem k acc then acc else (acc ++ [k])%list)
                        stream (keys t).
Proof.
  induction stream as [| k stream IH]; intros t; simpl; [reflexivity |].
  now rewrite IH, keys_bump.
Qed.

Lemma tally_count (stream : list string) (k : string) :
  forall t, count_in (fold_left (fun t k => bump k t) stream t) k
            = (count_in t k + occurrences k stream)%nat.
Proof.
  induction stream as [| x stream IH]; intros t; simpl; [lia |].
  rewrite IH, count_bump. lia.
Qed.

Lemma tally_In (stream : list string) (k : string) (n : nat) :
  forall t, In (k, n) (fold_left (fun t k => bump k t) stream t) ->
            ((1 <= n)%nat /\ In k stream) \/ In (k, n) t.
Proof.
  induction stream as [| x stream IH]; intros t; simpl; [now right |].
  intros H. destruct (IH _ H) as [[H1 H2] | H'].
  - left. split; [exact H1 | now right].
  - apply bump_In in H' as [[-> H1] | H']; [| now right].
    left. split; [exact H1 | now left].
Qed.

Lemma seen_NoDup (stream : list string) :
  forall acc, NoDup acc ->
              NoDup (fold_left (fun acc k => if Str.mem k acc then acc
                                             else (acc ++ [k])%list) stream acc).
Proof.
  induction stream as [| k stream IH]; intros acc Ha; simpl; [exact Ha |].
  apply IH. destruct (Str.mem k acc) eqn:E; [exact Ha |].
  apply NamingProps.mem_not_In in E.
  apply NoDup_app; [exact Ha | repeat constructor; intros [] |].
  intros a Hin [<- | []]. contradiction.
Qed.

(** The table of the counting loop is the tally of its stream. *)
Lemma tally_spec (stream : list string) :
  tallies (fold_left (fun t k => bump k t) stream []) stream.
Proof.
  unfold tallies. rewrite tally_keys. split; [reflexivity |]. split; [| split].
  - apply seen_NoDup. constructor.
  - intros k. now rewrite tally_count.
  - intros k n H. apply tally_In in H as [H | []]. exact H.
Qed.

End Tally.

(** The two loops of the collection read the entries' literals in order. *)
Lemma nested_fold {A : Type} (h : A -> list string) (es : list A) :
  forall t, fold_left (fun t e => fold_left (fun t k => bump k t) (h e) t) es t
            = fold_left (fun t k => bump k t) (flat_map h es) t.
Proof.
  induction es as [| e es IH]; intros t; simpl; [reflexivity |].
  now rewrite fold_left_app, IH.
Qed.

Lemma extracted_is_token (value tok : string) :
  In tok (extractLengths value) ->
  exists num u, length_token false length_units tok num u.
Proof.
  unfold extractLengths. intros H. apply in_map_iff in H as [m [Ht Hm]].
  destruct (LengthProps.extracted_token value m Hm) as [num [u Hl]].
  rewrite (LengthProps.token_trimmed m num u Hl) in Ht. subst m.
  now exists num, u.
Qed.

Lemma width_is_token (value w : string) :
  extractBorderWidth value = Some w ->
  exists num u, length_token false length_units w num u.
Proof.
  unfold extractBorderWidth.
  destruct (Re.match_all (Re.token_here false length_units) value) as [| m rest] eqn:E;
    [discriminate |].
  intros H. injection H as <-.
  apply (LengthProps.extracted_token value). rewrite E. now left.
Qed.

(** X25. The counting loops keep their tables in step with what they read:
    [byLength] has one entry for each length extracted from a spacing
    property, in the order of first appearance, whose count is the number of
    times the length was extracted, and [byBorderWidth] the same for the
    first length of each property whose name starts with [border] or
    [outline]; every key of either table is a length token. *)
Theorem collected_tables (entries : list Entry) :
  tallies (byLength entries) (flat_map lengths_of entries)
  /\ tallies (byBorderWidth entries) (flat_map width_of entries)
  /\ (forall k n, In (k, n) (byLength entries) \/ In (k, n) (byBorderWidth entries) ->
                  exists num u, length_token false length_units k num u).
Proof.
  unfold byLength, byBorderWidth. rewrite !nested_fold.
  split; [apply tally_spec |]. split; [apply tally_spec |].
  intros k n [H | H].
  - apply tally_In in H as [[_ H] | []].
    apply in_flat_map in H as [e [_ H]]. unfold lengths_of in H.
    destruct (Str.mem (prop e) spacing_props); [| contradiction].
    now apply (extracted_is_token (value e)).
  - apply tally_In in H as [[_ H] | []].
    apply in_flat_map in H as [e [_ H]]. unfold width_of in H.
    destruct (_ || _); [| contradiction].
    destruct (extractBorderWidth (value e)) as [w |] eqn:E; [| contradiction].
    destruct H as [<- | []]. now apply (width_is_token (value e)).
Qed.

End CollectProps.

(** ** Colour literals found in a value *)

Module PaletteProps.

Import Num Color Cases Parse Palette Shape.
Local Open Scope float_scope.

(** A hexadecimal digit is one of the twenty-two, is no white space, and
    stays a digit in lower case. *)
Lemma hex_classes (c : ascii) :
  is_hex c = true ->
  In c hex_chars /\ not_space c = true /\ is_hex (Str.lower c) = true.
Proof.
  destruct c as [[] [] [] [] [] [] [] []]; vm_compute; intros H;
    try discriminate; (split; [| split; reflexivity]);
    repeat first [ now left | right ].
Qed.

Lemma all_pairs_checked :
  forallb (fun x => forallb (pair_checked x) hex_chars) hex_chars = true.
Proof. vm_compute. reflexivity. Qed.

(** Two hexadecimal digits are read as a channel value. *)
Lemma hex_pair (x y : ascii) :
  is_hex x = true -> is_hex y = true ->
  exists k, (0 <= k <= 255)%Z
            /\ parseInt16 (String x (String y EmptyString)) = of_Z k.
Proof.
  intros Hx Hy. apply hex_classes in Hx as [Hx _], Hy as [Hy _].
  pose proof all_pairs_checked as H. rewrite forallb_forall in H.
  specialize (H x Hx). rewrite forallb_forall in H. specialize (H y Hy).
  unfold pair_checked in H.
  apply andb_prop in H as [H H3]. apply andb_prop in H as [H1 H2].
  apply FloatAxioms.Leibniz.eqb_spec in H1.
  exists (pair_value x y). split; [lia | exact H1].
Qed.

Lemma all_alpha_checked : forallb alpha_checked channels = true.
Proof. vm_compute. reflexivity. Qed.

Lemma alpha_range (k : Z) :
  (0 <= k <= 255)%Z -> (0 <=? unit255 k) = true /\ (unit255 k <=? 1) = true.
Proof.
  intros Hk.
  pose proof (ColorProps.channels_checked alpha_checked all_alpha_checked k Hk) as H.
  unfold alpha_checked in H. now apply andb_prop in H.
Qed.

Lemma toLowerCase_hex (w : string) :
  all_chars is_hex w = true -> all_chars is_hex (Str.toLowerCase w) = true.
Proof.
  induction w as [| c w IH]; simpl; [reflexivity |].
  intros H. apply andb_prop in H as [Hc Hw].
  now rewrite (proj2 (proj2 (hex_classes c Hc))), IH.
Qed.

Lemma hex_solid (w : string) :
  all_chars is_hex w = true -> all_chars not_space w = true.
Proof.
  apply ParseProps.all_chars_weaken. intros c H. now apply hex_classes in H.
Qed.

(** [toRgba] hands a [#] with hexadecimal digits to [hexToRgba], in lower
    case. *)
Lemma toRgba_hex (w : string) :
  all_chars is_hex w = true ->
  toRgba (String "#" w) = hexToRgba (String "#" (Str.toLowerCase w)).
Proof.
  intros Hw. unfold toRgba.
  rewrite ParseProps.trim_solid by (simpl; now rewrite (hex_solid w Hw)).
  assert (E : Str.toLowerCase (String "#" w) = String "#" (Str.toLowerCase w))
    by reflexivity.
  rewrite E.
  assert (S : Str.startsWith (String "#" (Str.toLowerCase w)) "#" = true)
    by (now destruct (Str.toLowerCase w)).
  rewrite S. reflexivity.
Qed.

Lemma hexToRgba_three (x y z : ascii) :
  hexToRgba (String "#" (String x (String y (String z EmptyString))))
  = mkRGBA (parseInt16 (String x (String x EmptyString)))
           (parseInt16 (String y (String y EmptyString)))
           (parseInt16 (String z (String z EmptyString))) 1.
Proof. reflexivity. Qed.

Lemma hexToRgba_four (x y z u : ascii) :
  hexToRgba (String "#" (String x (String y (String z (String u EmptyString)))))
  = mkRGBA (parseInt16 (String x (String x EmptyString)))
           (parseInt16 (String y (String y EmptyString)))
           (parseInt16 (String z (String z EmptyString)))
           (parseInt16 (String u (String u EmptyString)) / 255).
Proof. reflexivity. Qed.

Lemma hexToRgba_eight (a1 a2 b1 b2 c1 c2 d1 d2 : ascii) :
  hexToRgba (String "#" (String a1 (String a2 (String b1 (String b2
              (String c1 (String c2 (String d1 (String d2 EmptyString)))))))))
  = mkRGBA (parseInt16 (String a1 (String a2 EmptyString)))
           (parseInt16 (String b1 (String b2 EmptyString)))
           (parseInt16 (String c1 (String c2 EmptyString)))
           (parseInt16 (String d1 (String d2 EmptyString)) / 255).
Proof. reflexivity. Qed.

Ltac hex_facts H :=
  simpl in H;
  repeat match type of H with
         | (_ && _) = true => let H1 := fresh "Hc" in apply andb_prop in H as [H1 H]
         end.

Ltac read_pair x y Hx Hy k Hk E :=
  destruct (hex_pair x y Hx Hy) as [k [Hk E]]; rewrite E.

(** Hexadecimal digits in one of the four lengths give eight-bit channels. *)
Lemma hexToRgba_eight_bit (w : string) :
  all_chars is_hex w = true -> hex_length (String.length w) = true ->
  eight_bit (hexToRgba (String "#" w)).
Proof.
  intros Hw Hl. unfold eight_bit.
  destruct w as [| x [| y [| z [| u [| v [| t [| p [| q [| o w]]]]]]]]];
    try discriminate.
  - rewrite hexToRgba_three. hex_facts Hw.
    read_pair x x Hc Hc kr Hr Er. read_pair y y Hc0 Hc0 kg Hg Eg.
    read_pair z z Hc1 Hc1 kb Hb Eb.
    exists kr, kg, kb. repeat split; try lia. now left.
  - rewrite hexToRgba_four. hex_facts Hw.
    read_pair x x Hc Hc kr Hr Er. read_pair y y Hc0 Hc0 kg Hg Eg.
    read_pair z z Hc1 Hc1 kb Hb Eb. read_pair u u Hc2 Hc2 k Hk Ek.
    exists kr, kg, kb. repeat split; try lia. right. exists k.
    destruct (alpha_range k Hk). repeat split; try lia; assumption.
  - rewrite ColorProps.hexToRgba_six. hex_facts Hw.
    read_pair x y Hc Hc0 kr Hr Er. read_pair z u Hc1 Hc2 kg Hg Eg.
    read_pair v t Hc3 Hc4 kb Hb Eb.
    exists kr, kg, kb. repeat split; try lia. now left.
  - rewrite hexToRgba_eight. hex_facts Hw.
    read_pair x y Hc Hc0 kr Hr Er. read_pair z u Hc1 Hc2 kg Hg Eg.
    read_pair v t Hc3 Hc4 kb Hb Eb. read_pair p q Hc5 Hc6 k Hk Ek.
    exists kr, kg, kb. repeat split; try lia. right. exists k.
    destruct (alpha_range k Hk). repeat split; try lia; assumption.
Qed.

Lemma func_here_shape (name t m r : string) :
  func_here name t = Some (m, r) ->
  exists x, m = name ++ x
            /\ starts_with not_space (Str.rev (name ++ x)) = true.
Proof.
  unfold func_here.
  destruct (Str.strip_prefix false name t) as [r0 |]; [| discriminate].
  destruct (match r0 with String "a"%char t0 => ("a", t0) | _ => (EmptyString, r0) end)
    as [a r1].
  destruct r1 as [| c r2]; [discriminate |].
  destruct c as [[] [] [] [] [] [] [] []]; try discriminate.
  destruct (Str.take_while Easing.not_closing r2) as [| c body]; [discriminate |].
  destruct (Str.drop_while Easing.not_closing r2) as [| c' r3]; [discriminate |].
  intros H. injection H as <- _.
  exists (a ++ "(" ++ String c body ++ ")"). split; [reflexivity |].
  rewrite <- !ReProps.app_assoc, StrProps.rev_app. reflexivity.
Qed.

(** What [COLOR_RE] matches: a [#] with digits, or a call of [rgb] or
    [hsl]; in every case a text without white space at its ends. *)
Lemma color_here_shape (t m r : string) :
  color_here t = Some (m, r) ->
  Str.trim m = m
  /\ ((exists w, m = String "#" w /\ all_chars is_hex w = true
                 /\ hex_length (String.length w) = true)
      \/ (exists x, m = "rgb" ++ x) \/ (exists x, m = "hsl" ++ x)).
Proof.
  unfold color_here.
  destruct (hex_here t) as [[m0 r0] |] eqn:Eh.
  - intros H. injection H as <- <-. unfold hex_here in Eh.
    destruct t as [| c rest]; [discriminate |].
    destruct c as [[] [] [] [] [] [] [] []]; try discriminate.
    destruct (all_chars is_hex (Str.take_while Str.is_word rest)) eqn:E1;
      [| discriminate].
    destruct (hex_length _) eqn:E2; [| discriminate].
    injection Eh as <- _. split.
    + apply ParseProps.trim_solid. simpl. now rewrite (hex_solid _ E1).
    + left. now eexists.
  - destruct (func_here "rgb" t) as [[m1 r1] |] eqn:Er.
    + intros H. injection H as <- <-.
      apply func_here_shape in Er as [x [-> Hrev]].
      split; [now apply StrProps.trim_fixed |]. right. left. now exists x.
    + intros H. apply func_here_shape in H as [x [-> Hrev]].
      split; [now apply StrProps.trim_fixed |]. right. right. now exists x.
Qed.

Lemma starts_with_name (name x : string) :
  Str.startsWith (name ++ x) name = true.
Proof.
  unfold Str.startsWith. induction name as [| c name IH]; simpl.
  - now destruct x.
  - destruct (ascii_dec c c) as [_ | N]; [exact IH | now elim N].
Qed.

(** X26. Every colour literal found in a value is read by one of the three
    parsers of [toRgba], never by its fallback; and a literal that starts
    with [#] always denotes eight-bit channels (three integers in
    [0, 255]) and an alpha that is 1 or a channel value divided by 255,
    in [0, 1]: no hexadecimal colour that is found gives a [NaN]. *)
Theorem found_colors_parse (value k : string) :
  In k (colors value) ->
  (Str.startsWith k "#" = true \/ Str.startsWith k "rgb" = true
   \/ Str.startsWith k "hsl" = true)
  /\ (Str.startsWith k "#" = true -> eight_bit (toRgba k)).
Proof.
  unfold colors. intros H. apply in_map_iff in H as [m [Hk Hm]].
  apply ScanProps.matches_go_found in Hm as [t [r Hm]].
  apply color_here_shape in Hm as [Ht Hm]. rewrite Ht in Hk. subst m.
  destruct Hm as [[w [-> [Hw Hl]]] | [[x ->] | [x ->]]].
  - split; [left; apply (starts_with_name "#" w) |]. intros _.
    rewrite (toRgba_hex w Hw). apply hexToRgba_eight_bit.
    + now apply toLowerCase_hex.
    + now rewrite ReProps.toLowerCase_length.
  - split; [right; left; apply starts_with_name | discriminate].
  - split; [right; right; apply starts_with_name | discriminate].
Qed.

Lemma found_colors_parse_witness :
  eight_bit (toRgba "#3B82F680").
Proof.
  assert (H : In "#3B82F680" (colors "border: 1px solid #3B82F680"))
    by (vm_compute; now left).
  apply (proj2 (found_colors_parse "border: 1px solid #3B82F680" "#3B82F680" H)).
  reflexivity.
Defined.

End PaletteProps.

(** ** Durations *)

Module DurationProps.

Import Num Grammar Motion Shape.
Local Open Scope float_scope.

Lemma scan_decimal_minus (u : string) :
  scan_decimal (String "-" u) = scan_unsigned true u.
Proof. reflexivity. Qed.

(** Without a sign the scan starts at once. *)
Lemma scan_decimal_plain (c : ascii) (t : string) :
  number_start c = true ->
  scan_decimal (String c t) = scan_unsigned false (String c t)
  /\ Str.strip_prefix false "Infinity" (String c t) = None
  /\ Str.is_space c = false.
Proof.
  intros H. destruct c as [[] [] [] [] [] [] [] []];
    vm_compute in H; try discriminate H; clear H;
    (split; [unfold scan_decimal, scan_unsigned; reflexivity | split; reflexivity]).
Qed.

Lemma scan_exponent_none (rest : string) :
  ends_decimal rest = true -> scan_exponent rest = (0%Z, rest).
Proof.
  destruct rest as [| c r]; [reflexivity |]. simpl. intros H.
  apply andb_prop in H as [_ H]. apply negb_true_iff in H.
  unfold scan_exponent. now rewrite H.
Qed.

Lemma match_point (rest : string) :
  ends_decimal rest = true ->
  match rest with
  | String "."%char t =>
      (Str.take_while Str.is_digit t, Str.drop_while Str.is_digit t)
  | _ => (EmptyString, rest)
  end = (EmptyString, rest).
Proof.
  destruct rest as [| c r]; [reflexivity |]. simpl. intros H.
  apply andb_prop in H as [H _]. apply andb_prop in H as [_ H].
  destruct c as [[] [] [] [] [] [] [] []]; try reflexivity. discriminate.
Qed.

Lemma ends_decimal_digit (rest : string) :
  ends_decimal rest = true ->
  match rest with String c _ => Str.is_digit c = false | EmptyString => True end.
Proof.
  destruct rest as [| c r]; [auto |]. simpl. intros H.
  apply andb_prop in H as [H _]. apply andb_prop in H as [H _].
  now apply negb_true_iff in H.
Qed.

(** Digits alone, up to what cannot continue them. *)
Lemma scan_unsigned_whole (neg : bool) (d rest : string) :
  d <> EmptyString -> digits d = true -> ends_decimal rest = true ->
  scan_unsigned neg (d ++ rest) = Some (decimal_of neg d EmptyString, rest).
Proof.
  intros Hne Hd Hr.
  destruct (ReProps.take_while_app d rest Hd (ends_decimal_digit rest Hr)) as [Ht Hdr].
  unfold scan_unsigned.
  assert (Hinf : Str.strip_prefix false "Infinity" (d ++ rest) = None).
  { destruct d as [| c d']; [now elim Hne |]. simpl in Hd.
    apply andb_prop in Hd as [Hc _].
    apply (scan_decimal_plain c (d' ++ rest)).
    unfold number_start. now rewrite Hc. }
  rewrite Hinf, Ht, Hdr, (match_point rest Hr), (scan_exponent_none rest Hr).
  destruct d as [| c d']; [now elim Hne |]. reflexivity.
Qed.

(** Digits, a point and digits. *)
Lemma scan_unsigned_fraction (neg : bool) (d1 d2 rest : string) :
  digits d1 = true -> d2 <> EmptyString -> digits d2 = true ->
  ends_decimal rest = true ->
  scan_unsigned neg (d1 ++ "." ++ d2 ++ rest) = Some (decimal_of neg d1 d2, rest).
Proof.
  intros Hd1 Hne Hd2 Hr.
  destruct (ReProps.take_while_app d1 ("." ++ d2 ++ rest) Hd1 eq_refl) as [Ht1 Hdr1].
  destruct (ReProps.take_while_app d2 rest Hd2 (ends_decimal_digit rest Hr)) as [Ht2 Hdr2].
  unfold scan_unsigned.
  assert (Hinf : Str.strip_prefix false "Infinity" (d1 ++ "." ++ d2 ++ rest) = None).
  { destruct d1 as [| c d']; [reflexivity |]. simpl in Hd1.
    apply andb_prop in Hd1 as [Hc _].
    apply (scan_decimal_plain c (d' ++ "." ++ d2 ++ rest)).
    unfold number_start. now rewrite Hc. }
  rewrite Hinf, Ht1, Hdr1. cbn [append]. rewrite Ht2, Hdr2.
  rewrite (scan_exponent_none rest Hr).
  destruct d2 as [| c d2']; [now elim Hne |].
  destruct d1; reflexivity.
Qed.


Lemma scan_decimal_number (num rest : string) :
  number_text num -> ends_decimal rest = true ->
  exists x, forall tail, ends_decimal tail = true ->
                         scan_decimal (num ++ tail) = Some (x, tail).
Proof.
  intros Hn Hr.
  destruct Hn as [sg d Hs Hne Hd | sg d1 d2 Hs Hd1 Hne Hd2].
  - destruct Hs as [-> | ->].
    + exists (decimal_of false d EmptyString). intros tail Ht. cbn [append].
      destruct d as [| c d'] eqn:E; [now elim Hne |].
      assert (Hc : number_start c = true).
      { simpl in Hd. apply andb_prop in Hd as [Hc _].
        unfold number_start. now rewrite Hc. }
      cbn [append].
      rewrite (proj1 (scan_decimal_plain c (d' ++ tail) Hc)).
      apply (scan_unsigned_whole false (String c d') tail); assumption.
    + exists (decimal_of true d EmptyString). intros tail Ht. cbn [append].
      rewrite scan_decimal_minus. now apply scan_unsigned_whole.
  - destruct Hs as [-> | ->].
    + exists (decimal_of false d1 d2). intros tail Ht. cbn [append].
      rewrite !ReProps.app_assoc. cbn [append].
      pose proof (scan_unsigned_fraction false d1 d2 tail Hd1 Hne Hd2 Ht) as H.
      cbn [append] in H. rewrite <- H.
      destruct d1 as [| c d'].
      * now apply (scan_decimal_plain "." (d2 ++ tail)).
      * apply (scan_decimal_plain c (d' ++ String "." (d2 ++ tail))).
        simpl in Hd1. apply andb_prop in Hd1 as [Hc _].
        unfold number_start. now rewrite Hc.
    + exists (decimal_of true d1 d2). intros tail Ht. cbn [append].
      rewrite scan_decimal_minus, !ReProps.app_assoc.
      now apply scan_unsigned_fraction.
Qed.

(** [parseFloat] reads the number of a token and ignores its unit. *)
Lemma parseFloat_token (num tail : string) :
  number_text num -> ends_decimal tail = true ->
  parseFloat (num ++ tail) = parseFloat num.
Proof.
  intros Hn Ht.
  destruct (scan_decimal_number num tail Hn Ht) as [x Hx].
  unfold parseFloat, Str.trimStart.
  rewrite (StrProps.drop_while_fixed (num ++ tail))
    by now apply LengthProps.number_starts.
  assert (E : Str.drop_while Str.is_space num = num).
  { pose proof (LengthProps.number_starts num EmptyString Hn) as H.
    rewrite ReProps.app_nil_r in H. now apply StrProps.drop_while_fixed. }
  rewrite E, (Hx tail Ht).
  pose proof (Hx EmptyString eq_refl) as H0. rewrite ReProps.app_nil_r in H0.
  now rewrite H0.
Qed.

(** A number ends with a digit. *)
Lemma number_ends_digit (num : string) :
  number_text num ->
  exists c w, Str.rev num = String c w /\ Str.is_digit c = true.
Proof.
  assert (Hd : forall d, d <> EmptyString -> digits d = true ->
                 exists c w, Str.rev d = String c w /\ Str.is_digit c = true).
  { intros d Hne Hd. destruct (Str.rev d) as [| c w] eqn:E.
    - apply (f_equal Str.rev) in E. rewrite StrProps.rev_involutive in E.
      now elim Hne.
    - exists c, w. split; [reflexivity |].
      assert (H : digits (String c w) = true).
      { rewrite <- E. clear E Hne.
        induction d as [| a d IH]; [reflexivity |].
        simpl in Hd. apply andb_prop in Hd as [Ha Hd].
        rewrite StrProps.rev_cons.
        assert (Happ : forall x y, digits x = true -> digits y = true ->
                                   digits (x ++ y) = true).
        { induction x as [| b x IHx]; simpl; [auto |].
          intros y Hx Hy. apply andb_prop in Hx as [Hb Hx].
          now rewrite Hb, IHx. }
        apply Happ; [now apply IH | simpl; now rewrite Ha]. }
      simpl in H. now apply andb_prop in H. }
  intros [sg d Hs Hne Hds | sg d1 d2 Hs Hd1 Hne Hd2].
  - destruct (Hd d Hne Hds) as [c [w [E Hc]]].
    exists c, (w ++ Str.rev sg). split; [| exact Hc].
    now rewrite StrProps.rev_app, E.
  - destruct (Hd d2 Hne Hd2) as [c [w [E Hc]]].
    exists c, (w ++ Str.rev (sg ++ d1 ++ ".")). split; [| exact Hc].
    rewrite <- !ReProps.app_assoc, StrProps.rev_app, E. reflexivity.
Qed.

Lemma toMs_seconds (str : string) (c : ascii) (w : string) :
  Str.rev str = String "s" (String c w) -> Str.is_digit c = true ->
  Emit.toMs str = parseFloat str * 1000.
Proof.
  intros Hr Hc. unfold Emit.toMs. rewrite Hr.
  destruct c as [[] [] [] [] [] [] [] []]; try reflexivity; discriminate.
Qed.

Lemma duration_token (t m r : string) :
  Re.token_here false duration_units t = Some (m, r) ->
  exists num, number_text num /\ (m = num ++ "ms" \/ m = num ++ "s").
Proof.
  intros H. apply ScanProps.token_here_split in H as [_ [num [u [-> [Hn [x [Hx Hu]]]]]]].
  cbn in Hu. subst x. exists num. split; [exact Hn |].
  destruct Hx as [<- | [<- | []]]; auto.
Qed.

(** X28. Every duration [extractDurations] returns is a number followed by
    [ms] or [s], and its milliseconds are the number itself for [ms] and
    the number times 1000 for [s]: [parseFloat] reads the number and
    ignores the unit. *)
Theorem extracted_durations (val : string) (d : string * number) :
  In d (extractDurations val) ->
  exists num,
    number_text num
    /\ ((fst d = num ++ "ms" /\ snd d = parseFloat num)
        \/ (fst d = num ++ "s" /\ snd d = parseFloat num * 1000)).
Proof.
  unfold extractDurations. intros H. apply in_map_iff in H as [str [<- Hs]].
  apply ScanProps.matches_go_found in Hs as [t [r Hs]].
  apply duration_token in Hs as [num [Hn [-> | ->]]]; exists num;
    (split; [exact Hn |]); cbn [fst snd].
  - left. split; [reflexivity |].
    unfold Emit.toMs. rewrite StrProps.rev_app. cbn [Str.rev Str.rev_onto append].
    now apply parseFloat_token.
  - right. split; [reflexivity |].
    destruct (number_ends_digit num Hn) as [c [w [Er Hc]]].
    rewrite (toMs_seconds (num ++ "s") c w); [| | exact Hc].
    + now rewrite parseFloat_token.
    + now rewrite StrProps.rev_app, Er.
Qed.

Lemma extracted_durations_witness :
  extractDurations "opacity 200ms ease-in, transform .3s" = [("200ms", 200); (".3s", 300)]
  /\ exists num,
       number_text num
       /\ (("200ms" = num ++ "ms" /\ 200 = parseFloat num)
           \/ ("200ms" = num ++ "s" /\ 200 = parseFloat num * 1000)).
Proof.
  assert (E : extractDurations "opacity 200ms ease-in, transform .3s"
              = [("200ms", 200); (".3s", 300)]) by (vm_compute; reflexivity).
  split; [exact E |].
  apply (extracted_durations "opacity 200ms ease-in, transform .3s" ("200ms", 200)).
  rewrite E. now left.
Defined.

End DurationProps.
